(** * The per-batch training step of [script/tri_loss/train.py]

    A shallow embedding of the body of the [while not epoch_done] loop of
    [main] (lines 229-386): the per-model forward pass, the three mutual
    learning blocks, the composition of the total loss, the backward passes,
    the optimizer steps and the meter updates of the step log.

    Conventions.
    - Python floats are idealised as rationals ([Q]); equalities between
      computed values are stated up to [==].
    - A tensor is a shape together with its elements in row-major order.
    - An autograd [Variable] is its data together with the models whose
      parameters are reachable through its history ([leaves]); [detach]
      empties that list and [backward] accumulates a gradient into exactly
      the models listed.
    - The network, the loss functions of [aligned_reid] and the functions of
      [torch] that the script only calls are parameters ([externals]).
    - Every call the claims talk about leaves an [event] in the trace of the
      step. *)

From Stdlib Require Import List Bool Arith Lia ZArith QArith Qfield.
Import ListNotations.

Close Scope Q_scope.
Set Implicit Arguments.

(* ================================================================== *)
(** * Tensors *)

Record tensor := mkTensor { shape : list nat; elems : list Q }.

(** A one-element tensor, the shape of every loss value. *)
Definition scalar_t (q : Q) : tensor := mkTensor [1] [q].

Definition Qnat (n : nat) : Q := inject_Z (Z.of_nat n).

Definition Qsum (l : list Q) : Q := fold_right Qplus 0%Q l.

(** [w > 0] and [w == 0] on configured weights. *)
Definition Qgt0 (w : Q) : bool := negb (Qle_bool w 0).
Definition Qis0 (w : Q) : bool := Qeq_bool w 0.

Fixpoint shape_eqb (a b : list nat) : bool :=
  match a, b with
  | [], [] => true
  | x :: a', y :: b' => (x =? y) && shape_eqb a' b'
  | _, _ => false
  end.

Fixpoint zip_with (f : Q -> Q -> Q) (xs ys : list Q) : list Q :=
  match xs, ys with
  | x :: xs', y :: ys' => f x y :: zip_with f xs' ys'
  | _, _ => []
  end.

Definition t_map (f : Q -> Q) (t : tensor) : tensor :=
  mkTensor (shape t) (map f (elems t)).

(** [len(ims)]: the first dimension. *)
Definition py_len (t : tensor) : nat := hd 0 (shape t).

(** [t.mean()]. *)
Definition t_mean (t : tensor) : Q :=
  (Qsum (elems t) / Qnat (length (elems t)))%Q.

(** A distance matrix of a batch of [n] samples: shape [n; n]. *)
Definition mat_ok (n : nat) (t : tensor) : bool :=
  shape_eqb (shape t) [n; n] && (length (elems t) =? n * n).

(* ================================================================== *)
(** * Python values, exceptions *)

Inductive exn :=
| AttributeError | IndexError | NameError | TypeError | RuntimeError.

Definition result (A : Type) : Type := (exn + A)%type.

Definition bindR {A B} (c : result A) (k : A -> result B) : result B :=
  match c with
  | inl e => inl e
  | inr a => k a
  end.

Notation "'let?' x ':=' c 'in' k" := (bindR c (fun x => k))
  (at level 10, x name, c at level 100, k at level 200).

Definition from_option {A} (e : exn) (o : option A) : result A :=
  match o with
  | Some a => inr a
  | None => inl e
  end.

(** An autograd Variable. *)
Record Var := mkVar { data : tensor; leaves : list nat }.

(** What a Python name of the step is bound to: a number (the placeholder
    [0] of a disabled term, a weight) or a Variable. *)
Inductive pyval :=
| PyNum (q : Q)
| PyVar (v : Var).

Definition t_zip (f : Q -> Q -> Q) (a b : tensor) : result tensor :=
  if shape_eqb (shape a) (shape b)
  then inr (mkTensor (shape a) (zip_with f (elems a) (elems b)))
  else inl RuntimeError.

Definition var_map (f : Q -> Q) (v : Var) : Var :=
  mkVar (t_map f (data v)) (leaves v).

Definition var_zip (f : Q -> Q -> Q) (u v : Var) : result Var :=
  let? t := t_zip f (data u) (data v) in
  inr (mkVar t (leaves u ++ leaves v)).

(** [x + y]. *)
Definition py_add (x y : pyval) : result pyval :=
  match x, y with
  | PyNum a, PyNum b => inr (PyNum (a + b)%Q)
  | PyNum a, PyVar v => inr (PyVar (var_map (fun e => e + a)%Q v))
  | PyVar u, PyNum b => inr (PyVar (var_map (fun e => e + b)%Q u))
  | PyVar u, PyVar v => let? r := var_zip Qplus u v in inr (PyVar r)
  end.

(** [x - y]. *)
Definition py_sub (x y : pyval) : result pyval :=
  match x, y with
  | PyNum a, PyNum b => inr (PyNum (a - b)%Q)
  | PyNum a, PyVar v => inr (PyVar (var_map (fun e => a - e)%Q v))
  | PyVar u, PyNum b => inr (PyVar (var_map (fun e => e - b)%Q u))
  | PyVar u, PyVar v => let? r := var_zip Qminus u v in inr (PyVar r)
  end.

(** [x * w] and [x / w] for a Python number [w]. *)
Definition py_mul_num (x : pyval) (w : Q) : pyval :=
  match x with
  | PyNum a => PyNum (a * w)%Q
  | PyVar v => PyVar (var_map (fun e => e * w)%Q v)
  end.

Definition py_div_num (x : pyval) (w : Q) : pyval :=
  match x with
  | PyNum a => PyNum (a / w)%Q
  | PyVar v => PyVar (var_map (fun e => e / w)%Q v)
  end.

(** [x.detach()]: same data, no history.  A Python number has no such
    attribute. *)
Definition detach (x : pyval) : result Var :=
  match x with
  | PyVar v => inr (mkVar (data v) [])
  | PyNum _ => inl AttributeError
  end.

(** [TVT(x)], the transfer of a Variable or tensor to the device of one
    model ([x.cpu()] or [x.cuda(id)]): data and history are kept.  Device
    placement itself is not tracked. *)
Definition TVT (dev : nat) (x : pyval) : result pyval :=
  match x with
  | PyVar v => inr (PyVar v)
  | PyNum _ => inl AttributeError
  end.

(** [torch.pow(x, 2)] and [torch.sum(x)]. *)
Definition torch_pow2 (x : pyval) : result Var :=
  match x with
  | PyVar v => inr (var_map (fun e => e * e)%Q v)
  | PyNum _ => inl TypeError
  end.

Definition torch_sum (v : Var) : Var :=
  mkVar (scalar_t (Qsum (elems (data v)))) (leaves v).

(** [to_scalar(vt)]: the first element of a Variable. *)
Definition to_scalar (x : pyval) : result Q :=
  match x with
  | PyVar v => from_option IndexError (hd_error (elems (data v)))
  | PyNum _ => inl TypeError
  end.

(** [(a > b).data.float().mean()]. *)
Definition gt_mean (a b : Var) : result Q :=
  let? t := t_zip (fun x y => if Qle_bool x y then 0%Q else 1%Q)
                  (data a) (data b) in
  inr (t_mean t).

(** The value carried by a loss. *)
Definition py_value (x : pyval) : Q :=
  match x with
  | PyNum q => q
  | PyVar v => hd 0%Q (elems (data v))
  end.

Definition py_leaves (x : pyval) : list nat :=
  match x with
  | PyNum _ => []
  | PyVar v => leaves v
  end.

(* ================================================================== *)
(** * Configuration and collaborators *)

(** The fields of [cfg] that the step reads. *)
Record Config := mkConfig {
  num_models : nat;
  normalize_feature : bool;
  local_dist_own_hard_sample : bool;
  global_margin : Q;
  local_margin : Q;
  g_loss_weight : Q;
  l_loss_weight : Q;
  id_loss_weight : Q;
  pm_loss_weight : Q;
  gdm_loss_weight : Q;
  ldm_loss_weight : Q
}.

(** [global_feat, local_feat, logits = model(ims_var)]. *)
Record forward_out := mkForward {
  f_global_feat : tensor;
  f_local_feat : tensor;
  f_logits : tensor
}.

(** The six results of [global_loss]. *)
Record global_out := mkGlobal {
  gl_loss : Q;
  gl_p_inds : list nat;
  gl_n_inds : list nat;
  gl_dist_ap : tensor;
  gl_dist_an : tensor;
  gl_dist_mat : tensor
}.

(** The results of [local_loss]; [ll_dist_mat] is returned only when the
    indices passed are [None]. *)
Record local_out := mkLocal {
  ll_loss : Q;
  ll_dist_ap : tensor;
  ll_dist_an : tensor;
  ll_dist_mat : tensor
}.

(** A gradient accumulated by one backward pass, named by the value of the
    loss that was differentiated. *)
Inductive grad := GradOf (loss : tensor).

(** The functions the script imports and calls.  The first argument of the
    two triplet losses is the margin of the [TripletLoss] passed. *)
Record externals := mkExternals {
  model_forward : list Q -> tensor -> forward_out;
  global_loss : Q -> tensor -> tensor -> bool -> global_out;
  local_loss : Q -> tensor -> option (list nat) -> option (list nat) ->
               tensor -> bool -> local_out;
  id_criterion : tensor -> tensor -> Q;
  F_softmax : tensor -> tensor;
  F_log_softmax : tensor -> tensor;
  F_kl_div : tensor -> tensor -> Q;
  adam_step : list Q -> list grad -> list Q -> list Q * list Q
}.

(** One model of the ensemble with its optimizer. *)
Record model_state := mkModel {
  params : list Q;
  grads : list grad;
  adam_state : list Q
}.

(** The ensemble, by model index. *)
Definition ensemble := nat -> model_state.

(** The ensemble after the gradients of model [k] are cleared. *)
Definition zeroed (k : nat) (ms : ensemble) : ensemble :=
  fun m => if m =? k
           then mkModel (params (ms m)) [] (adam_state (ms m))
           else ms m.

(** The ensemble after a backward pass from [v]: a gradient is accumulated
    into every model in the history of [v], and into no other. *)
Definition accumulated (v : Var) (ms : ensemble) : ensemble :=
  fun m => if existsb (Nat.eqb m) (leaves v)
           then mkModel (params (ms m)) (GradOf (data v) :: grads (ms m))
                        (adam_state (ms m))
           else ms m.

(* ================================================================== *)
(** * Events *)

Inductive meter :=
| g_prec_meter | g_m_meter | g_dist_ap_meter | g_dist_an_meter | g_loss_meter
| l_prec_meter | l_m_meter | l_dist_ap_meter | l_dist_an_meter | l_loss_meter
| id_loss_meter | gdm_loss_meter | ldm_loss_meter | pm_loss_meter
| loss_meter.

(** The names bound in one iteration of the mutual-learning loop. *)
Record step_locals := mkLocals {
  s_g_loss : Var;
  s_l_loss : pyval;
  s_id_loss : pyval;
  s_pm_loss : pyval;
  s_gdm_loss : pyval;
  s_ldm_loss : pyval;
  s_loss : pyval
}.

Inductive event :=
| EForward (i : nat)                  (* model(ims_var) *)
| EGlobalLoss (i : nat)               (* global_loss(...) *)
| ELocalLoss (i : nat) (own : bool)   (* local_loss(...) *)
| EIdCriterion (i : nat)              (* id_criterion(logits, labels_var) *)
| EKlDiv (i j : nat)                  (* line 305 *)
| EGdmTerm (i j : nat)                (* lines 313-314 *)
| ELdmTerm (i j : nat)                (* lines 324-325 *)
| ECompose (i : nat) (t : step_locals) (* lines 328-333 *)
| EZeroGrad (i : nat)                 (* optimizer.zero_grad() *)
| EBackward (i : nat)                 (* loss.backward() *)
| EOptStep (i : nat)                  (* optimizer.step() *)
| EMeterUpdate (m : meter) (val : Q). (* meter.update(val) *)

(* ================================================================== *)
(** * Monads *)

(** Computations that fail or return, and log events. *)
Definition W (A : Type) : Type := (result A * list event)%type.

Definition retW {A} (a : A) : W A := (inr a, []).

Definition bindW {A B} (c : W A) (k : A -> W B) : W B :=
  match fst c with
  | inl e => (inl e, snd c)
  | inr a => (fst (k a), snd c ++ snd (k a))
  end.

Definition tell (evs : list event) : W unit := (inr tt, evs).

Definition liftR {A} (c : result A) : W A := (c, []).

Notation "x <~ c ;; k" := (bindW c (fun x => k))
  (at level 61, c at next level, right associativity).

(** Computations that also update the ensemble. *)
Record outcome (A : Type) := mkOutcome {
  res : result A;
  st : ensemble;
  tr : list event
}.

Definition M (A : Type) : Type := ensemble -> outcome A.

Definition retM {A} (a : A) : M A := fun ms => mkOutcome (inr a) ms [].

Definition bindM {A B} (c : M A) (k : A -> M B) : M B :=
  fun ms =>
    let o := c ms in
    match res o with
    | inl e => mkOutcome (inl e) (st o) (tr o)
    | inr a =>
        let o' := k a (st o) in
        mkOutcome (res o') (st o') (tr o ++ tr o')
    end.

Definition liftW {A} (c : W A) : M A :=
  fun ms => mkOutcome (fst c) ms (snd c).

Definition get_ensemble : M ensemble :=
  fun ms => mkOutcome (inr ms) ms [].

Notation "x <- c ;; k" := (bindM c (fun x => k))
  (at level 61, c at next level, right associativity).

Fixpoint for_eachW {A B} (body : A -> W B) (l : list A) : W (list B) :=
  match l with
  | [] => retW []
  | x :: l' =>
      y <~ body x ;;
      ys <~ for_eachW body l' ;;
      retW (y :: ys)
  end.

Fixpoint for_eachM {A B} (body : A -> M B) (l : list A) : M (list B) :=
  match l with
  | [] => retM []
  | x :: l' =>
      y <- body x ;;
      ys <- for_eachM body l' ;;
      retM (y :: ys)
  end.

(** The value a loop variable keeps after the loop. *)
Definition last_opt {A} (l : list A) : option A :=
  nth_error l (length l - 1).

Definition enumerate {A} (l : list A) : list (nat * A) :=
  combine (seq 0 (length l)) l.

(* ================================================================== *)
(** * The first loop: one forward pass per model (lines 251-284) *)

(** What one iteration appends to the seven lists of the step, and the
    distance vectors it leaves bound for the step log.  The seven lists grow
    together, so they are kept as one list of these records. *)
Record model_out := mkOut {
  o_g_loss : Var;
  o_l_loss : pyval;
  o_id_loss : pyval;
  o_probs : Var;
  o_log_probs : Var;
  o_g_dist_mat : Var;
  o_l_dist_mat : pyval;
  o_g_dist_ap : Var;
  o_g_dist_an : Var;
  o_l_dist : option (Var * Var)   (* l_dist_ap, l_dist_an, when bound *)
}.

Section Step.

Variable E : externals.
Variable cfg : Config.

(** Lines 259-270. *)
Definition local_part (i : nat) (f : forward_out) (g : global_out)
    (labels : tensor) : W (pyval * pyval * option (Var * Var)) :=
  let own t := mkVar t [i] in
  if Qis0 (l_loss_weight cfg) then
    retW (PyNum 0, PyNum 0, None)
  else if local_dist_own_hard_sample cfg then
    _ <~ tell [ELocalLoss i true] ;;
    let l := local_loss E (local_margin cfg) (f_local_feat f) None None
                        labels (normalize_feature cfg) in
    retW (PyVar (own (scalar_t (ll_loss l))),
          PyVar (own (ll_dist_mat l)),
          Some (own (ll_dist_ap l), own (ll_dist_an l)))
  else
    _ <~ tell [ELocalLoss i false] ;;
    let l := local_loss E (local_margin cfg) (f_local_feat f)
                        (Some (gl_p_inds g)) (Some (gl_n_inds g))
                        labels (normalize_feature cfg) in
    retW (PyVar (own (scalar_t (ll_loss l))),
          PyNum 0,
          Some (own (ll_dist_ap l), own (ll_dist_an l))).

(** Lines 272-274. *)
Definition id_part (i : nat) (f : forward_out) (labels : tensor) : W pyval :=
  if Qgt0 (id_loss_weight cfg) then
    _ <~ tell [EIdCriterion i] ;;
    retW (PyVar (mkVar (scalar_t (id_criterion E (f_logits f) labels)) [i]))
  else retW (PyNum 0).

(** The body of the loop for model [i] = [fst it]; [snd it] is its [TVT].
    Everything computed from the output of model [i] has the parameters of
    model [i] in its history. *)
Definition model_pass (ims labels : tensor) (ms : ensemble)
    (it : nat * nat) : W model_out :=
  let i := fst it in
  let own t := mkVar t [i] in
  _ <~ tell [EForward i] ;;
  let f := model_forward E (params (ms i)) ims in
  _ <~ tell [EGlobalLoss i] ;;
  let g := global_loss E (global_margin cfg) (f_global_feat f) labels
                       (normalize_feature cfg) in
  l <~ local_part i f g labels ;;
  id_loss <~ id_part i f labels ;;
  retW (mkOut (own (scalar_t (gl_loss g)))
              (fst (fst l))
              id_loss
              (own (F_softmax E (f_logits f)))
              (own (F_log_softmax E (f_logits f)))
              (own (gl_dist_mat g))
              (snd (fst l))
              (own (gl_dist_ap g))
              (own (gl_dist_an g))
              (snd l)).

(* ================================================================== *)
(** * The second loop: mutual learning (lines 291-336) *)

Definition pm_on : bool :=
  (1 <? num_models cfg) && Qgt0 (pm_loss_weight cfg).

Definition gdm_on : bool :=
  (1 <? num_models cfg) && Qgt0 (gdm_loss_weight cfg).

Definition ldm_on : bool :=
  (1 <? num_models cfg) && local_dist_own_hard_sample cfg
  && Qgt0 (ldm_loss_weight cfg).

(** [for j in ...: if j != i: acc += term(j)]. *)
Fixpoint sum_peers (i : nat) (ev : nat -> event) (term : nat -> result Var)
    (js : list nat) (acc : pyval) : W pyval :=
  match js with
  | [] => retW acc
  | j :: js' =>
      if j =? i then sum_peers i ev term js' acc
      else
        _ <~ tell [ev j] ;;
        t <~ liftR (term j) ;;
        acc' <~ liftR (py_add acc (PyVar t)) ;;
        sum_peers i ev term js' acc'
  end.

(** [F.kl_div(input, target, False)]. *)
Definition kl_div (input target : Var) : Var :=
  mkVar (scalar_t (F_kl_div E (data input) (data target)))
        (leaves input ++ leaves target).

(** Line 305: [F.kl_div(log_probs, TVT(probs_list[j]).detach(), False)]. *)
Definition pm_term (outs : list model_out) (tvt : nat) (log_probs : Var)
    (j : nat) : result Var :=
  let? o := from_option IndexError (nth_error outs j) in
  let? p := TVT tvt (PyVar (o_probs o)) in
  let? d := detach p in
  inr (kl_div log_probs d).

(** Lines 313-314 and 324-325:
    [torch.sum(torch.pow(mine - TVT(dist_mat_list[j]).detach(), 2))]. *)
Definition dist_term (pick : model_out -> pyval) (outs : list model_out)
    (tvt : nat) (mine : pyval) (j : nat) : result Var :=
  let? o := from_option IndexError (nth_error outs j) in
  let? p := TVT tvt (pick o) in
  let? d := detach p in
  let? diff := py_sub mine (PyVar d) in
  let? sq := torch_pow2 diff in
  inr (torch_sum sq).

(** Lines 300-306. *)
Definition pm_loss_block (i tvt n : nat) (outs : list model_out)
    (log_probs : Var) : W pyval :=
  if pm_on then
    pm <~ sum_peers i (EKlDiv i) (pm_term outs tvt log_probs)
                   (seq 0 (num_models cfg)) (PyNum 0) ;;
    retW (py_div_num pm (1 * Qnat (num_models cfg - 1) * Qnat n)%Q)
  else retW (PyNum 0).

(** Lines 308-315. *)
Definition gdm_loss_block (i tvt n : nat) (outs : list model_out)
    (g_dist_mat : Var) : W pyval :=
  if gdm_on then
    gdm <~ sum_peers i (EGdmTerm i)
             (dist_term (fun o => PyVar (o_g_dist_mat o)) outs tvt
                        (PyVar g_dist_mat))
             (seq 0 (num_models cfg)) (PyNum 0) ;;
    retW (py_div_num gdm
            (1 * Qnat (num_models cfg - 1) * Qnat n * Qnat n)%Q)
  else retW (PyNum 0).

(** Lines 317-326. *)
Definition ldm_loss_block (i tvt n : nat) (outs : list model_out)
    (l_dist_mat : pyval) : W pyval :=
  if ldm_on then
    ldm <~ sum_peers i (ELdmTerm i)
             (dist_term o_l_dist_mat outs tvt l_dist_mat)
             (seq 0 (num_models cfg)) (PyNum 0) ;;
    retW (py_div_num ldm
            (1 * Qnat (num_models cfg - 1) * Qnat n * Qnat n)%Q)
  else retW (PyNum 0).

(** Lines 328-333. *)
Definition compose_loss (g_loss : Var)
    (l_loss id_loss pm_loss gdm_loss ldm_loss : pyval) : result pyval :=
  let? s1 := py_add (py_mul_num (PyVar g_loss) (g_loss_weight cfg))
                    (py_mul_num l_loss (l_loss_weight cfg)) in
  let? s2 := py_add s1 (py_mul_num id_loss (id_loss_weight cfg)) in
  let? s3 := py_add s2 (py_mul_num pm_loss (pm_loss_weight cfg)) in
  let? s4 := py_add s3 (py_mul_num gdm_loss (gdm_loss_weight cfg)) in
  py_add s4 (py_mul_num ldm_loss (ldm_loss_weight cfg)).

(** Lines 300-333 for model [i]: the three blocks and the total loss. *)
Definition model_losses (n : nat) (outs : list model_out) (i : nat)
    (o : model_out) (tvt : nat) : W step_locals :=
  pm_loss <~ pm_loss_block i tvt n outs (o_log_probs o) ;;
  gdm_loss <~ gdm_loss_block i tvt n outs (o_g_dist_mat o) ;;
  ldm_loss <~ ldm_loss_block i tvt n outs (o_l_dist_mat o) ;;
  loss <~ liftR (compose_loss (o_g_loss o) (o_l_loss o) (o_id_loss o)
                              pm_loss gdm_loss ldm_loss) ;;
  let t := mkLocals (o_g_loss o) (o_l_loss o) (o_id_loss o)
                    pm_loss gdm_loss ldm_loss loss in
  _ <~ tell [ECompose i t] ;;
  retW t.

(** [optimizer.zero_grad()] for the optimizer of model [k]. *)
Definition zero_grad (k : nat) : M unit :=
  fun ms => mkOutcome (inr tt) (zeroed k ms) [EZeroGrad k].

(** [loss.backward()]. *)
Definition backward (i : nat) (loss : pyval) : M unit :=
  match loss with
  | PyNum _ => fun ms => mkOutcome (inl AttributeError) ms []
  | PyVar v => fun ms => mkOutcome (inr tt) (accumulated v ms) [EBackward i]
  end.

(** The ensemble after the optimizer of model [k] has stepped. *)
Definition stepped (k : nat) (ms : ensemble) : ensemble :=
  fun m => if m =? k
           then let r := adam_step E (params (ms m)) (grads (ms m))
                                   (adam_state (ms m)) in
                mkModel (fst r) (grads (ms m)) (snd r)
           else ms m.

(** [optimizer.step()] for the optimizer of model [k]. *)
Definition optimizer_step (k : nat) : M unit :=
  fun ms => mkOutcome (inr tt) (stepped k ms) [EOptStep k].

(** The body of the second loop.  [it] is one element of
    [enumerate(zip(lists, optimizers, TVTs))]: the index, the entries of the
    lists, the optimizer (by the index of its model) and the [TVT]. *)
Definition model_update (n : nat) (outs : list model_out)
    (it : nat * (model_out * (nat * nat))) : M step_locals :=
  let i := fst it in
  let o := fst (snd it) in
  let opt := fst (snd (snd it)) in
  let tvt := snd (snd (snd it)) in
  t <- liftW (model_losses n outs i o tvt) ;;
  _ <- zero_grad opt ;;
  _ <- backward i (s_loss t) ;;
  retM t.

(* ================================================================== *)
(** * The step log (lines 345-386) *)

Definition update_if (c : bool) (m : meter) (x : pyval) : W unit :=
  if c then
    v <~ liftR (to_scalar x) ;;
    tell [EMeterUpdate m v]
  else retW tt.

(** Lines 358-370. *)
Definition local_log (o : model_out) (t : step_locals) : W unit :=
  if Qgt0 (l_loss_weight cfg) then
    d <~ liftR (from_option NameError (o_l_dist o)) ;;
    l_prec <~ liftR (gt_mean (snd d) (fst d)) ;;
    l_m <~ liftR (gt_mean (snd d)
                    (var_map (fun e => e + local_margin cfg)%Q (fst d))) ;;
    _ <~ tell [EMeterUpdate l_prec_meter l_prec;
               EMeterUpdate l_m_meter l_m;
               EMeterUpdate l_dist_ap_meter (t_mean (data (fst d)));
               EMeterUpdate l_dist_an_meter (t_mean (data (snd d)))] ;;
    update_if true l_loss_meter (s_l_loss t)
  else retW tt.

(** The names read here are those the two loops left bound: the distance
    vectors of the last iteration of the first loop, the losses of the last
    iteration of the second. *)
Definition step_log (outs : list model_out) (locs : list step_locals)
    : W unit :=
  o <~ liftR (from_option NameError (last_opt outs)) ;;
  g_prec <~ liftR (gt_mean (o_g_dist_an o) (o_g_dist_ap o)) ;;
  g_m <~ liftR (gt_mean (o_g_dist_an o)
                  (var_map (fun e => e + global_margin cfg)%Q
                           (o_g_dist_ap o))) ;;
  _ <~ tell [EMeterUpdate g_prec_meter g_prec;
             EMeterUpdate g_m_meter g_m;
             EMeterUpdate g_dist_ap_meter (t_mean (data (o_g_dist_ap o)));
             EMeterUpdate g_dist_an_meter (t_mean (data (o_g_dist_an o)))] ;;
  t <~ liftR (from_option NameError (last_opt locs)) ;;
  _ <~ update_if true g_loss_meter (PyVar (s_g_loss t)) ;;
  _ <~ local_log o t ;;
  _ <~ update_if (Qgt0 (id_loss_weight cfg)) id_loss_meter (s_id_loss t) ;;
  _ <~ update_if pm_on pm_loss_meter (s_pm_loss t) ;;
  _ <~ update_if gdm_on gdm_loss_meter (s_gdm_loss t) ;;
  _ <~ update_if ldm_on ldm_loss_meter (s_ldm_loss t) ;;
  update_if true loss_meter (s_loss t).

(* ================================================================== *)
(** * One training step, one epoch, the training loop *)

(** The elements of the second loop. *)
Definition update_items (TVTs : list nat) (outs : list model_out)
    : list (nat * (model_out * (nat * nat))) :=
  enumerate (combine outs (combine (seq 0 (num_models cfg)) TVTs)).

(** Lines 234-386 for one batch [(ims, labels)].  [TVTs] has one entry per
    element of the list returned by [set_devices_for_ml]. *)
Definition train_step (TVTs : list nat) (ims labels : tensor)
    : M (list model_out * list step_locals) :=
  ms <- get_ensemble ;;
  outs <- liftW (for_eachW (model_pass ims labels ms)
                           (combine (seq 0 (num_models cfg)) TVTs)) ;;
  locs <- for_eachM (model_update (py_len ims) outs)
                    (update_items TVTs outs) ;;
  _ <- for_eachM optimizer_step (seq 0 (num_models cfg)) ;;
  _ <- liftW (step_log outs locs) ;;
  retM (outs, locs).

(** [while not epoch_done]: the batches [next_batch] returns, each with its
    [epoch_done] flag, are consumed up to the first one flagged. *)
Fixpoint train_epoch (TVTs : list nat)
    (batches : list (tensor * tensor * bool)) : M unit :=
  match batches with
  | [] => retM tt
  | b :: rest =>
      _ <- train_step TVTs (fst (fst b)) (snd (fst b)) ;;
      if snd b then retM tt else train_epoch TVTs rest
  end.

(** The training part of [main]: nothing before the loop over epochs reads
    a loss weight, and [cfg] is taken as it is returned by [Config()].  The
    learning-rate schedule, the epoch log, the checkpoints and the tests are
    left out. *)
Definition main (TVTs : list nat)
    (epochs : list (list (tensor * tensor * bool))) : M unit :=
  _ <- for_eachM (train_epoch TVTs) epochs ;;
  retM tt.

End Step.

(* ================================================================== *)
(** * Reading a trace *)

Definition is_global_loss (e : event) : bool :=
  match e with EGlobalLoss _ => true | _ => false end.
Definition is_local_loss (e : event) : bool :=
  match e with ELocalLoss _ _ => true | _ => false end.
Definition is_id_criterion (e : event) : bool :=
  match e with EIdCriterion _ => true | _ => false end.
Definition is_kl_div (e : event) : bool :=
  match e with EKlDiv _ _ => true | _ => false end.
Definition is_gdm_term (e : event) : bool :=
  match e with EGdmTerm _ _ => true | _ => false end.
Definition is_ldm_term (e : event) : bool :=
  match e with ELdmTerm _ _ => true | _ => false end.

(** An event [e] of the kind [p] does not occur in [l]. *)
Definition absent (p : event -> bool) (l : list event) : Prop :=
  Forall (fun e => p e = false) l.

(** The gradient phase and the update phase of a step. *)
Inductive phase :=
| PCompose (i : nat)
| PZeroGrad (i : nat)
| PBackward (i : nat)
| POptStep (i : nat).

Definition phase_of (e : event) : list phase :=
  match e with
  | ECompose i _ => [PCompose i]
  | EZeroGrad i => [PZeroGrad i]
  | EBackward i => [PBackward i]
  | EOptStep i => [POptStep i]
  | _ => []
  end.

Definition phases (l : list event) : list phase := flat_map phase_of l.

Definition is_opt_phase (p : phase) : bool :=
  match p with POptStep _ => true | _ => false end.

(** The meter updates of a trace, in order. *)
Definition meter_of (e : event) : list (meter * Q) :=
  match e with
  | EMeterUpdate m v => [(m, v)]
  | _ => []
  end.

Definition meter_updates (l : list event) : list (meter * Q) :=
  flat_map meter_of l.

(** Every total loss composed in a trace satisfies [P]. *)
Definition composed (P : nat -> step_locals -> Prop) (l : list event)
    : Prop :=
  Forall (fun e => match e with ECompose i t => P i t | _ => True end) l.



(** The five meters of the local loss. *)
Definition is_local_meter (m : meter) : bool :=
  match m with
  | l_prec_meter | l_m_meter | l_dist_ap_meter | l_dist_an_meter
  | l_loss_meter => true
  | _ => false
  end.

(* ================================================================== *)
(** * The learning-rate schedules (lines 34-47 and 181-196) *)

(** What the two schedules can raise. *)
Inductive sched_exn := ZeroDivisionError | UnboundLocalError | OverflowError.

(** Floats are rationals here.  What is kept of their range is the bound
    from which a real rounds to no float, [2 ** 1024 - 2 ** 970]: a power
    that reaches it raises OverflowError.  A product that reaches it is
    [inf] in Python and raises nothing; it is the product of the rationals
    here, and the theorems below ask that it stays below the bound.  The
    ints that are converted to floats (epoch numbers and an index into the
    decay epochs) are taken below the bound as well. *)
Definition float_bound : Q := inject_Z (2 ^ 1024 - 2 ^ 970).

Definition overflows (x : Q) : bool :=
  Qle_bool float_bound x || Qle_bool x (- float_bound).

(** One entry of [optimizer.param_groups], with the keys the script gives
    to its optimizers. *)
Record param_group := mkGroup {
  pg_params : list Q;
  pg_lr : Q;
  pg_weight_decay : Q
}.

(** [g['lr'] = v]. *)
Definition set_lr (v : Q) (g : param_group) : param_group :=
  mkGroup (pg_params g) v (pg_weight_decay g).

(** What a call of a schedule leaves: its outcome, the groups as they are
    after it, and the rates it printed. *)
Record sched_outcome := mkSched {
  lr_res : sched_exn + unit;
  lr_groups : list param_group;
  lr_printed : list Q
}.

(** [for g in optimizer.param_groups: g['lr'] = value], the value being
    evaluated anew in every iteration.  Returned: what [g] is bound to after
    the loop, if the loop did not raise, and the groups. *)
Fixpoint assign_lr (value : sched_exn + Q) (groups : list param_group)
    (g : option param_group)
    : (sched_exn + option param_group) * list param_group :=
  match groups with
  | [] => (inr g, [])
  | x :: rest =>
      match value with
      | inl e => (inl e, x :: rest)
      | inr v =>
          let r := assign_lr value rest (Some (set_lr v x)) in
          (fst r, set_lr v x :: snd r)
      end
  end.

(** [print('=====> lr adjusted to ...'.format(g['lr']))] after the loop: [g]
    is a local name, unbound when the loop made no iteration. *)
Definition print_lr (r : (sched_exn + option param_group) * list param_group)
    : sched_outcome :=
  match fst r with
  | inl e => mkSched (inl e) (snd r) []
  | inr None => mkSched (inl UnboundLocalError) (snd r) []
  | inr (Some g) => mkSched (inr tt) (snd r) [pg_lr g]
  end.

(** [x ** n] for a float [x] and an int [n]: 0.0 to a negative power
    raises ZeroDivisionError, and a result beyond the floats raises
    OverflowError. *)
Definition py_pow_int (x : Q) (n : Z) : sched_exn + Q :=
  if (n <? 0)%Z && Qeq_bool x 0 then inl ZeroDivisionError
  else if overflows (Qpower x n) then inl OverflowError
  else inr (Qpower x n).

(** [base_lr * factor ** (ind + 1)]. *)
Definition staircase_value (base_lr factor : Q) (ind : Z)
    : sched_exn + Q :=
  match py_pow_int factor (ind + 1) with
  | inl e => inl e
  | inr p => inr (base_lr * p)%Q
  end.

(** [base_lr * (0.001 ** (float(ep - tran_ep) / (total_ep - tran_ep)))];
    [fpow] is the power of two floats as a real number.  The division
    raises ZeroDivisionError on a divisor 0, and the power raises
    OverflowError when its result is beyond the floats. *)
Definition exp_value (fpow : Q -> Q -> Q) (base_lr : Q)
    (ep total_ep tran_ep : Z) : sched_exn + Q :=
  if (total_ep - tran_ep =? 0)%Z then inl ZeroDivisionError
  else
    let p := (fpow (1 # 1000)
                   (inject_Z (ep - tran_ep) / inject_Z (total_ep - tran_ep)))%Q
    in
    if overflows p then inl OverflowError else inr (base_lr * p)%Q.

(** Lines 34-39. *)
Definition adjust_lr_exp (fpow : Q -> Q -> Q) (groups : list param_group)
    (base_lr : Q) (ep total_ep tran_ep : Z) : sched_outcome :=
  if (tran_ep <? ep)%Z then
    print_lr (assign_lr (exp_value fpow base_lr ep total_ep tran_ep)
                        groups None)
  else mkSched (inr tt) groups [].

(** Lines 42-47; [find_index] is the function of [aligned_reid.utils]. *)
Definition adjust_lr_staircase (find_index : list Z -> Z -> Z)
    (groups : list param_group) (base_lr : Q) (ep : Z)
    (decay_epochs : list Z) (factor : Q) : sched_outcome :=
  if existsb (Z.eqb ep) decay_epochs then
    let ind := find_index decay_epochs ep in
    print_lr (assign_lr (staircase_value base_lr factor ind) groups None)
  else mkSched (inr tt) groups [].

(** The fields of [cfg] that the schedule reads. *)
Record SchedConfig := mkSchedConfig {
  lr_decay_type_is_exp : bool;        (* cfg.lr_decay_type == 'exp' *)
  base_lr : Q;
  total_epochs : Z;
  exp_decay_at_epoch : Z;
  staircase_decay_at_epochs : list Z;
  staircase_decay_multiply_factor : Q
}.

(** Lines 183-196 for one optimizer. *)
Definition adjust_lr (fpow : Q -> Q -> Q) (find_index : list Z -> Z -> Z)
    (sc : SchedConfig) (ep : Z) (groups : list param_group)
    : sched_outcome :=
  if lr_decay_type_is_exp sc then
    adjust_lr_exp fpow groups (base_lr sc) ep (total_epochs sc)
                  (exp_decay_at_epoch sc)
  else
    adjust_lr_staircase find_index groups (base_lr sc) ep
                        (staircase_decay_at_epochs sc)
                        (staircase_decay_multiply_factor sc).

(** Lines 182-196: [for optimizer in optimizers], an optimizer being its
    parameter groups.  The loop stops at the first call that raises. *)
Fixpoint adjust_all (fpow : Q -> Q -> Q) (find_index : list Z -> Z -> Z)
    (sc : SchedConfig) (ep : Z) (optimizers : list (list param_group))
    : (sched_exn + unit) * list (list param_group) * list Q :=
  match optimizers with
  | [] => (inr tt, [], [])
  | o :: rest =>
      let r := adjust_lr fpow find_index sc ep o in
      match lr_res r with
      | inl e => (inl e, lr_groups r :: rest, lr_printed r)
      | inr _ =>
          let r' := adjust_all fpow find_index sc ep rest in
          (fst (fst r'), lr_groups r :: snd (fst r'),
           lr_printed r ++ snd r')
      end
  end.

(** Whether the schedule assigns a rate in epoch [ep]. *)
Definition schedule_fires (sc : SchedConfig) (ep : Z) : bool :=
  if lr_decay_type_is_exp sc then (exp_decay_at_epoch sc <? ep)%Z
  else existsb (Z.eqb ep) (staircase_decay_at_epochs sc).


(* ================================================================== *)
(** * Feature extraction and the tests (lines 50-72 and 145-168) *)

(** A network as the tests see it: its train/eval mode and its
    parameters. *)
Record net := mkNet { net_training : bool; net_params : list Q }.

(** [ExtractFeature.__call__] (lines 60-72).  [fwd] is the forward pass of
    the network in a given mode; it may raise.  Returned: the two feature
    arrays, and the network as the call leaves it. *)
Definition extract_feature (fwd : bool -> list Q -> tensor -> result forward_out)
    (model : net) (ims : tensor) : result (tensor * tensor) * net :=
  let old_train_eval_model := net_training model in
  let in_eval := mkNet false (net_params model) in
  match fwd (net_training in_eval) (net_params in_eval) ims with
  | inl e => (inl e, in_eval)
  | inr f =>
      (inr (f_global_feat f, f_local_feat f),
       mkNet old_train_eval_model (net_params in_eval))
  end.

(** The calls of the feature function that one [test_set.eval] makes, one
    per batch of test images, in order.  The loop stops at the first call
    that raises. *)
Fixpoint extract_all (fwd : bool -> list Q -> tensor -> result forward_out)
    (model : net) (batches : list tensor)
    : result (list (tensor * tensor)) * net :=
  match batches with
  | [] => (inr [], model)
  | ims :: rest =>
      let r := extract_feature fwd model ims in
      match fst r with
      | inl e => (inl e, snd r)
      | inr f =>
          let r' := extract_all fwd (snd r) rest in
          (match fst r' with
           | inl e => inl e
           | inr fs => inr (f :: fs)
           end, snd r')
      end
  end.

(** One [test_set.eval(normalize_feat, global_weight, local_weight)]. *)
Inductive test_event :=
| TLoadCkpt
| TEval (model : nat) (global_weight local_weight : nat).

(** What [test] leaves: its outcome, the networks, the evaluations made. *)
Record test_outcome := mkTest {
  t_res : result unit;
  t_nets : list net;
  t_trace : list test_event
}.

(** The three evaluations of one model (lines 152-168), each feeding the
    batches of the test set to the feature function. *)
Definition eval_model (fwd : bool -> list Q -> tensor -> result forward_out)
    (batches : list tensor) (i : nat) (model : net)
    : result unit * net * list test_event :=
  let r1 := extract_all fwd model batches in
  match fst r1 with
  | inl e => (inl e, snd r1, [TEval i 1 0])
  | inr _ =>
      let r2 := extract_all fwd (snd r1) batches in
      match fst r2 with
      | inl e => (inl e, snd r2, [TEval i 1 0; TEval i 0 1])
      | inr _ =>
          let r3 := extract_all fwd (snd r2) batches in
          (match fst r3 with
           | inl e => inl e
           | inr _ => inr tt
           end, snd r3, [TEval i 1 0; TEval i 0 1; TEval i 1 1])
      end
  end.

(** [for i in range(len(models))] of [test], from model [i] on; [done] are
    the models already evaluated.  [TVTs[i]] raises when there are fewer
    transfer functions than models. *)
Fixpoint test_models (fwd : bool -> list Q -> tensor -> result forward_out)
    (batches : list tensor) (TVTs : list nat) (i : nat) (models : list net)
    : result unit * list net * list test_event :=
  match models with
  | [] => (inr tt, [], [])
  | m :: rest =>
      match nth_error TVTs i with
      | None => (inl IndexError, m :: rest, [])
      | Some _ =>
          let r := eval_model fwd batches i m in
          match fst (fst r) with
          | inl e => (inl e, snd (fst r) :: rest, snd r)
          | inr _ =>
              let r' := test_models fwd batches TVTs (S i) rest in
              (fst (fst r'), snd (fst r) :: snd (fst r'), snd r ++ snd r')
          end
      end
  end.

(** Lines 146-147; [load_ckpt] is the function of [aligned_reid.utils], as
    it acts on the networks. *)
Definition may_load (load_ckpt : list net -> list net)
    (load_from_ckpt : bool) (models : list net) : list net :=
  if load_from_ckpt then load_ckpt models else models.

(** [test(load_from_ckpt)] (lines 145-168). *)
Definition test (fwd : bool -> list Q -> tensor -> result forward_out)
    (load_ckpt : list net -> list net) (batches : list tensor)
    (TVTs : list nat) (load_from_ckpt : bool) (models : list net)
    : test_outcome :=
  let r := test_models fwd batches TVTs 0
                       (may_load load_ckpt load_from_ckpt models) in
  mkTest (fst (fst r)) (snd (fst r))
         ((if load_from_ckpt then [TLoadCkpt] else []) ++ snd r).

(* ================================================================== *)
(** * A small ensemble to run the step on *)

Definition toy_dist (t : tensor) : tensor :=
  let d := (hd 0 (elems t) - hd 0 (tl (elems t)))%Q in
  mkTensor [2; 2] [0%Q; (d * d)%Q; (d * d)%Q; 0%Q].

Definition toy_ext : externals :=
  mkExternals
    (fun ps _ =>
       mkForward (mkTensor [2; 1] ps) (mkTensor [2; 1] (map (Qmult 2) ps))
                 (mkTensor [2; 1] ps))
    (fun _ gf _ _ =>
       mkGlobal (Qsum (elems gf)) [1; 0] [1; 0]
                (mkTensor [2] (elems gf)) (mkTensor [2] [2%Q; 4%Q])
                (toy_dist gf))
    (fun m lf _ _ _ _ =>
       mkLocal (Qsum (elems lf) + m)%Q (mkTensor [2] (elems lf))
               (mkTensor [2] [3%Q; 3%Q]) (toy_dist lf))
    (fun logits _ => hd 0%Q (elems logits))
    (fun t => t)
    (fun t => t_map (fun e => e - 1)%Q t)
    (fun a b => Qsum (zip_with Qmult (elems a) (elems b)))
    (fun ps gs s => (map (fun p => p - Qnat (length gs))%Q ps, s)).

Definition toy_models : ensemble :=
  fun m => mkModel (match m with 0 => [1%Q; 2%Q] | _ => [3%Q; 6%Q] end)
                   [] [].

Definition toy_ims : tensor := mkTensor [2; 1] [1%Q; 1%Q].
Definition toy_labels : tensor := mkTensor [2] [0%Q; 0%Q].

(** Two models, every weight 1, local distance with its own hard samples. *)
Definition cfg_all : Config :=
  mkConfig 2 true true (1 # 2) (1 # 2) 1 1 1 1 1 1.

(** Two models, only the probability mutual term. *)
Definition cfg_pm_only : Config :=
  mkConfig 2 true true (1 # 2) (1 # 2) 0 0 0 1 0 0.

(** As [cfg_all] with the global triplet weight 0. *)
Definition cfg_no_global : Config :=
  mkConfig 2 true true (1 # 2) (1 # 2) 0 1 1 1 1 1.

(** As [cfg_all] with the local weight 0 and no local-distance mutual
    term. *)
Definition cfg_no_local : Config :=
  mkConfig 2 true true (1 # 2) (1 # 2) 1 0 1 1 1 0.

(** As [cfg_all] with the local weight 0. *)
Definition cfg_local0_ldm : Config :=
  mkConfig 2 true true (1 # 2) (1 # 2) 1 0 1 1 1 1.

(** Two models, only the global triplet term. *)
Definition cfg_global_only : Config :=
  mkConfig 2 true false (1 # 2) (1 # 2) 1 0 0 0 0 0.

(** One model, the three mutual weights 1. *)
Definition cfg_single : Config :=
  mkConfig 1 true true (1 # 2) (1 # 2) 1 1 1 1 1 1.

(** Two models, local-distance mutual weight 1, shared hard samples. *)
Definition cfg_shared_ldm : Config :=
  mkConfig 2 true false (1 # 2) (1 # 2) 1 1 1 1 1 1.

(** One epoch of one batch. *)
Definition toy_epochs : list (list (tensor * tensor * bool)) :=
  [[(toy_ims, toy_labels, true)]].

Definition toy_step (cfg : Config) (TVTs : list nat)
    : outcome (list model_out * list step_locals) :=
  train_step toy_ext cfg TVTs toy_ims toy_labels toy_models.


(** As [cfg_all] with the local weight -1. *)
Definition cfg_negative_local : Config :=
  mkConfig 2 true true (1 # 2) (1 # 2) 1 (-1) 1 1 1 1.

(* ================================================================== *)
(** * A small schedule and a small test set *)

(** The position of the first [x] in [l], from [i] on, or -1. *)
Fixpoint toy_find_index_from (i : Z) (l : list Z) (x : Z) : Z :=
  match l with
  | [] => -1
  | y :: l' => if (x =? y)%Z then i else toy_find_index_from (i + 1) l' x
  end.

Definition toy_find_index : list Z -> Z -> Z := toy_find_index_from 0.

(** A stand-in for the power of two floats: [x ** y] where [y] is an
    integer, and the chord to the next integer in between. *)
Definition toy_fpow (x y : Q) : Q :=
  let n := (Qnum y / Z.pos (Qden y))%Z in
  (Qpower x n * (1 - (y - inject_Z n) * (1 - x)))%Q.

(** The defaults of the script: base rate 2e-4, 150 epochs, exponential
    decay from epoch 76 on, or a factor 0.1 at the epochs 101 and 201. *)
Definition toy_sched_exp : SchedConfig :=
  mkSchedConfig true (1 # 5000) 150 76 [101; 201]%Z (1 # 10).

Definition toy_sched_staircase : SchedConfig :=
  mkSchedConfig false (1 # 5000) 150 76 [101; 201]%Z (1 # 10).

(** Two optimizers, the first with two groups at different rates. *)
Definition toy_optimizers : list (list param_group) :=
  [[mkGroup [1%Q; 2%Q] (1 # 5000) (1 # 2000);
    mkGroup [4%Q] (1 # 100) 0];
   [mkGroup [3%Q; 6%Q] (1 # 5000) (1 # 2000)]].

Definition toy_groups : list param_group := hd [] toy_optimizers.

(** The forward pass of [toy_ext], which raises on images that are not
    [2 x 1]. *)
Definition toy_fwd (training : bool) (ps : list Q) (ims : tensor)
    : result forward_out :=
  if shape_eqb (shape ims) [2; 1]
  then inr (model_forward toy_ext ps ims)
  else inl RuntimeError.

Definition toy_nets : list net :=
  [mkNet true [1%Q; 2%Q]; mkNet false [3%Q; 6%Q]].

Definition toy_batches : list tensor := [toy_ims; toy_ims].

(** A checkpoint that holds other parameters. *)
Definition toy_load_ckpt (models : list net) : list net :=
  map (fun m => mkNet (net_training m) [5%Q; 5%Q]) models.

(* ================================================================== *)
(** * Shapes of values *)

(** A loss value: a Python number or a one-element Variable. *)
Definition is_loss (x : pyval) : Prop :=
  match x with
  | PyNum _ => True
  | PyVar v => exists q, data v = scalar_t q
  end.

Definition is_var (x : pyval) : Prop :=
  match x with
  | PyNum _ => False
  | PyVar _ => True
  end.

(** The history of [x] reaches the parameters of no model but [i]. *)
Definition owned (i : nat) (x : pyval) : Prop :=
  forall k, In k (py_leaves x) -> k = i.

Definition dummy_locals : step_locals :=
  mkLocals (mkVar (scalar_t 0) []) (PyNum 0) (PyNum 0) (PyNum 0) (PyNum 0)
           (PyNum 0) (PyNum 0).

(* ================================================================== *)
(** * What the step is compared with *)

Section Verification.

Variable E : externals.
Variable cfg : Config.
Variables ims labels : tensor.
Variable ens : ensemble.

(** The outputs of model [i] on the batch, read off the collaborators. *)
Definition model_fwd (i : nat) : forward_out :=
  model_forward E (params (ens i)) ims.

Definition model_probs (i : nat) : tensor :=
  F_softmax E (f_logits (model_fwd i)).

Definition model_log_probs (i : nat) : tensor :=
  F_log_softmax E (f_logits (model_fwd i)).

Definition model_global (i : nat) : global_out :=
  global_loss E (global_margin cfg) (f_global_feat (model_fwd i)) labels
              (normalize_feature cfg).

Definition model_g_dist_mat (i : nat) : tensor := gl_dist_mat (model_global i).

(** The peers of model [i] in an ensemble of [m] models. *)
Definition peers (m i : nat) : list nat :=
  filter (fun j => negb (j =? i)) (seq 0 m).

(** The probability mutual loss of model [i] as the specification has it:
    the KL divergences to all peers, summed, over [(M-1) * N]. *)
Definition pm_loss_spec (i : nat) : Q :=
  (Qsum (map (fun j => F_kl_div E (model_log_probs i) (model_probs j))
             (peers (num_models cfg) i))
   / (Qnat (num_models cfg - 1) * Qnat (py_len ims)))%Q.

(** Entry [(a, b)] of an [n x n] matrix. *)
Definition mat_get (n : nat) (t : tensor) (a b : nat) : Q :=
  nth (a * n + b) (elems t) 0%Q.

(** The sum over all entries of the squared difference of two matrices. *)
Definition sq_diff_sum (n : nat) (x y : tensor) : Q :=
  Qsum (map (fun a =>
          Qsum (map (fun b =>
                  ((mat_get n x a b - mat_get n y a b)
                   * (mat_get n x a b - mat_get n y a b))%Q)
                (seq 0 n)))
        (seq 0 n)).

(** The global-distance mutual loss of model [i] as the specification has
    it. *)
Definition gdm_loss_spec (i : nat) : Q :=
  (Qsum (map (fun j => sq_diff_sum (py_len ims) (model_g_dist_mat i)
                                   (model_g_dist_mat j))
             (peers (num_models cfg) i))
   / (Qnat (num_models cfg - 1) * (Qnat (py_len ims) * Qnat (py_len ims))))%Q.

(** The lists the first loop builds. *)
Definition first_outs (TVTs : list nat) : list model_out :=
  match fst (for_eachW (model_pass E cfg ims labels ens)
                       (combine (seq 0 (num_models cfg)) TVTs)) with
  | inr outs => outs
  | inl _ => []
  end.

(** Well-formed outputs of one model for a batch of [n] samples: the
    distance vectors that are compared have one shape, and the distance
    matrices that a mutual term reads are [n x n] matrices. *)
Definition out_wf (n : nat) (o : model_out) : bool :=
  shape_eqb (shape (data (o_g_dist_an o))) (shape (data (o_g_dist_ap o)))
  && (if Qgt0 (l_loss_weight cfg) then
        match o_l_dist o with
        | Some d => shape_eqb (shape (data (snd d))) (shape (data (fst d)))
        | None => false
        end
      else true)
  && (if gdm_on cfg then mat_ok n (data (o_g_dist_mat o)) else true)
  && (if ldm_on cfg then
        match o_l_dist_mat o with
        | PyVar v => mat_ok n (data v)
        | PyNum _ => false
        end
      else true).

(** A well-formed step: one [TVT] per model, at least one model, and
    well-formed outputs of every model. *)
Definition step_wf (TVTs : list nat) : bool :=
  (length TVTs =? num_models cfg) && (1 <=? num_models cfg)
  && forallb (out_wf (py_len ims)) (first_outs TVTs).

(** The weighted sum of the terms of [t] that are enabled. *)
Definition enabled_sum (t : step_locals) : Q :=
  (py_value (PyVar (s_g_loss t)) * g_loss_weight cfg
   + (if Qis0 (l_loss_weight cfg) then 0
      else py_value (s_l_loss t) * l_loss_weight cfg)
   + (if Qgt0 (id_loss_weight cfg)
      then py_value (s_id_loss t) * id_loss_weight cfg else 0)
   + (if pm_on cfg then py_value (s_pm_loss t) * pm_loss_weight cfg else 0)
   + (if gdm_on cfg
      then py_value (s_gdm_loss t) * gdm_loss_weight cfg else 0)
   + (if ldm_on cfg
      then py_value (s_ldm_loss t) * ldm_loss_weight cfg else 0))%Q.

(** [(a > b).data.float().mean()] as a number. *)
Definition frac_gt (a b : Var) : Q :=
  match gt_mean a b with
  | inr q => q
  | inl _ => 0%Q
  end.

(** The meter updates of lines 358-370. *)
Definition l_log_of (o : model_out) (t : step_locals) : list (meter * Q) :=
  if Qgt0 (l_loss_weight cfg) then
    match o_l_dist o with
    | Some d =>
        [(l_prec_meter, frac_gt (snd d) (fst d));
         (l_m_meter,
          frac_gt (snd d)
                  (var_map (fun e => e + local_margin cfg)%Q (fst d)));
         (l_dist_ap_meter, t_mean (data (fst d)));
         (l_dist_an_meter, t_mean (data (snd d)));
         (l_loss_meter, py_value (s_l_loss t))]
    | None => []
    end
  else [].

(** The meter updates the step log makes when the names it reads are bound
    to the outputs [o] and the losses [t] of one model. *)
Definition log_of (o : model_out) (t : step_locals) : list (meter * Q) :=
  [(g_prec_meter, frac_gt (o_g_dist_an o) (o_g_dist_ap o));
   (g_m_meter,
    frac_gt (o_g_dist_an o)
            (var_map (fun e => e + global_margin cfg)%Q (o_g_dist_ap o)));
   (g_dist_ap_meter, t_mean (data (o_g_dist_ap o)));
   (g_dist_an_meter, t_mean (data (o_g_dist_an o)));
   (g_loss_meter, py_value (PyVar (s_g_loss t)))]
  ++ l_log_of o t
  ++ (if Qgt0 (id_loss_weight cfg)
      then [(id_loss_meter, py_value (s_id_loss t))] else [])
  ++ (if pm_on cfg then [(pm_loss_meter, py_value (s_pm_loss t))] else [])
  ++ (if gdm_on cfg then [(gdm_loss_meter, py_value (s_gdm_loss t))] else [])
  ++ (if ldm_on cfg then [(ldm_loss_meter, py_value (s_ldm_loss t))] else [])
  ++ [(loss_meter, py_value (s_loss t))].

Definition meter_event (p : meter * Q) : event :=
  EMeterUpdate (fst p) (snd p).

Definition local_of (i : nat) : pyval * pyval * option (Var * Var) :=
  match fst (local_part E cfg i (model_fwd i)
                        (model_global i) labels) with
  | inr l => l
  | inl _ => (PyNum 0, PyNum 0, None)
  end.

Definition id_of (i : nat) : pyval :=
  match fst (id_part E cfg i (model_fwd i) labels) with
  | inr x => x
  | inl _ => PyNum 0
  end.

(** What the first loop appends for model [i]. *)
Definition out_of (i : nat) : model_out :=
  let g := model_global i in
  mkOut (mkVar (scalar_t (gl_loss g)) [i])
        (fst (fst (local_of i)))
        (id_of i)
        (mkVar (model_probs i) [i])
        (mkVar (model_log_probs i) [i])
        (mkVar (model_g_dist_mat i) [i])
        (snd (fst (local_of i)))
        (mkVar (gl_dist_ap g) [i])
        (mkVar (gl_dist_an g) [i])
        (snd (local_of i)).

(** The names bound by the second loop for model [i]. *)
Definition locals_of (TVTs : list nat) (i : nat) : step_locals :=
  match fst (model_losses E cfg (py_len ims)
               (first_outs TVTs) i (out_of i)
               (nth i TVTs 0)) with
  | inr t => t
  | inl _ => dummy_locals
  end.

(** The six weighted terms, summed. *)
Definition weighted_sum (g l id pm gdm ldm : pyval) : Q :=
  (py_value g * g_loss_weight cfg + py_value l * l_loss_weight cfg
   + py_value id * id_loss_weight cfg + py_value pm * pm_loss_weight cfg
   + py_value gdm * gdm_loss_weight cfg
   + py_value ldm * ldm_loss_weight cfg)%Q.

(** What the second loop binds for model [i] in a well-formed step. *)
Definition good_locals (i : nat) (t : step_locals) : Prop :=
  s_g_loss t = o_g_loss (out_of i)
  /\ s_l_loss t = o_l_loss (out_of i)
  /\ s_id_loss t = o_id_loss (out_of i)
  /\ (is_loss (s_pm_loss t) /\ is_loss (s_gdm_loss t)
      /\ is_loss (s_ldm_loss t))
  /\ (if pm_on cfg
      then is_var (s_pm_loss t)
           /\ Qeq (py_value (s_pm_loss t)) (pm_loss_spec i)
      else s_pm_loss t = PyNum 0)
  /\ (if gdm_on cfg
      then is_var (s_gdm_loss t)
           /\ Qeq (py_value (s_gdm_loss t)) (gdm_loss_spec i)
      else s_gdm_loss t = PyNum 0)
  /\ (if ldm_on cfg then is_var (s_ldm_loss t)
      else s_ldm_loss t = PyNum 0)
  /\ is_loss (s_loss t) /\ is_var (s_loss t)
  /\ Qeq (py_value (s_loss t))
         (weighted_sum (PyVar (s_g_loss t)) (s_l_loss t) (s_id_loss t)
                       (s_pm_loss t) (s_gdm_loss t) (s_ldm_loss t)).

(** The Variable a total loss is. *)
Definition loss_var (t : step_locals) : Var :=
  match s_loss t with
  | PyVar v => v
  | PyNum q => mkVar (scalar_t q) []
  end.

(** The ensemble after lines 335-336 for model [i]. *)
Definition updated (TVTs : list nat) (ms : ensemble) (i : nat) : ensemble :=
  accumulated (loss_var (locals_of TVTs i)) (zeroed i ms).

(** The events of the second loop for model [i]. *)
Definition update_events (TVTs : list nat) (i : nat) : list event :=
  snd (model_losses E cfg (py_len ims) (first_outs TVTs) i (out_of i)
                    (nth i TVTs 0))
  ++ [EZeroGrad i] ++ [EBackward i] ++ [].

(** The events of the first loop. *)
Definition first_events (TVTs : list nat) : list event :=
  snd (for_eachW (model_pass E cfg ims labels ens)
                 (combine (seq 0 (num_models cfg)) TVTs)).

(** The ensemble after the second loop, and after the optimizers. *)
Definition after_backward (TVTs : list nat) : ensemble :=
  fold_left (updated TVTs) (seq 0 (num_models cfg)) ens.

Definition after_step (TVTs : list nat) : ensemble :=
  fold_left (fun s k => stepped E k s) (seq 0 (num_models cfg))
            (after_backward TVTs).

(** The events of a well-formed step. *)
Definition step_events (TVTs : list nat) : list event :=
  first_events TVTs
  ++ flat_map (update_events TVTs) (seq 0 (num_models cfg))
  ++ flat_map (fun k => [EOptStep k]) (seq 0 (num_models cfg))
  ++ map meter_event (log_of (out_of (num_models cfg - 1))
                             (locals_of TVTs (num_models cfg - 1))).

(** Model [k] after a step in which the only gradient it accumulated is
    that of its own total loss. *)
Definition own_update (TVTs : list nat) (k : nat) : model_state :=
  let g := [GradOf (data (loss_var (locals_of TVTs k)))] in
  let r := adam_step E (params (ens k)) g (adam_state (ens k)) in
  mkModel (fst r) g (snd r).

(** The classification loss of model [i], and its local loss with the hard
    samples the configuration asks for, read off the collaborators. *)
Definition model_id_loss (i : nat) : Q :=
  id_criterion E (f_logits (model_fwd i)) labels.

Definition model_local (i : nat) : local_out :=
  if local_dist_own_hard_sample cfg
  then local_loss E (local_margin cfg) (f_local_feat (model_fwd i))
                  None None labels (normalize_feature cfg)
  else local_loss E (local_margin cfg) (f_local_feat (model_fwd i))
                  (Some (gl_p_inds (model_global i)))
                  (Some (gl_n_inds (model_global i)))
                  labels (normalize_feature cfg).

(** The local-distance mutual loss of model [i] as the specification has
    it. *)
Definition ldm_loss_spec (i : nat) : Q :=
  (Qsum (map (fun j => sq_diff_sum (py_len ims)
                                   (ll_dist_mat (model_local i))
                                   (ll_dist_mat (model_local j)))
             (peers (num_models cfg) i))
   / (Qnat (num_models cfg - 1) * (Qnat (py_len ims) * Qnat (py_len ims))))%Q.

(** The total loss of model [i] as the specification has it: the weighted
    sum of the terms that are enabled, each computed from the outputs of
    the models by the collaborators. *)
Definition total_loss_spec (i : nat) : Q :=
  (gl_loss (model_global i) * g_loss_weight cfg
   + (if Qis0 (l_loss_weight cfg) then 0
      else ll_loss (model_local i) * l_loss_weight cfg)
   + (if Qgt0 (id_loss_weight cfg)
      then model_id_loss i * id_loss_weight cfg else 0)
   + (if pm_on cfg then pm_loss_spec i * pm_loss_weight cfg else 0)
   + (if gdm_on cfg then gdm_loss_spec i * gdm_loss_weight cfg else 0)
   + (if ldm_on cfg then ldm_loss_spec i * ldm_loss_weight cfg else 0))%Q.

Unset Implicit Arguments.

(* ================================================================== *)
(** * The two monads *)

Lemma bindW_inr {A B} (c : W A) (k : A -> W B) a :
  fst c = inr a -> bindW c k = (fst (k a), snd c ++ snd (k a)).
Proof. intros H. unfold bindW. rewrite H. reflexivity. Qed.

Lemma bindW_inl {A B} (c : W A) (k : A -> W B) e :
  fst c = inl e -> bindW c k = (inl e, snd c).
Proof. intros H. unfold bindW. rewrite H. reflexivity. Qed.

Lemma bindW_ok {A B} (c : W A) (k : A -> W B) b :
  fst (bindW c k) = inr b ->
  exists a, fst c = inr a /\ fst (k a) = inr b.
Proof.
  unfold bindW. destruct (fst c) as [e | a]; simpl; [discriminate |].
  intros H. exists a. auto.
Qed.

Lemma Forall_bindW {A B} (Q : event -> Prop) (c : W A) (k : A -> W B) :
  Forall Q (snd c) ->
  (forall a, fst c = inr a -> Forall Q (snd (k a))) ->
  Forall Q (snd (bindW c k)).
Proof.
  intros Hc Hk. unfold bindW. destruct (fst c) as [e | a] eqn:Hf; simpl; auto.
  apply Forall_app. split; auto.
Qed.

Lemma Forall_for_eachW {A B} (Q : event -> Prop) (body : A -> W B) l :
  (forall x, In x l -> Forall Q (snd (body x))) ->
  Forall Q (snd (for_eachW body l)).
Proof.
  induction l as [| x l IH]; intros H; simpl.
  - constructor.
  - apply Forall_bindW; [apply H; now left |].
    intros y _. apply Forall_bindW; [apply IH; intros; apply H; now right |].
    intros ys _. constructor.
Qed.

Lemma bindM_inr {A B} (c : M A) (k : A -> M B) ms a :
  res (c ms) = inr a ->
  bindM c k ms
  = mkOutcome (res (k a (st (c ms)))) (st (k a (st (c ms))))
              (tr (c ms) ++ tr (k a (st (c ms)))).
Proof. intros H. unfold bindM. rewrite H. reflexivity. Qed.

Lemma bindM_inl {A B} (c : M A) (k : A -> M B) ms e :
  res (c ms) = inl e ->
  bindM c k ms = mkOutcome (inl e) (st (c ms)) (tr (c ms)).
Proof. intros H. unfold bindM. rewrite H. reflexivity. Qed.

Lemma Forall_bindM {A B} (Q : event -> Prop) (c : M A) (k : A -> M B) ms :
  Forall Q (tr (c ms)) ->
  (forall a, res (c ms) = inr a -> Forall Q (tr (k a (st (c ms))))) ->
  Forall Q (tr (bindM c k ms)).
Proof.
  intros Hc Hk. unfold bindM. destruct (res (c ms)) as [e | a] eqn:Hf; simpl; auto.
  apply Forall_app. split; auto.
Qed.

Lemma Forall_for_eachM {A B} (Q : event -> Prop) (body : A -> M B) l :
  (forall x ms, In x l -> Forall Q (tr (body x ms))) ->
  forall ms, Forall Q (tr (for_eachM body l ms)).
Proof.
  induction l as [| x l IH]; intros H ms; simpl.
  - constructor.
  - apply Forall_bindM; [apply H; now left |].
    intros y _. apply Forall_bindM; [apply IH; intros; apply H; now right |].
    intros ys _. constructor.
Qed.

(** A loop whose body always returns maps its list. *)
Lemma for_eachW_map {A B} (body : A -> W B) (g : A -> B) l :
  (forall x, In x l -> fst (body x) = inr (g x)) ->
  fst (for_eachW body l) = inr (map g l).
Proof.
  induction l as [| x l IH]; intros H; simpl; [reflexivity |].
  rewrite (bindW_inr _ _ _ (H x (or_introl eq_refl))). simpl.
  rewrite (bindW_inr _ _ _ (IH (fun y Hy => H y (or_intror Hy)))). reflexivity.
Qed.

(** * Lists of indices *)

Lemma combine_seq {A} (d : A) (l : list A) : forall m s,
  combine (seq s m) l
  = map (fun k => (k, nth (k - s) l d)) (seq s (Nat.min m (length l))).
Proof.
  induction l as [| x l IH]; intros m s.
  - rewrite Nat.min_0_r. simpl. now destruct (seq s m).
  - destruct m as [| m]; simpl; [reflexivity |].
    rewrite Nat.sub_diag. f_equal. rewrite IH.
    apply map_ext_in. intros k Hk. apply in_seq in Hk.
    replace (k - s) with (S (k - S s)) by lia. reflexivity.
Qed.

Lemma combine_map_seq {A B} (f : nat -> A) (g : nat -> B) l :
  combine (map f l) (map g l) = map (fun k => (f k, g k)) l.
Proof. induction l; simpl; congruence. Qed.

Lemma enumerate_map_seq {A} (f : nat -> A) n :
  enumerate (map f (seq 0 n)) = map (fun k => (k, f k)) (seq 0 n).
Proof.
  unfold enumerate. rewrite length_map, length_seq.
  rewrite <- (map_id (seq 0 n)) at 1. apply combine_map_seq.
Qed.

(** * Loss values *)

Lemma shape_eqb_refl a : shape_eqb a a = true.
Proof. induction a; simpl; [reflexivity |]. now rewrite Nat.eqb_refl. Qed.

Lemma shape_eqb_eq a : forall b, shape_eqb a b = true -> a = b.
Proof.
  induction a as [| x a IH]; intros [| y b]; simpl; try discriminate; auto.
  intros H. apply andb_prop in H. destruct H as [H1 H2].
  apply Nat.eqb_eq in H1. f_equal; auto.
Qed.

Lemma is_loss_var q l : is_loss (PyVar (mkVar (scalar_t q) l)).
Proof. simpl. now exists q. Qed.

Lemma py_add_loss x y :
  is_loss x -> is_loss y ->
  exists z, py_add x y = inr z /\ is_loss z
            /\ (py_value z == py_value x + py_value y)%Q
            /\ (is_var x \/ is_var y -> is_var z).
Proof.
  destruct x as [a | [du lu]], y as [b | [dv lv]]; simpl; intros Hx Hy.
  - eexists. repeat split; try reflexivity. intros [[] | []].
  - destruct Hy as [q ->]. eexists. repeat split; try reflexivity.
    + simpl. now eexists.
    + simpl. ring.
  - destruct Hx as [q ->]. eexists. repeat split; try reflexivity.
    simpl. now eexists.
  - destruct Hx as [p ->], Hy as [q ->]. eexists. repeat split; try reflexivity.
    simpl. now eexists.
Qed.

Lemma py_add_owned i x y z :
  py_add x y = inr z -> owned i x -> owned i y -> owned i z.
Proof.
  unfold owned.
  destruct x as [a | u], y as [b | v]; simpl; intros H Hx Hy.
  - injection H as <-. intros k [].
  - injection H as <-. simpl. auto.
  - injection H as <-. simpl. auto.
  - unfold var_zip in H. destruct (t_zip Qplus (data u) (data v)); simpl in H;
      [discriminate |].
    injection H as <-. simpl. intros k Hk. apply in_app_or in Hk. destruct Hk; auto.
Qed.

Lemma py_mul_num_loss x w : is_loss x -> is_loss (py_mul_num x w).
Proof.
  destruct x as [a | [d l]]; simpl; auto. intros [q ->]. simpl. now eexists.
Qed.

Lemma py_mul_num_value x w :
  is_loss x -> py_value (py_mul_num x w) = (py_value x * w)%Q.
Proof. destruct x as [a | [d l]]; simpl; auto. now intros [q ->]. Qed.

Lemma py_mul_num_owned i x w : owned i x -> owned i (py_mul_num x w).
Proof. destruct x; simpl; auto. Qed.

Lemma py_mul_num_var x w : is_var x -> is_var (py_mul_num x w).
Proof. destruct x; simpl; auto. Qed.

Lemma py_div_num_loss x w : is_loss x -> is_loss (py_div_num x w).
Proof.
  destruct x as [a | [d l]]; simpl; auto. intros [q ->]. simpl. now eexists.
Qed.

Lemma py_div_num_value x w :
  is_loss x -> py_value (py_div_num x w) = (py_value x / w)%Q.
Proof. destruct x as [a | [d l]]; simpl; auto. now intros [q ->]. Qed.

Lemma py_div_num_owned i x w : owned i x -> owned i (py_div_num x w).
Proof. destruct x; simpl; auto. Qed.

Lemma py_div_num_var x w : is_var x -> is_var (py_div_num x w).
Proof. destruct x; simpl; auto. Qed.

Lemma to_scalar_loss x :
  is_loss x -> is_var x -> to_scalar x = inr (py_value x).
Proof. destruct x as [a | [d l]]; simpl; [tauto |]. now intros [q ->] _. Qed.

Lemma owned_num i q : owned i (PyNum q).
Proof. intros k []. Qed.

Lemma owned_var i d : owned i (PyVar (mkVar d [i])).
Proof. intros k [<- | []]. reflexivity. Qed.

(** * The first loop *)

Lemma local_part_total i f g :
  exists l, fst (local_part E cfg i f g labels) = inr l.
Proof.
  unfold local_part.
  destruct (Qis0 (l_loss_weight cfg)); [now eexists |].
  destruct (local_dist_own_hard_sample cfg); now eexists.
Qed.

Lemma id_part_total i f :
  exists x, fst (id_part E cfg i f labels) = inr x.
Proof. unfold id_part. destruct (Qgt0 (id_loss_weight cfg)); now eexists. Qed.

Lemma model_pass_out it :
  fst (model_pass E cfg ims labels ens it) = inr (out_of (fst it)).
Proof.
  unfold model_pass, out_of, local_of, id_of, model_fwd, model_global,
    model_probs, model_log_probs, model_g_dist_mat, model_global, model_fwd.
  set (f := model_forward E (params (ens (fst it))) ims).
  set (g := global_loss E (global_margin cfg) (f_global_feat f) labels
                        (normalize_feature cfg)).
  destruct (local_part_total (fst it) f g) as [l Hl].
  destruct (id_part_total (fst it) f) as [x Hx].
  rewrite Hl, Hx.
  rewrite (bindW_inr _ _ tt) by reflexivity.
  rewrite (bindW_inr _ _ tt) by reflexivity.
  rewrite (bindW_inr _ _ _ Hl), (bindW_inr _ _ _ Hx). reflexivity.
Qed.

Lemma first_outs_eq TVTs :
  first_outs TVTs
  = map out_of (seq 0 (Nat.min (num_models cfg) (length TVTs))).
Proof.
  unfold first_outs.
  rewrite (for_eachW_map _ (fun it => out_of (fst it)))
    by (intros; apply model_pass_out).
  rewrite (combine_seq 0), map_map. reflexivity.
Qed.

Lemma first_outs_length TVTs :
  length (first_outs TVTs) = Nat.min (num_models cfg) (length TVTs).
Proof. now rewrite first_outs_eq, length_map, length_seq. Qed.

Lemma first_outs_nth TVTs j :
  j < Nat.min (num_models cfg) (length TVTs) ->
  nth_error (first_outs TVTs) j = Some (out_of j).
Proof.
  intros Hj. rewrite first_outs_eq.
  rewrite nth_error_map, nth_error_nth' with (d := 0) by now rewrite length_seq.
  now rewrite seq_nth.
Qed.

(** The elements of the second loop, one per model of the first. *)
Lemma update_items_eq TVTs :
  update_items cfg TVTs (first_outs TVTs)
  = map (fun k => (k, (out_of k, (k, nth k TVTs 0))))
        (seq 0 (Nat.min (num_models cfg) (length TVTs))).
Proof.
  unfold update_items. rewrite first_outs_eq, (combine_seq 0).
  rewrite combine_map_seq, enumerate_map_seq.
  apply map_ext. intros k. now rewrite Nat.sub_0_r.
Qed.

(** ** What a model's outputs are *)

Lemma local_of_cases i :
  (Qis0 (l_loss_weight cfg) = true
   /\ local_of i = (PyNum 0, PyNum 0, None))
  \/ (Qis0 (l_loss_weight cfg) = false
      /\ exists q d ap an,
           local_of i
           = (PyVar (mkVar (scalar_t q) [i]),
              (if local_dist_own_hard_sample cfg
               then PyVar (mkVar d [i]) else PyNum 0),
              Some (mkVar ap [i], mkVar an [i]))).
Proof.
  unfold local_of, local_part.
  destruct (Qis0 (l_loss_weight cfg)); [left; split; reflexivity | right].
  split; [reflexivity |].
  destruct (local_dist_own_hard_sample cfg); simpl.
  - eexists _, _, _, _; reflexivity.
  - eexists _, (mkTensor [] []), _, _; reflexivity.
Qed.

Lemma id_of_cases i :
  (Qgt0 (id_loss_weight cfg) = false
   /\ id_of i = PyNum 0)
  \/ (Qgt0 (id_loss_weight cfg) = true
      /\ exists q, id_of i
                   = PyVar (mkVar (scalar_t q) [i])).
Proof.
  unfold id_of, id_part.
  destruct (Qgt0 (id_loss_weight cfg)); [right | left]; split; try reflexivity.
  simpl. now eexists.
Qed.

Lemma out_of_l_loss i :
  is_loss (o_l_loss (out_of i)) /\ owned i (o_l_loss (out_of i))
  /\ (Qis0 (l_loss_weight cfg) = false -> is_var (o_l_loss (out_of i)))
  /\ (Qis0 (l_loss_weight cfg) = true -> o_l_loss (out_of i) = PyNum 0).
Proof.
  unfold out_of; simpl.
  destruct (local_of_cases i) as [[H ->] | [H (q & d & ap & an & ->)]];
    rewrite H; simpl; repeat split; auto; try discriminate.
  - apply owned_num.
  - now eexists.
  - apply owned_var.
Qed.

Lemma out_of_id_loss i :
  is_loss (o_id_loss (out_of i)) /\ owned i (o_id_loss (out_of i))
  /\ (Qgt0 (id_loss_weight cfg) = true -> is_var (o_id_loss (out_of i)))
  /\ (Qgt0 (id_loss_weight cfg) = false -> o_id_loss (out_of i) = PyNum 0).
Proof.
  unfold out_of; simpl.
  destruct (id_of_cases i) as [[H ->] | [H (q & ->)]];
    rewrite H; simpl; repeat split; auto; try discriminate.
  - apply owned_num.
  - now eexists.
  - apply owned_var.
Qed.

Lemma out_of_l_dist_mat i :
  owned i (o_l_dist_mat (out_of i))
  /\ (Qis0 (l_loss_weight cfg) = true -> o_l_dist_mat (out_of i) = PyNum 0)
  /\ (local_dist_own_hard_sample cfg = false ->
      o_l_dist_mat (out_of i) = PyNum 0).
Proof.
  unfold out_of; simpl.
  destruct (local_of_cases i) as [[H ->] | [H (q & d & ap & an & ->)]];
    rewrite H; simpl; repeat split; auto; try discriminate.
  - apply owned_num.
  - destruct (local_dist_own_hard_sample cfg);
      [apply owned_var | apply owned_num].
  - now intros ->.
Qed.

Lemma out_of_l_dist i :
  Qis0 (l_loss_weight cfg) = false ->
  exists ap an, o_l_dist (out_of i) = Some (mkVar ap [i], mkVar an [i]).
Proof.
  intros H. unfold out_of; simpl.
  destruct (local_of_cases i) as [[H' _] | [_ (q & d & ap & an & ->)]];
    [congruence |].
  simpl. now eexists _, _.
Qed.


(* ================================================================== *)
(** * Sums *)

Lemma Qsum_app l1 l2 : (Qsum (l1 ++ l2) == Qsum l1 + Qsum l2)%Q.
Proof.
  induction l1 as [| x l1 IH]; simpl.
  - ring.
  - rewrite IH. ring.
Qed.

Lemma Qsum_map_ext {A} (f g : A -> Q) l :
  (forall x, In x l -> Qeq (f x) (g x)) ->
  Qeq (Qsum (map f l)) (Qsum (map g l)).
Proof.
  induction l as [| x l IH]; intros H; simpl; [reflexivity |].
  rewrite (H x (or_introl eq_refl)), IH; [reflexivity |].
  intros y Hy. apply H. now right.
Qed.

Lemma seq_from s n : seq s n = map (fun b => s + b) (seq 0 n).
Proof.
  revert s. induction n as [| n IH]; intros s; simpl; [reflexivity |].
  rewrite Nat.add_0_r. f_equal. rewrite (IH (S s)), (IH 1), map_map.
  apply map_ext. intros b. lia.
Qed.

(** A sum over the entries of a matrix, by rows. *)
Lemma Qsum_rows (h : nat -> Q) n r :
  Qeq (Qsum (map h (seq 0 (r * n))))
      (Qsum (map (fun a => Qsum (map (fun b => h (a * n + b)) (seq 0 n)))
                 (seq 0 r))).
Proof.
  induction r as [| r IH]; [reflexivity |].
  replace (S r * n) with (r * n + n) by lia.
  rewrite seq_app, seq_S, !map_app, !Qsum_app, IH. simpl.
  rewrite (seq_from (r * n) n), map_map. ring.
Qed.

Lemma zip_with_nth f : forall l1 l2,
  length l1 = length l2 ->
  zip_with f l1 l2
  = map (fun k => f (nth k l1 0%Q) (nth k l2 0%Q)) (seq 0 (length l1)).
Proof.
  induction l1 as [| x l1 IH]; intros [| y l2] H; simpl in *;
    try discriminate; [reflexivity |].
  f_equal. rewrite <- seq_shift, map_map. apply IH. lia.
Qed.

Lemma mat_ok_spec n t :
  mat_ok n t = true -> shape t = [n; n] /\ length (elems t) = n * n.
Proof.
  unfold mat_ok. intros H. apply andb_prop in H. destruct H as [H1 H2].
  split; [now apply shape_eqb_eq | now apply Nat.eqb_eq].
Qed.

(** [torch.sum(torch.pow(x - y, 2))] on two [n x n] matrices. *)
Lemma sq_diff_sum_ok n x y :
  mat_ok n x = true -> mat_ok n y = true ->
  Qeq (Qsum (map (fun e => e * e)%Q (zip_with Qminus (elems x) (elems y))))
      (sq_diff_sum n x y).
Proof.
  intros Hx Hy. apply mat_ok_spec in Hx, Hy.
  destruct Hx as [_ Hx], Hy as [_ Hy].
  rewrite zip_with_nth by congruence. rewrite map_map, Hx.
  rewrite Qsum_rows. reflexivity.
Qed.

(* ================================================================== *)
(** * The loop over the peers *)

Lemma sum_peers_trace (Q : event -> Prop) i ev term js :
  (forall j, In j js -> j <> i -> Q (ev j)) ->
  forall acc, Forall Q (snd (sum_peers i ev term js acc)).
Proof.
  induction js as [| j js IH]; intros H acc; simpl; [constructor |].
  destruct (j =? i) eqn:Hj.
  - apply IH. intros; apply H; auto. now right.
  - apply Nat.eqb_neq in Hj.
    apply Forall_bindW; [repeat constructor; apply H; auto; now left |].
    intros _ _. apply Forall_bindW; [constructor |].
    intros t _. apply Forall_bindW; [constructor |].
    intros acc' _. apply IH. intros; apply H; auto. now right.
Qed.

Lemma sum_peers_owned i k ev term js :
  (forall j t, term j = inr t -> owned k (PyVar t)) ->
  forall acc z,
    owned k acc -> fst (sum_peers i ev term js acc) = inr z -> owned k z.
Proof.
  intros Ht. induction js as [| j js IH]; intros acc z Hacc; simpl.
  - intros H. now injection H as <-.
  - destruct (j =? i); [now apply IH |].
    intros H. apply bindW_ok in H. destruct H as (_ & _ & H).
    apply bindW_ok in H. destruct H as (t & Ht' & H).
    apply bindW_ok in H. destruct H as (acc' & Hadd & H).
    simpl in Ht', Hadd. apply (IH acc'); auto.
    eapply py_add_owned; eauto.
Qed.

Lemma sum_peers_value i ev term (f : nat -> Q) js :
  (forall j, In j js -> j <> i ->
             exists l, term j = inr (mkVar (scalar_t (f j)) l)) ->
  forall acc, is_loss acc ->
  exists z,
    fst (sum_peers i ev term js acc) = inr z /\ is_loss z
    /\ Qeq (py_value z)
           (py_value acc
            + Qsum (map f (filter (fun j => negb (j =? i)) js)))%Q
    /\ (is_var acc \/ (exists j, In j js /\ j <> i) -> is_var z).
Proof.
  induction js as [| j js IH]; intros H acc Hacc.
  - exists acc. simpl. repeat split; auto.
    + ring.
    + intros [Hv | (j & [] & _)]. exact Hv.
  - cbn [sum_peers filter]. destruct (j =? i) eqn:Hj; cbn [negb].
    + apply Nat.eqb_eq in Hj. subst j.
      destruct (IH (fun j Hj => H j (or_intror Hj)) acc Hacc)
        as (z & Hz & Hl & Hv & Hvar).
      exists z. repeat split; auto.
      intros [Hv' | (j & [<- | Hin] & Hne)]; auto; [congruence |].
      apply Hvar. right. now exists j.
    + apply Nat.eqb_neq in Hj.
      destruct (H j (or_introl eq_refl) Hj) as (l & Ht).
      destruct (py_add_loss acc (PyVar (mkVar (scalar_t (f j)) l)) Hacc
                            (is_loss_var _ _))
        as (acc' & Hadd & Hl' & Hv' & Hvar').
      destruct (IH (fun j Hj => H j (or_intror Hj)) acc' Hl')
        as (z & Hz & Hl & Hv & Hvar).
      exists z.
      rewrite (bindW_inr _ _ tt) by reflexivity.
      rewrite (bindW_inr _ _ (mkVar (scalar_t (f j)) l)) by exact Ht.
      rewrite (bindW_inr _ _ acc') by exact Hadd.
      repeat split; auto.
      * rewrite Hv, Hv'. simpl. ring.
      * intros _. apply Hvar. left. apply Hvar'. now right.
Qed.

Lemma peer_exists m i : 2 <= m -> exists j, In j (seq 0 m) /\ j <> i.
Proof.
  intros Hm. destruct (Nat.eq_dec i 0) as [-> | Hi].
  - exists 1. split; [apply in_seq; lia | lia].
  - exists 0. split; [apply in_seq; lia | lia].
Qed.

(* ================================================================== *)
(** * The three mutual-learning blocks *)

Lemma step_wf_spec TVTs :
  step_wf TVTs = true ->
  length TVTs = num_models cfg /\ 1 <= num_models cfg
  /\ forall i, i < num_models cfg -> out_wf (py_len ims) (out_of i) = true.
Proof.
  unfold step_wf. intros H.
  apply andb_prop in H. destruct H as [H H3].
  apply andb_prop in H. destruct H as [H1 H2].
  apply Nat.eqb_eq in H1. apply Nat.leb_le in H2.
  repeat split; auto. intros i Hi.
  rewrite forallb_forall in H3. apply H3.
  rewrite first_outs_eq, H1, Nat.min_id. apply in_map, in_seq. lia.
Qed.

Lemma out_wf_spec n o :
  out_wf n o = true ->
  shape (data (o_g_dist_an o)) = shape (data (o_g_dist_ap o))
  /\ (Qgt0 (l_loss_weight cfg) = true ->
      exists d, o_l_dist o = Some d
                /\ shape (data (snd d)) = shape (data (fst d)))
  /\ (gdm_on cfg = true -> mat_ok n (data (o_g_dist_mat o)) = true)
  /\ (ldm_on cfg = true ->
      exists v, o_l_dist_mat o = PyVar v /\ mat_ok n (data v) = true).
Proof.
  unfold out_wf. intros H.
  apply andb_prop in H. destruct H as [H H4].
  apply andb_prop in H. destruct H as [H H3].
  apply andb_prop in H. destruct H as [H1 H2].
  repeat split.
  - now apply shape_eqb_eq.
  - intros Hl. rewrite Hl in H2. destruct (o_l_dist o) as [d |];
      [| discriminate].
    exists d. split; [reflexivity | now apply shape_eqb_eq].
  - intros Hg. now rewrite Hg in H3.
  - intros Hl. rewrite Hl in H4. destruct (o_l_dist_mat o) as [q | v];
      [discriminate |].
    now exists v.
Qed.

Lemma guard_two_models (b : bool) :
  (1 <? num_models cfg) && b = true -> 2 <= num_models cfg /\ b = true.
Proof.
  intros H. apply andb_prop in H. destruct H as [H1 H2].
  apply Nat.ltb_lt in H1. auto.
Qed.

(** ** One term *)

Lemma pm_term_ok outs tvt lp j o :
  nth_error outs j = Some o ->
  pm_term E outs tvt lp j
  = inr (mkVar (scalar_t (F_kl_div E (data lp) (data (o_probs o))))
               (leaves lp ++ [])).
Proof. intros H. unfold pm_term. rewrite H. reflexivity. Qed.

Lemma pm_term_owned k outs tvt lp j t :
  owned k (PyVar lp) -> pm_term E outs tvt lp j = inr t -> owned k (PyVar t).
Proof.
  unfold pm_term. intros Hk. destruct (nth_error outs j); simpl;
    [| discriminate].
  intros H. injection H as <-. intros x Hx. simpl in Hx.
  rewrite app_nil_r in Hx. now apply Hk.
Qed.

Lemma dist_term_ok pick outs tvt x lx y ly j o :
  nth_error outs j = Some o ->
  pick o = PyVar (mkVar y ly) ->
  shape x = shape y ->
  dist_term pick outs tvt (PyVar (mkVar x lx)) j
  = inr (mkVar (scalar_t (Qsum (map (fun e => e * e)%Q
                                    (zip_with Qminus (elems x) (elems y)))))
               (lx ++ [])).
Proof.
  intros H Hp Hs. unfold dist_term. rewrite H. simpl. rewrite Hp. simpl.
  unfold var_zip, t_zip. simpl. rewrite Hs, shape_eqb_refl. reflexivity.
Qed.

Lemma dist_term_owned k pick outs tvt mine j t :
  owned k mine -> dist_term pick outs tvt mine j = inr t ->
  owned k (PyVar t).
Proof.
  unfold dist_term. intros Hk.
  destruct (nth_error outs j) as [o |]; simpl; [| discriminate].
  destruct (pick o) as [q | v]; simpl; [discriminate |].
  destruct mine as [a | u]; simpl.
  - intros H. injection H as <-. intros x [].
  - unfold var_zip, t_zip. destruct (shape_eqb _ _); simpl.
    + intros H. injection H as <-. intros x Hx. simpl in Hx.
      rewrite app_nil_r in Hx. now apply Hk.
    + discriminate.
Qed.

(** ** A block that is switched off *)

Lemma pm_block_off i tvt n outs lp :
  pm_on cfg = false -> pm_loss_block E cfg i tvt n outs lp = retW (PyNum 0).
Proof. intros H. unfold pm_loss_block. now rewrite H. Qed.

Lemma gdm_block_off i tvt n outs g :
  gdm_on cfg = false -> gdm_loss_block cfg i tvt n outs g = retW (PyNum 0).
Proof. intros H. unfold gdm_loss_block. now rewrite H. Qed.

Lemma ldm_block_off i tvt n outs l :
  ldm_on cfg = false -> ldm_loss_block cfg i tvt n outs l = retW (PyNum 0).
Proof. intros H. unfold ldm_loss_block. now rewrite H. Qed.

(** ** The events of a block *)

Lemma pm_block_trace (Q : event -> Prop) i tvt n outs lp :
  (pm_on cfg = true -> forall j, j <> i -> Q (EKlDiv i j)) ->
  Forall Q (snd (pm_loss_block E cfg i tvt n outs lp)).
Proof.
  intros H. unfold pm_loss_block. destruct (pm_on cfg); [| constructor].
  apply Forall_bindW; [apply sum_peers_trace; auto |].
  intros; constructor.
Qed.

Lemma gdm_block_trace (Q : event -> Prop) i tvt n outs g :
  (gdm_on cfg = true -> forall j, j <> i -> Q (EGdmTerm i j)) ->
  Forall Q (snd (gdm_loss_block cfg i tvt n outs g)).
Proof.
  intros H. unfold gdm_loss_block. destruct (gdm_on cfg); [| constructor].
  apply Forall_bindW; [apply sum_peers_trace; auto |].
  intros; constructor.
Qed.

Lemma ldm_block_trace (Q : event -> Prop) i tvt n outs l :
  (ldm_on cfg = true -> forall j, j <> i -> Q (ELdmTerm i j)) ->
  Forall Q (snd (ldm_loss_block cfg i tvt n outs l)).
Proof.
  intros H. unfold ldm_loss_block. destruct (ldm_on cfg); [| constructor].
  apply Forall_bindW; [apply sum_peers_trace; auto |].
  intros; constructor.
Qed.

(** ** Whose parameters a block reaches *)

Lemma pm_block_owned k i tvt n outs lp z :
  owned k (PyVar lp) ->
  fst (pm_loss_block E cfg i tvt n outs lp) = inr z -> owned k z.
Proof.
  intros Hk. unfold pm_loss_block. destruct (pm_on cfg).
  - intros H. apply bindW_ok in H. destruct H as (pm & Hpm & H).
    injection H as <-. apply py_div_num_owned.
    eapply sum_peers_owned; [| apply owned_num | exact Hpm].
    intros j t. now apply pm_term_owned.
  - intros H. injection H as <-. apply owned_num.
Qed.

Lemma gdm_block_owned k i tvt n outs g z :
  owned k (PyVar g) ->
  fst (gdm_loss_block cfg i tvt n outs g) = inr z -> owned k z.
Proof.
  intros Hk. unfold gdm_loss_block. destruct (gdm_on cfg).
  - intros H. apply bindW_ok in H. destruct H as (s & Hs & H).
    injection H as <-. apply py_div_num_owned.
    eapply sum_peers_owned; [| apply owned_num | exact Hs].
    intros j t. now apply dist_term_owned.
  - intros H. injection H as <-. apply owned_num.
Qed.

Lemma ldm_block_owned k i tvt n outs l z :
  owned k l ->
  fst (ldm_loss_block cfg i tvt n outs l) = inr z -> owned k z.
Proof.
  intros Hk. unfold ldm_loss_block. destruct (ldm_on cfg).
  - intros H. apply bindW_ok in H. destruct H as (s & Hs & H).
    injection H as <-. apply py_div_num_owned.
    eapply sum_peers_owned; [| apply owned_num | exact Hs].
    intros j t. now apply dist_term_owned.
  - intros H. injection H as <-. apply owned_num.
Qed.

(** ** The value of a block *)

Lemma pm_block_value TVTs i tvt :
  length TVTs = num_models cfg -> i < num_models cfg ->
  pm_on cfg = true ->
  exists z,
    fst (pm_loss_block E cfg i tvt (py_len ims) (first_outs TVTs)
                       (o_log_probs (out_of i))) = inr z
    /\ is_loss z /\ is_var z /\ Qeq (py_value z) (pm_loss_spec i).
Proof.
  intros HT Hi Hon. unfold pm_loss_block. rewrite Hon.
  apply guard_two_models in Hon. destruct Hon as [HM _].
  destruct (sum_peers_value i (EKlDiv i)
              (pm_term E (first_outs TVTs) tvt (o_log_probs (out_of i)))
              (fun j => F_kl_div E (model_log_probs i) (model_probs j))
              (seq 0 (num_models cfg)))
    with (acc := PyNum 0) as (z & Hz & Hl & Hv & Hvar).
  - intros j Hj _. apply in_seq in Hj. eexists.
    rewrite pm_term_ok with (o := out_of j); [reflexivity |].
    apply first_outs_nth. rewrite HT, Nat.min_id. lia.
  - exact I.
  - rewrite (bindW_inr _ _ _ Hz). eexists. split; [reflexivity |].
    split; [now apply py_div_num_loss |].
    split; [apply py_div_num_var, Hvar; right; now apply peer_exists |].
    rewrite py_div_num_value by assumption. rewrite Hv.
    unfold pm_loss_spec, peers, Qdiv. simpl py_value.
    setoid_replace (1 * Qnat (num_models cfg - 1) * Qnat (py_len ims))%Q
      with (Qnat (num_models cfg - 1) * Qnat (py_len ims))%Q by ring.
    ring.
Qed.

Lemma gdm_block_value TVTs i tvt :
  step_wf TVTs = true -> i < num_models cfg -> gdm_on cfg = true ->
  exists z,
    fst (gdm_loss_block cfg i tvt (py_len ims) (first_outs TVTs)
                        (o_g_dist_mat (out_of i))) = inr z
    /\ is_loss z /\ is_var z /\ Qeq (py_value z) (gdm_loss_spec i).
Proof.
  intros Hwf Hi Hon. unfold gdm_loss_block. rewrite Hon.
  destruct (step_wf_spec _ Hwf) as (HT & _ & Hout).
  assert (Hmat : forall j, j < num_models cfg ->
                   mat_ok (py_len ims) (model_g_dist_mat j) = true).
  { intros j Hj. destruct (out_wf_spec _ _ (Hout j Hj)) as (_ & _ & Hg & _).
    now apply Hg. }
  apply guard_two_models in Hon. destruct Hon as [HM _].
  destruct (sum_peers_value i (EGdmTerm i)
              (dist_term (fun o => PyVar (o_g_dist_mat o)) (first_outs TVTs)
                         tvt (PyVar (o_g_dist_mat (out_of i))))
              (fun j => Qsum (map (fun e => e * e)%Q
                                  (zip_with Qminus
                                     (elems (model_g_dist_mat i))
                                     (elems (model_g_dist_mat j)))))
              (seq 0 (num_models cfg)))
    with (acc := PyNum 0) as (z & Hz & Hl & Hv & Hvar).
  - intros j Hj _. apply in_seq in Hj. eexists.
    apply dist_term_ok with (o := out_of j) (ly := [j]).
    + apply first_outs_nth. rewrite HT, Nat.min_id. lia.
    + reflexivity.
    + destruct (mat_ok_spec _ _ (Hmat i Hi)) as [-> _].
      destruct (mat_ok_spec _ _ (Hmat j (proj2 Hj))) as [-> _]. reflexivity.
  - exact I.
  - rewrite (bindW_inr _ _ _ Hz). eexists. split; [reflexivity |].
    split; [now apply py_div_num_loss |].
    split; [apply py_div_num_var, Hvar; right; now apply peer_exists |].
    rewrite py_div_num_value by assumption. rewrite Hv.
    unfold gdm_loss_spec, Qdiv. simpl py_value.
    setoid_replace (1 * Qnat (num_models cfg - 1) * Qnat (py_len ims)
                    * Qnat (py_len ims))%Q
      with (Qnat (num_models cfg - 1)
            * (Qnat (py_len ims) * Qnat (py_len ims)))%Q by ring.
    apply Qmult_comp; [| reflexivity]. rewrite Qplus_0_l.
    apply Qsum_map_ext. intros j Hj. apply filter_In in Hj.
    destruct Hj as [Hj _]. apply in_seq in Hj.
    apply sq_diff_sum_ok; apply Hmat; lia.
Qed.

Lemma ldm_block_ok TVTs i tvt :
  step_wf TVTs = true -> i < num_models cfg -> ldm_on cfg = true ->
  exists z,
    fst (ldm_loss_block cfg i tvt (py_len ims) (first_outs TVTs)
                        (o_l_dist_mat (out_of i))) = inr z
    /\ is_loss z /\ is_var z.
Proof.
  intros Hwf Hi Hon. unfold ldm_loss_block. rewrite Hon.
  destruct (step_wf_spec _ Hwf) as (HT & _ & Hout).
  assert (Hmat : forall j, j < num_models cfg ->
            exists v, o_l_dist_mat (out_of j) = PyVar v
                      /\ mat_ok (py_len ims) (data v) = true).
  { intros j Hj. destruct (out_wf_spec _ _ (Hout j Hj)) as (_ & _ & _ & Hl).
    now apply Hl. }
  apply andb_prop in Hon. destruct Hon as [Hon _].
  apply guard_two_models in Hon. destruct Hon as [HM _].
  destruct (Hmat i Hi) as ([x lx] & Hx & Hxm). rewrite Hx.
  destruct (sum_peers_value i (ELdmTerm i)
              (dist_term o_l_dist_mat (first_outs TVTs) tvt
                         (PyVar (mkVar x lx)))
              (fun j => Qsum (map (fun e => e * e)%Q
                                  (zip_with Qminus (elems x)
                                     (elems (data match o_l_dist_mat (out_of j)
                                                  with
                                                  | PyVar v => v
                                                  | PyNum _ => mkVar x lx
                                                  end)))))
              (seq 0 (num_models cfg)))
    with (acc := PyNum 0) as (z & Hz & Hl & Hv & Hvar).
  - intros j Hj _. apply in_seq in Hj.
    destruct (Hmat j (proj2 Hj)) as ([y ly] & Hy & Hym). rewrite Hy.
    eexists.
    apply dist_term_ok with (o := out_of j) (ly := ly).
    + apply first_outs_nth. rewrite HT, Nat.min_id. lia.
    + exact Hy.
    + destruct (mat_ok_spec _ _ Hxm) as [Sx _].
      destruct (mat_ok_spec _ _ Hym) as [Sy _]. simpl in Sx, Sy.
      simpl. congruence.
  - exact I.
  - rewrite (bindW_inr _ _ _ Hz). eexists. split; [reflexivity |].
    split; [now apply py_div_num_loss |].
    apply py_div_num_var, Hvar. right. now apply peer_exists.
Qed.

(* ================================================================== *)
(** * The total loss *)

Lemma compose_loss_ok g l id pm gdm ldm :
  is_loss (PyVar g) -> is_loss l -> is_loss id -> is_loss pm ->
  is_loss gdm -> is_loss ldm ->
  exists z,
    compose_loss cfg g l id pm gdm ldm = inr z
    /\ is_loss z /\ is_var z
    /\ Qeq (py_value z) (weighted_sum (PyVar g) l id pm gdm ldm).
Proof.
  intros Hg Hl Hid Hpm Hgdm Hldm. unfold compose_loss, weighted_sum.
  destruct (py_add_loss _ _
              (py_mul_num_loss _ (g_loss_weight cfg) Hg)
              (py_mul_num_loss _ (l_loss_weight cfg) Hl))
    as (s1 & -> & L1 & V1 & R1).
  destruct (py_add_loss _ _ L1 (py_mul_num_loss _ (id_loss_weight cfg) Hid))
    as (s2 & E2 & L2 & V2 & R2).
  destruct (py_add_loss _ _ L2 (py_mul_num_loss _ (pm_loss_weight cfg) Hpm))
    as (s3 & E3 & L3 & V3 & R3).
  destruct (py_add_loss _ _ L3 (py_mul_num_loss _ (gdm_loss_weight cfg) Hgdm))
    as (s4 & E4 & L4 & V4 & R4).
  destruct (py_add_loss _ _ L4 (py_mul_num_loss _ (ldm_loss_weight cfg) Hldm))
    as (s5 & E5 & L5 & V5 & R5).
  exists s5. simpl bindR. rewrite E2. simpl bindR. rewrite E3. simpl bindR.
  rewrite E4. simpl bindR. split; [exact E5 |]. split; [exact L5 |].
  split.
  - apply R5. left. apply R4. left. apply R3. left. apply R2. left.
    apply R1. left. exact I.
  - rewrite V5, V4, V3, V2, V1.
    rewrite !py_mul_num_value by assumption. reflexivity.
Qed.

Lemma compose_loss_owned k g l id pm gdm ldm z :
  compose_loss cfg g l id pm gdm ldm = inr z ->
  owned k (PyVar g) -> owned k l -> owned k id -> owned k pm ->
  owned k gdm -> owned k ldm -> owned k z.
Proof.
  unfold compose_loss. intros H Hg Hl Hid Hpm Hgdm Hldm.
  destruct (py_add _ _) as [| s1] eqn:E1 in H; simpl in H; [discriminate |].
  destruct (py_add s1 _) as [| s2] eqn:E2 in H; simpl in H; [discriminate |].
  destruct (py_add s2 _) as [| s3] eqn:E3 in H; simpl in H; [discriminate |].
  destruct (py_add s3 _) as [| s4] eqn:E4 in H; simpl in H; [discriminate |].
  eapply py_add_owned; [exact H | | now apply py_mul_num_owned].
  eapply py_add_owned; [exact E4 | | now apply py_mul_num_owned].
  eapply py_add_owned; [exact E3 | | now apply py_mul_num_owned].
  eapply py_add_owned; [exact E2 | | now apply py_mul_num_owned].
  eapply py_add_owned; [exact E1 | |]; now apply py_mul_num_owned.
Qed.

(** ** Lines 300-333 for one model *)

Lemma model_losses_inv n outs i o tvt t :
  fst (model_losses E cfg n outs i o tvt) = inr t ->
  exists pm gdm ldm loss,
    fst (pm_loss_block E cfg i tvt n outs (o_log_probs o)) = inr pm
    /\ fst (gdm_loss_block cfg i tvt n outs (o_g_dist_mat o)) = inr gdm
    /\ fst (ldm_loss_block cfg i tvt n outs (o_l_dist_mat o)) = inr ldm
    /\ compose_loss cfg (o_g_loss o) (o_l_loss o) (o_id_loss o) pm gdm ldm
       = inr loss
    /\ t = mkLocals (o_g_loss o) (o_l_loss o) (o_id_loss o) pm gdm ldm loss.
Proof.
  unfold model_losses. intros H.
  apply bindW_ok in H. destruct H as (pm & Hpm & H).
  apply bindW_ok in H. destruct H as (gdm & Hgdm & H).
  apply bindW_ok in H. destruct H as (ldm & Hldm & H).
  apply bindW_ok in H. destruct H as (loss & Hloss & H).
  apply bindW_ok in H. destruct H as (_ & _ & H).
  injection H as <-. now exists pm, gdm, ldm, loss.
Qed.

Lemma model_losses_trace (Q : event -> Prop) n outs i o tvt :
  (pm_on cfg = true -> forall j, j <> i -> Q (EKlDiv i j)) ->
  (gdm_on cfg = true -> forall j, j <> i -> Q (EGdmTerm i j)) ->
  (ldm_on cfg = true -> forall j, j <> i -> Q (ELdmTerm i j)) ->
  (forall t, fst (model_losses E cfg n outs i o tvt) = inr t ->
             Q (ECompose i t)) ->
  Forall Q (snd (model_losses E cfg n outs i o tvt)).
Proof.
  intros Hpm Hgdm Hldm Hc. revert Hc. unfold model_losses. intros Hc.
  apply Forall_bindW; [now apply pm_block_trace |]. intros pm Epm.
  rewrite (bindW_inr _ _ _ Epm) in Hc. simpl fst in Hc.
  apply Forall_bindW; [now apply gdm_block_trace |]. intros gdm Egdm.
  rewrite (bindW_inr _ _ _ Egdm) in Hc. simpl fst in Hc.
  apply Forall_bindW; [now apply ldm_block_trace |]. intros ldm Eldm.
  rewrite (bindW_inr _ _ _ Eldm) in Hc. simpl fst in Hc.
  apply Forall_bindW; [constructor |]. intros loss Eloss.
  rewrite (bindW_inr _ _ _ Eloss) in Hc. simpl fst in Hc.
  apply Forall_bindW; [| intros; constructor].
  repeat constructor. apply Hc. reflexivity.
Qed.

(** ** The losses of one model in a well-formed step *)

Lemma pm_block_total TVTs i tvt :
  step_wf TVTs = true -> i < num_models cfg ->
  exists z,
    fst (pm_loss_block E cfg i tvt (py_len ims) (first_outs TVTs)
                       (o_log_probs (out_of i))) = inr z
    /\ is_loss z
    /\ (if pm_on cfg
        then is_var z /\ Qeq (py_value z) (pm_loss_spec i)
        else z = PyNum 0).
Proof.
  intros Hwf Hi. destruct (pm_on cfg) eqn:Hon.
  - destruct (step_wf_spec _ Hwf) as (HT & _ & _).
    destruct (pm_block_value TVTs i tvt HT Hi Hon) as (z & Hz & Hl & Hv & Hq).
    now exists z.
  - rewrite pm_block_off by assumption. now exists (PyNum 0).
Qed.

Lemma gdm_block_total TVTs i tvt :
  step_wf TVTs = true -> i < num_models cfg ->
  exists z,
    fst (gdm_loss_block cfg i tvt (py_len ims) (first_outs TVTs)
                        (o_g_dist_mat (out_of i))) = inr z
    /\ is_loss z
    /\ (if gdm_on cfg
        then is_var z /\ Qeq (py_value z) (gdm_loss_spec i)
        else z = PyNum 0).
Proof.
  intros Hwf Hi. destruct (gdm_on cfg) eqn:Hon.
  - destruct (gdm_block_value TVTs i tvt Hwf Hi Hon) as (z & Hz & Hl & Hv & Hq).
    now exists z.
  - rewrite gdm_block_off by assumption. now exists (PyNum 0).
Qed.

Lemma ldm_block_total TVTs i tvt :
  step_wf TVTs = true -> i < num_models cfg ->
  exists z,
    fst (ldm_loss_block cfg i tvt (py_len ims) (first_outs TVTs)
                        (o_l_dist_mat (out_of i))) = inr z
    /\ is_loss z
    /\ (if ldm_on cfg then is_var z else z = PyNum 0).
Proof.
  intros Hwf Hi. destruct (ldm_on cfg) eqn:Hon.
  - destruct (ldm_block_ok TVTs i tvt Hwf Hi Hon) as (z & Hz & Hl & Hv).
    now exists z.
  - rewrite ldm_block_off by assumption. now exists (PyNum 0).
Qed.

Lemma model_losses_ok TVTs i tvt :
  step_wf TVTs = true -> i < num_models cfg ->
  exists t,
    fst (model_losses E cfg (py_len ims) (first_outs TVTs) i (out_of i) tvt)
    = inr t
    /\ good_locals i t.
Proof.
  intros Hwf Hi.
  destruct (pm_block_total TVTs i tvt Hwf Hi) as (pm & Epm & Lpm & Hpm).
  destruct (gdm_block_total TVTs i tvt Hwf Hi) as (gdm & Egdm & Lgdm & Hgdm).
  destruct (ldm_block_total TVTs i tvt Hwf Hi) as (ldm & Eldm & Lldm & Hldm).
  destruct (out_of_l_loss i) as (Ll & _).
  destruct (out_of_id_loss i) as (Lid & _).
  destruct (compose_loss_ok (o_g_loss (out_of i)) (o_l_loss (out_of i))
                            (o_id_loss (out_of i)) pm gdm ldm)
    as (loss & Eloss & Lloss & Vloss & Qloss); try assumption.
  { apply is_loss_var. }
  eexists. unfold model_losses.
  rewrite (bindW_inr _ _ _ Epm), (bindW_inr _ _ _ Egdm), (bindW_inr _ _ _ Eldm).
  rewrite (bindW_inr _ _ loss) by exact Eloss.
  split; [reflexivity |].
  unfold good_locals; simpl. repeat split; auto.
Qed.

(* ================================================================== *)
(** * The second loop *)

Lemma model_update_ok n outs i o opt tvt ms t v :
  fst (model_losses E cfg n outs i o tvt) = inr t ->
  s_loss t = PyVar v ->
  model_update E cfg n outs (i, (o, (opt, tvt))) ms
  = mkOutcome (inr t) (accumulated v (zeroed opt ms))
              (snd (model_losses E cfg n outs i o tvt)
               ++ [EZeroGrad opt] ++ [EBackward i] ++ []).
Proof.
  intros Ht Hv. unfold model_update. cbn [fst snd].
  rewrite (bindM_inr _ _ _ t) by exact Ht. cbn [st tr liftW].
  rewrite (bindM_inr _ _ _ tt) by reflexivity. cbn [st tr zero_grad].
  rewrite Hv. reflexivity.
Qed.

Lemma model_update_err n outs i o opt tvt ms e :
  fst (model_losses E cfg n outs i o tvt) = inl e ->
  model_update E cfg n outs (i, (o, (opt, tvt))) ms
  = mkOutcome (inl e) ms (snd (model_losses E cfg n outs i o tvt)).
Proof.
  intros He. unfold model_update. cbn [fst snd].
  now rewrite (bindM_inl _ _ _ e) by exact He.
Qed.

Lemma model_update_trace (Q : event -> Prop) n outs i o opt tvt ms :
  Forall Q (snd (model_losses E cfg n outs i o tvt)) ->
  Q (EZeroGrad opt) -> Q (EBackward i) ->
  Forall Q (tr (model_update E cfg n outs (i, (o, (opt, tvt))) ms)).
Proof.
  intros HL Hz Hb. unfold model_update. cbn [fst snd].
  apply Forall_bindM; [exact HL |]. intros t _.
  apply Forall_bindM; [repeat constructor; exact Hz |]. intros _ _.
  apply Forall_bindM; [| intros; constructor].
  unfold backward. destruct (s_loss t); repeat constructor. exact Hb.
Qed.

(** Whose parameters the total loss of model [i] reaches. *)
Lemma model_losses_owned k n outs i o tvt t :
  owned k (PyVar (o_g_loss o)) -> owned k (o_l_loss o) ->
  owned k (o_id_loss o) -> owned k (PyVar (o_log_probs o)) ->
  owned k (PyVar (o_g_dist_mat o)) -> owned k (o_l_dist_mat o) ->
  fst (model_losses E cfg n outs i o tvt) = inr t ->
  owned k (s_loss t).
Proof.
  intros Hg Hl Hid Hlp Hgm Hlm H.
  apply model_losses_inv in H.
  destruct H as (pm & gdm & ldm & loss & Epm & Egdm & Eldm & Eloss & ->).
  simpl. eapply compose_loss_owned; [exact Eloss | | | | | |]; auto.
  - exact (pm_block_owned _ _ _ _ _ _ _ Hlp Epm).
  - exact (gdm_block_owned _ _ _ _ _ _ _ Hgm Egdm).
  - exact (ldm_block_owned _ _ _ _ _ _ _ Hlm Eldm).
Qed.

Lemma out_of_owned i n outs tvt t :
  fst (model_losses E cfg n outs i (out_of i) tvt) = inr t ->
  owned i (s_loss t).
Proof.
  apply model_losses_owned; try apply owned_var.
  - apply out_of_l_loss.
  - apply out_of_id_loss.
  - apply out_of_l_dist_mat.
Qed.

Lemma existsb_owned i j v :
  owned i (PyVar v) -> j <> i -> existsb (Nat.eqb j) (leaves v) = false.
Proof.
  intros Ho Hj. destruct (existsb (Nat.eqb j) (leaves v)) eqn:Hx; auto.
  apply existsb_exists in Hx. destruct Hx as (k & Hk & Hjk).
  apply Nat.eqb_eq in Hjk. subst k. elim Hj. now apply Ho.
Qed.

(** The frame of one iteration: the models other than [i] are not
    touched. *)
Lemma model_update_frame n outs i tvt ms j :
  j <> i ->
  st (model_update E cfg n outs (i, (out_of i, (i, tvt))) ms) j = ms j.
Proof.
  intros Hj.
  destruct (fst (model_losses E cfg n outs i (out_of i) tvt)) as [e | t]
    eqn:Ht.
  - now rewrite (model_update_err _ _ _ _ _ _ _ _ Ht).
  - pose proof (out_of_owned _ _ _ _ _ Ht) as Ho.
    unfold model_update. cbn [fst snd].
    rewrite (bindM_inr _ _ _ t) by exact Ht. cbn [st tr liftW].
    rewrite (bindM_inr _ _ _ tt) by reflexivity. cbn [st tr zero_grad].
    unfold backward. destruct (s_loss t) as [q | v]; cbn [bindM res st].
    + unfold zeroed. apply Nat.eqb_neq in Hj. now rewrite Hj.
    + cbn [retM st]. unfold accumulated, zeroed.
      rewrite (existsb_owned _ _ _ Ho Hj).
      apply Nat.eqb_neq in Hj. now rewrite Hj.
Qed.

(** ** A loop whose body always returns *)

Lemma for_eachM_ok {A B C} (body : A -> M B) (mk : C -> A) (g : C -> B)
    (h : ensemble -> C -> ensemble) (e : C -> list event) l :
  (forall x ms, In x l ->
     body (mk x) ms = mkOutcome (inr (g x)) (h ms x) (e x)) ->
  forall ms,
    for_eachM body (map mk l) ms
    = mkOutcome (inr (map g l)) (fold_left h l ms) (flat_map e l).
Proof.
  induction l as [| x l IH]; intros H ms; [reflexivity |].
  cbn [map for_eachM fold_left flat_map].
  rewrite (bindM_inr _ _ _ (g x))
    by (rewrite (H x ms (or_introl eq_refl)); reflexivity).
  rewrite (H x ms (or_introl eq_refl)). cbn [res st tr].
  rewrite (bindM_inr _ _ _ (map g l))
    by (rewrite IH; [reflexivity | intros; apply H; now right]).
  rewrite IH by (intros; apply H; now right). cbn [res st tr retM].
  now rewrite app_nil_r.
Qed.

(** A loop stops at the first iteration that raises. *)
Lemma for_eachM_first_err {A B} (body : A -> M B) x l ms e :
  res (body x ms) = inl e ->
  for_eachM body (x :: l) ms
  = mkOutcome (inl e) (st (body x ms)) (tr (body x ms)).
Proof. intros H. cbn [for_eachM]. now rewrite (bindM_inl _ _ _ e). Qed.

Lemma locals_of_good TVTs i :
  step_wf TVTs = true -> i < num_models cfg ->
  fst (model_losses E cfg (py_len ims) (first_outs TVTs) i (out_of i)
                    (nth i TVTs 0)) = inr (locals_of TVTs i)
  /\ good_locals i (locals_of TVTs i).
Proof.
  intros Hwf Hi.
  destruct (model_losses_ok TVTs i (nth i TVTs 0) Hwf Hi) as (t & Ht & Hg).
  unfold locals_of. rewrite Ht. auto.
Qed.

Lemma locals_of_loss TVTs i :
  step_wf TVTs = true -> i < num_models cfg ->
  s_loss (locals_of TVTs i) = PyVar (loss_var (locals_of TVTs i)).
Proof.
  intros Hwf Hi. destruct (locals_of_good TVTs i Hwf Hi) as (_ & Hg).
  destruct Hg as (_ & _ & _ & _ & _ & _ & _ & _ & Hv & _).
  unfold loss_var. destruct (s_loss (locals_of TVTs i)); [elim Hv | reflexivity].
Qed.

(** The second loop of a well-formed step. *)
Lemma second_loop_ok TVTs ms :
  step_wf TVTs = true ->
  for_eachM (model_update E cfg (py_len ims) (first_outs TVTs))
            (update_items cfg TVTs (first_outs TVTs)) ms
  = mkOutcome (inr (map (locals_of TVTs) (seq 0 (num_models cfg))))
              (fold_left (updated TVTs) (seq 0 (num_models cfg)) ms)
              (flat_map (update_events TVTs) (seq 0 (num_models cfg))).
Proof.
  intros Hwf. destruct (step_wf_spec _ Hwf) as (HT & _ & _).
  rewrite update_items_eq, HT, Nat.min_id.
  apply for_eachM_ok. intros k ms' Hk. apply in_seq in Hk.
  destruct (locals_of_good TVTs k Hwf) as (Ht & _); [lia |].
  apply model_update_ok; [exact Ht |].
  apply locals_of_loss; [exact Hwf | lia].
Qed.

(** The loop over the optimizers. *)
Lemma optimizer_loop_ok n ms :
  for_eachM (optimizer_step E) (seq 0 n) ms
  = mkOutcome (inr (map (fun _ => tt) (seq 0 n)))
              (fold_left (fun s k => stepped E k s) (seq 0 n) ms)
              (flat_map (fun k => [EOptStep k]) (seq 0 n)).
Proof.
  rewrite <- (map_id (seq 0 n)) at 1.
  apply for_eachM_ok. reflexivity.
Qed.

Lemma last_opt_map_seq {A} (f : nat -> A) n :
  1 <= n -> last_opt (map f (seq 0 n)) = Some (f (n - 1)).
Proof.
  intros Hn. unfold last_opt. rewrite length_map, length_seq.
  rewrite nth_error_map, nth_error_nth' with (d := 0)
    by (rewrite length_seq; lia).
  rewrite seq_nth by lia. reflexivity.
Qed.

(* ================================================================== *)
(** * The events of a step, whatever its outcome *)

Lemma model_pass_trace (Q : event -> Prop) ms it :
  Q (EForward (fst it)) -> Q (EGlobalLoss (fst it)) ->
  (Qis0 (l_loss_weight cfg) = false ->
   forall b, Q (ELocalLoss (fst it) b)) ->
  (Qgt0 (id_loss_weight cfg) = true -> Q (EIdCriterion (fst it))) ->
  Forall Q (snd (model_pass E cfg ims labels ms it)).
Proof.
  intros Hf Hg Hl Hid. unfold model_pass.
  apply Forall_bindW; [repeat constructor; exact Hf |]. intros _ _.
  apply Forall_bindW; [repeat constructor; exact Hg |]. intros _ _.
  apply Forall_bindW.
  - unfold local_part. destruct (Qis0 (l_loss_weight cfg)); [constructor |].
    destruct (local_dist_own_hard_sample cfg);
      (apply Forall_bindW; [repeat constructor; now apply Hl
                           | intros; constructor]).
  - intros l _. apply Forall_bindW; [| intros; constructor].
    unfold id_part. destruct (Qgt0 (id_loss_weight cfg)); [| constructor].
    apply Forall_bindW; [repeat constructor; now apply Hid
                        | intros; constructor].
Qed.

Lemma update_if_trace (Q : event -> Prop) c m x :
  (forall v, Q (EMeterUpdate m v)) -> Forall Q (snd (update_if c m x)).
Proof.
  intros H. unfold update_if. destruct c; [| constructor].
  apply Forall_bindW; [constructor |]. intros v _. repeat constructor.
  apply H.
Qed.

Lemma step_log_trace (Q : event -> Prop) outs locs :
  (forall m v, Q (EMeterUpdate m v)) ->
  Forall Q (snd (step_log cfg outs locs)).
Proof.
  intros H. unfold step_log.
  apply Forall_bindW; [constructor |]. intros o _.
  apply Forall_bindW; [constructor |]. intros g_prec _.
  apply Forall_bindW; [constructor |]. intros g_m _.
  apply Forall_bindW; [repeat constructor; apply H |]. intros _ _.
  apply Forall_bindW; [constructor |]. intros t _.
  apply Forall_bindW; [now apply update_if_trace |]. intros _ _.
  apply Forall_bindW.
  { unfold local_log. destruct (Qgt0 (l_loss_weight cfg)); [| constructor].
    apply Forall_bindW; [constructor |]. intros d _.
    apply Forall_bindW; [constructor |]. intros l_prec _.
    apply Forall_bindW; [constructor |]. intros l_m _.
    apply Forall_bindW; [repeat constructor; apply H |]. intros _ _.
    now apply update_if_trace. }
  intros _ _.
  apply Forall_bindW; [now apply update_if_trace |]. intros _ _.
  apply Forall_bindW; [now apply update_if_trace |]. intros _ _.
  apply Forall_bindW; [now apply update_if_trace |]. intros _ _.
  apply Forall_bindW; [now apply update_if_trace |]. intros _ _.
  now apply update_if_trace.
Qed.

Lemma first_outs_res TVTs outs :
  fst (for_eachW (model_pass E cfg ims labels ens)
                 (combine (seq 0 (num_models cfg)) TVTs)) = inr outs ->
  outs = first_outs TVTs.
Proof. intros H. unfold first_outs. now rewrite H. Qed.

(** Every event of a step is of a kind the configuration allows. *)
Lemma train_step_trace (Q : event -> Prop) TVTs :
  (forall i, Q (EForward i)) -> (forall i, Q (EGlobalLoss i)) ->
  (Qis0 (l_loss_weight cfg) = false -> forall i b, Q (ELocalLoss i b)) ->
  (Qgt0 (id_loss_weight cfg) = true -> forall i, Q (EIdCriterion i)) ->
  (pm_on cfg = true -> forall i j, j <> i -> Q (EKlDiv i j)) ->
  (gdm_on cfg = true -> forall i j, j <> i -> Q (EGdmTerm i j)) ->
  (ldm_on cfg = true -> forall i j, j <> i -> Q (ELdmTerm i j)) ->
  (forall i tvt t,
     fst (model_losses E cfg (py_len ims) (first_outs TVTs) i (out_of i) tvt)
     = inr t -> Q (ECompose i t)) ->
  (forall i, Q (EZeroGrad i)) -> (forall i, Q (EBackward i)) ->
  (forall i, Q (EOptStep i)) -> (forall m v, Q (EMeterUpdate m v)) ->
  Forall Q (tr (train_step E cfg TVTs ims labels ens)).
Proof.
  intros Hf Hg Hl Hid Hpm Hgdm Hldm Hc Hz Hb Ho Hm. unfold train_step.
  apply Forall_bindM; [constructor |]. intros ms Hms.
  injection Hms as <-. cbn [get_ensemble st].
  apply Forall_bindM.
  { cbn [liftW tr]. apply Forall_for_eachW. intros it _.
    apply model_pass_trace; auto. }
  intros outs Houts. cbn [liftW res st] in *.
  apply first_outs_res in Houts. subst outs.
  apply Forall_bindM.
  { apply Forall_for_eachM. intros it ms Hit.
    rewrite update_items_eq in Hit. apply in_map_iff in Hit.
    destruct Hit as (k & <- & _).
    apply model_update_trace; auto.
    apply model_losses_trace; auto.
    intros t Ht. exact (Hc _ _ _ Ht). }
  intros locs _.
  apply Forall_bindM.
  { apply Forall_for_eachM. intros k ms _. repeat constructor. apply Ho. }
  intros _ _.
  apply Forall_bindM; [| intros; constructor].
  cbn [liftW tr]. now apply step_log_trace.
Qed.

(* ================================================================== *)
(** * The step log of a well-formed step *)

Lemma gt_mean_ok a b :
  shape (data a) = shape (data b) -> gt_mean a b = inr (frac_gt a b).
Proof.
  intros H. unfold frac_gt, gt_mean, t_zip.
  rewrite H, shape_eqb_refl. reflexivity.
Qed.

Lemma update_if_ok c m x :
  (c = true -> is_loss x /\ is_var x) ->
  update_if c m x
  = (inr tt, if c then [EMeterUpdate m (py_value x)] else []).
Proof.
  intros H. unfold update_if. destruct c; [| reflexivity].
  destruct (H eq_refl) as [Hl Hv].
  rewrite (bindW_inr _ _ (py_value x))
    by (cbn [liftR fst]; now apply to_scalar_loss).
  reflexivity.
Qed.

Lemma Qgt0_not_is0 w : Qgt0 w = true -> Qis0 w = false.
Proof.
  unfold Qgt0, Qis0. intros H. apply negb_true_iff in H.
  destruct (Qeq_bool w 0) eqn:He; [| reflexivity].
  apply Qeq_bool_eq in He.
  assert (Hle : Qle_bool w 0 = true)
    by (apply Qle_bool_iff; rewrite He; apply Qle_refl).
  congruence.
Qed.

Lemma local_log_ok TVTs i :
  step_wf TVTs = true -> i < num_models cfg ->
  local_log cfg (out_of i) (locals_of TVTs i)
  = (inr tt, map meter_event (l_log_of (out_of i) (locals_of TVTs i))).
Proof.
  intros Hwf Hi. destruct (step_wf_spec _ Hwf) as (_ & _ & Hout).
  destruct (out_wf_spec _ _ (Hout i Hi)) as (_ & Sl & _).
  destruct (locals_of_good TVTs i Hwf Hi) as (_ & G).
  destruct G as (_ & El & _).
  unfold local_log, l_log_of.
  destruct (Qgt0 (l_loss_weight cfg)) eqn:Hl; [| reflexivity].
  destruct (Sl eq_refl) as (d & Hd & Sd). rewrite Hd. cbn [from_option].
  rewrite (bindW_inr _ _ d) by reflexivity.
  rewrite (gt_mean_ok _ _ Sd).
  rewrite (bindW_inr _ _ (frac_gt (snd d) (fst d))) by reflexivity.
  rewrite (gt_mean_ok (snd d) (var_map _ _)) by exact Sd.
  rewrite (bindW_inr _ _ (frac_gt (snd d)
                            (var_map (fun e => (e + local_margin cfg)%Q)
                                     (fst d)))) by reflexivity.
  rewrite (bindW_inr _ _ tt) by reflexivity.
  rewrite (update_if_ok true l_loss_meter)
    by (intros _; rewrite El; split;
        [apply out_of_l_loss
        | apply out_of_l_loss; now apply Qgt0_not_is0]).
  reflexivity.
Qed.

Lemma step_log_ok TVTs :
  step_wf TVTs = true ->
  step_log cfg (first_outs TVTs)
           (map (locals_of TVTs) (seq 0 (num_models cfg)))
  = (inr tt,
     map meter_event
         (log_of (out_of (num_models cfg - 1))
                 (locals_of TVTs (num_models cfg - 1)))).
Proof.
  intros Hwf. destruct (step_wf_spec _ Hwf) as (HT & HM & Hout).
  set (k := num_models cfg - 1). assert (Hk : k < num_models cfg) by lia.
  destruct (out_wf_spec _ _ (Hout k Hk)) as (Sg & _).
  destruct (locals_of_good TVTs k Hwf Hk) as (_ & G).
  destruct G as (Eg & El & Eid & (Lpm & Lgdm & Lldm) & Hpm & Hgdm & Hldm
                 & Lloss & Vloss & _).
  unfold step_log, log_of.
  rewrite first_outs_eq, HT, Nat.min_id, !last_opt_map_seq by exact HM.
  fold k. cbn [from_option].
  rewrite (bindW_inr _ _ (out_of k)) by reflexivity.
  rewrite (gt_mean_ok _ _ Sg).
  rewrite (bindW_inr _ _ (frac_gt (o_g_dist_an (out_of k))
                                  (o_g_dist_ap (out_of k)))) by reflexivity.
  rewrite (gt_mean_ok (o_g_dist_an (out_of k)) (var_map _ _)) by exact Sg.
  rewrite (bindW_inr _ _ (frac_gt (o_g_dist_an (out_of k))
                            (var_map (fun e => (e + global_margin cfg)%Q)
                                     (o_g_dist_ap (out_of k)))))
    by reflexivity.
  rewrite (bindW_inr _ _ tt) by reflexivity.
  rewrite (bindW_inr _ _ (locals_of TVTs k)) by reflexivity.
  rewrite (update_if_ok true g_loss_meter (PyVar (s_g_loss (locals_of TVTs k))))
    by (intros _; rewrite Eg; split; [apply is_loss_var | exact I]).
  rewrite (bindW_inr _ _ tt) by reflexivity.
  rewrite (local_log_ok TVTs k Hwf Hk).
  rewrite (bindW_inr _ _ tt) by reflexivity.
  rewrite (update_if_ok (Qgt0 (id_loss_weight cfg)) id_loss_meter)
    by (intros H; rewrite Eid; split;
        [apply out_of_id_loss | now apply out_of_id_loss]).
  rewrite (bindW_inr _ _ tt) by reflexivity.
  rewrite (update_if_ok (pm_on cfg) pm_loss_meter)
    by (intros H; rewrite H in Hpm; split; [exact Lpm | apply Hpm]).
  rewrite (bindW_inr _ _ tt) by reflexivity.
  rewrite (update_if_ok (gdm_on cfg) gdm_loss_meter)
    by (intros H; rewrite H in Hgdm; split; [exact Lgdm | apply Hgdm]).
  rewrite (bindW_inr _ _ tt) by reflexivity.
  rewrite (update_if_ok (ldm_on cfg) ldm_loss_meter)
    by (intros H; rewrite H in Hldm; split; [exact Lldm | apply Hldm]).
  rewrite (bindW_inr _ _ tt) by reflexivity.
  rewrite (update_if_ok true loss_meter) by (intros _; now split).
  cbn [liftR tell fst snd app map]. rewrite !map_app.
  destruct (Qgt0 (id_loss_weight cfg)), (pm_on cfg), (gdm_on cfg),
    (ldm_on cfg); reflexivity.
Qed.

(* ================================================================== *)
(** * A well-formed step runs to its end *)

Lemma first_outs_fst TVTs :
  fst (for_eachW (model_pass E cfg ims labels ens)
                 (combine (seq 0 (num_models cfg)) TVTs))
  = inr (first_outs TVTs).
Proof.
  unfold first_outs.
  rewrite (for_eachW_map _ (fun it => out_of (fst it)))
    by (intros; apply model_pass_out).
  reflexivity.
Qed.

Lemma train_step_ok TVTs :
  step_wf TVTs = true ->
  train_step E cfg TVTs ims labels ens
  = mkOutcome (inr (first_outs TVTs,
                    map (locals_of TVTs) (seq 0 (num_models cfg))))
              (after_step TVTs) (step_events TVTs).
Proof.
  intros Hwf. unfold train_step.
  rewrite (bindM_inr _ _ _ ens) by reflexivity. cbn [get_ensemble st tr].
  rewrite (bindM_inr _ _ _ (first_outs TVTs))
    by (cbn [liftW res]; apply first_outs_fst).
  cbn [liftW st tr].
  rewrite (bindM_inr _ _ _ (map (locals_of TVTs) (seq 0 (num_models cfg))))
    by (now rewrite second_loop_ok).
  rewrite second_loop_ok by exact Hwf. cbn [st tr].
  rewrite (bindM_inr _ _ _ (map (fun _ => tt) (seq 0 (num_models cfg))))
    by (now rewrite optimizer_loop_ok).
  rewrite optimizer_loop_ok. cbn [st tr].
  rewrite (bindM_inr _ _ _ tt)
    by (cbn [liftW res]; now rewrite step_log_ok).
  cbn [liftW st tr retM res]. rewrite step_log_ok by exact Hwf.
  cbn [snd app]. rewrite !app_nil_r. reflexivity.
Qed.

(* ================================================================== *)
(** * Gradient isolation *)

Lemma composed_weaken (P Q : nat -> step_locals -> Prop) l :
  (forall i t, P i t -> Q i t) -> composed P l -> composed Q l.
Proof.
  intros H. unfold composed. apply Forall_impl. intros [] ; auto.
Qed.

Lemma model_losses_composed (P : nat -> step_locals -> Prop)
    n outs i o tvt :
  (forall t, fst (model_losses E cfg n outs i o tvt) = inr t -> P i t) ->
  composed P (snd (model_losses E cfg n outs i o tvt)).
Proof.
  intros H. unfold composed. apply model_losses_trace; auto.
Qed.

Lemma model_update_composed (P : nat -> step_locals -> Prop)
    n outs i o opt tvt ms :
  (forall t, fst (model_losses E cfg n outs i o tvt) = inr t -> P i t) ->
  composed P (tr (model_update E cfg n outs (i, (o, (opt, tvt))) ms)).
Proof.
  intros H. unfold composed. apply model_update_trace; auto.
  now apply model_losses_composed.
Qed.

(** The three mutual terms and the total loss of model [i] reach the
    parameters of model [i] only. *)
Lemma mutual_terms_owned n outs i tvt t :
  fst (model_losses E cfg n outs i (out_of i) tvt) = inr t ->
  owned i (s_pm_loss t) /\ owned i (s_gdm_loss t) /\ owned i (s_ldm_loss t)
  /\ owned i (s_loss t).
Proof.
  intros H. pose proof (out_of_owned _ _ _ _ _ H) as Hloss.
  apply model_losses_inv in H.
  destruct H as (pm & gdm & ldm & loss & Epm & Egdm & Eldm & Eloss & ->).
  simpl in *. repeat split; auto.
  - exact (pm_block_owned _ _ _ _ _ _ _ (owned_var i _) Epm).
  - exact (gdm_block_owned _ _ _ _ _ _ _ (owned_var i _) Egdm).
  - refine (ldm_block_owned _ _ _ _ _ _ _ _ Eldm). apply out_of_l_dist_mat.
Qed.

(** ** The ensemble at the end of a well-formed step *)

Lemma py_add_leaves x y z :
  py_add x y = inr z -> incl (py_leaves x) (py_leaves z).
Proof.
  destruct x as [a | u], y as [b | v]; simpl; intros H.
  - injection H as <-. intros k [].
  - injection H as <-. intros k [].
  - injection H as <-. intros k Hk. exact Hk.
  - unfold var_zip, t_zip in H. destruct (shape_eqb _ _); simpl in H;
      [| discriminate].
    injection H as <-. intros k Hk. simpl. apply in_or_app. now left.
Qed.

Lemma compose_loss_leaves g l id pm gdm ldm z :
  compose_loss cfg g l id pm gdm ldm = inr z ->
  incl (leaves g) (py_leaves z).
Proof.
  unfold compose_loss. intros H.
  destruct (py_add _ _) as [| s1] eqn:E1 in H; simpl in H; [discriminate |].
  destruct (py_add s1 _) as [| s2] eqn:E2 in H; simpl in H; [discriminate |].
  destruct (py_add s2 _) as [| s3] eqn:E3 in H; simpl in H; [discriminate |].
  destruct (py_add s3 _) as [| s4] eqn:E4 in H; simpl in H; [discriminate |].
  intros k Hk.
  apply (py_add_leaves _ _ _ H), (py_add_leaves _ _ _ E4),
    (py_add_leaves _ _ _ E3), (py_add_leaves _ _ _ E2),
    (py_add_leaves _ _ _ E1).
  exact Hk.
Qed.

Lemma loss_var_leaves TVTs i :
  step_wf TVTs = true -> i < num_models cfg ->
  forall k, existsb (Nat.eqb k) (leaves (loss_var (locals_of TVTs i)))
            = (k =? i).
Proof.
  intros Hwf Hi k.
  destruct (locals_of_good TVTs i Hwf Hi) as (Ht & _).
  pose proof (out_of_owned _ _ _ _ _ Ht) as Ho.
  pose proof (locals_of_loss TVTs i Hwf Hi) as Hv.
  rewrite Hv in Ho.
  destruct (Nat.eq_dec k i) as [-> | Hk].
  - rewrite Nat.eqb_refl. apply existsb_exists. exists i.
    split; [| apply Nat.eqb_refl].
    apply model_losses_inv in Ht.
    destruct Ht as (pm & gdm & ldm & loss & _ & _ & _ & Eloss & Et).
    apply compose_loss_leaves in Eloss.
    assert (Hloss : s_loss (locals_of TVTs i) = loss) by now rewrite Et.
    rewrite Hv in Hloss. rewrite <- Hloss in Eloss.
    apply Eloss. left. reflexivity.
  - rewrite (existsb_owned _ _ _ Ho Hk). symmetry. now apply Nat.eqb_neq.
Qed.

Lemma updated_at TVTs ms i k :
  step_wf TVTs = true -> i < num_models cfg ->
  updated TVTs ms i k
  = if k =? i
    then mkModel (params (ms k))
                 [GradOf (data (loss_var (locals_of TVTs i)))]
                 (adam_state (ms k))
    else ms k.
Proof.
  intros Hwf Hi. unfold updated, accumulated, zeroed.
  rewrite (loss_var_leaves TVTs i Hwf Hi k).
  destruct (k =? i); reflexivity.
Qed.

Lemma fold_updated TVTs k :
  step_wf TVTs = true ->
  forall n s ms, s + n <= num_models cfg ->
    fold_left (updated TVTs) (seq s n) ms k
    = if (s <=? k) && (k <? s + n)
      then mkModel (params (ms k))
                   [GradOf (data (loss_var (locals_of TVTs k)))]
                   (adam_state (ms k))
      else ms k.
Proof.
  intros Hwf. induction n as [| n IH]; intros s ms Hn.
  - simpl. replace (k <? s + 0) with (negb (s <=? k)).
    + now destruct (s <=? k).
    + rewrite Nat.add_0_r, Nat.ltb_antisym. reflexivity.
  - cbn [seq fold_left]. rewrite IH by lia.
    rewrite (updated_at TVTs ms s k Hwf) by lia.
    destruct (Nat.eq_dec k s) as [-> | Hk].
    + rewrite Nat.eqb_refl.
      replace (S s <=? s) with false by (symmetry; apply Nat.leb_gt; lia).
      replace (s <=? s) with true by (symmetry; apply Nat.leb_le; lia).
      replace (s <? s + S n) with true by (symmetry; apply Nat.ltb_lt; lia).
      reflexivity.
    + replace (k =? s) with false by (symmetry; now apply Nat.eqb_neq).
      destruct (Nat.le_gt_cases (S s) k) as [Hle | Hgt].
      * replace (S s <=? k) with true by (symmetry; apply Nat.leb_le; lia).
        replace (s <=? k) with true by (symmetry; apply Nat.leb_le; lia).
        replace (k <? S s + n) with (k <? s + S n)
          by (f_equal; lia).
        reflexivity.
      * replace (S s <=? k) with false by (symmetry; apply Nat.leb_gt; lia).
        replace (s <=? k) with false by (symmetry; apply Nat.leb_gt; lia).
        reflexivity.
Qed.

Lemma fold_stepped k : forall n s ms,
  fold_left (fun m j => stepped E j m) (seq s n) ms k
  = if (s <=? k) && (k <? s + n)
    then let r := adam_step E (params (ms k)) (grads (ms k))
                            (adam_state (ms k)) in
         mkModel (fst r) (grads (ms k)) (snd r)
    else ms k.
Proof.
  induction n as [| n IH]; intros s ms.
  - simpl. replace (k <? s + 0) with (negb (s <=? k)).
    + now destruct (s <=? k).
    + rewrite Nat.add_0_r, Nat.ltb_antisym. reflexivity.
  - cbn [seq fold_left]. rewrite IH.
    destruct (Nat.eq_dec k s) as [-> | Hk].
    + replace (S s <=? s) with false by (symmetry; apply Nat.leb_gt; lia).
      replace (s <=? s) with true by (symmetry; apply Nat.leb_le; lia).
      replace (s <? s + S n) with true by (symmetry; apply Nat.ltb_lt; lia).
      unfold stepped. rewrite Nat.eqb_refl. reflexivity.
    + assert (Hst : stepped E s ms k = ms k).
      { unfold stepped.
        replace (k =? s) with false by (symmetry; now apply Nat.eqb_neq).
        reflexivity. }
      rewrite !Hst.
      destruct (Nat.le_gt_cases (S s) k) as [Hle | Hgt].
      * replace (S s <=? k) with true by (symmetry; apply Nat.leb_le; lia).
        replace (s <=? k) with true by (symmetry; apply Nat.leb_le; lia).
        replace (k <? S s + n) with (k <? s + S n)
          by (f_equal; lia).
        reflexivity.
      * replace (S s <=? k) with false by (symmetry; apply Nat.leb_gt; lia).
        replace (s <=? k) with false by (symmetry; apply Nat.leb_gt; lia).
        reflexivity.
Qed.

(** At the end of a well-formed step every model has been updated from the
    gradient of its own total loss, and from nothing else. *)
Lemma after_step_model TVTs k :
  step_wf TVTs = true -> k < num_models cfg ->
  st (train_step E cfg TVTs ims labels ens) k = own_update TVTs k.
Proof.
  intros Hwf Hk. rewrite (train_step_ok TVTs Hwf). cbn [st].
  unfold after_step, after_backward.
  rewrite fold_stepped, (fold_updated TVTs k Hwf) by lia.
  replace (0 <=? k) with true by (symmetry; apply Nat.leb_le; lia).
  replace (k <? 0 + num_models cfg) with true
    by (symmetry; apply Nat.ltb_lt; lia).
  reflexivity.
Qed.

(** C1.  In every iteration of the mutual-learning loop, for model [i]: the
    three mutual terms and the total loss that is composed reach the
    parameters of model [i] only, the outputs of every peer being read
    through [detach]; and zeroing the gradients and running the backward
    pass of model [i] leaves every other model [j], its parameters, its
    accumulated gradients and its optimizer state, as it was.  At the end
    of a well-formed step, every model has been updated from the gradient of
    its own total loss alone. *)
Theorem mutual_loss_gradient_isolation TVTs :
  (forall it ms,
     In it (update_items cfg TVTs (first_outs TVTs)) ->
     (forall j, j <> fst it ->
        st (model_update E cfg (py_len ims) (first_outs TVTs) it ms) j
        = ms j)
     /\ composed (fun i t =>
                    owned i (s_pm_loss t) /\ owned i (s_gdm_loss t)
                    /\ owned i (s_ldm_loss t) /\ owned i (s_loss t))
                 (tr (model_update E cfg (py_len ims) (first_outs TVTs)
                                   it ms)))
  /\ (step_wf TVTs = true ->
      forall k, k < num_models cfg ->
        st (train_step E cfg TVTs ims labels ens) k = own_update TVTs k).
Proof.
  split.
  - intros it ms Hit. rewrite update_items_eq in Hit.
    apply in_map_iff in Hit. destruct Hit as (k & <- & _). cbn [fst]. split.
    + intros j Hj. now apply model_update_frame.
    + apply model_update_composed. intros t Ht.
      exact (mutual_terms_owned _ _ _ _ _ Ht).
  - intros Hwf k Hk. now apply after_step_model.
Qed.

(* ================================================================== *)
(** * The order of the gradient phase and the update phase *)

Lemma phases_app l1 l2 : phases (l1 ++ l2) = phases l1 ++ phases l2.
Proof. apply flat_map_app. Qed.

Lemma phases_nil l :
  Forall (fun e => phase_of e = []) l -> phases l = [].
Proof.
  induction 1 as [| e l He _ IH]; [reflexivity |].
  unfold phases in *. simpl. now rewrite He, IH.
Qed.

Lemma phases_flat_map {A} (f : A -> list event) l :
  phases (flat_map f l) = flat_map (fun x => phases (f x)) l.
Proof.
  induction l as [| x l IH]; [reflexivity |].
  simpl. now rewrite phases_app, IH.
Qed.

Lemma flat_map_ext_in {A B} (f g : A -> list B) l :
  (forall x, In x l -> f x = g x) -> flat_map f l = flat_map g l.
Proof.
  induction l as [| x l IH]; intros H; [reflexivity |].
  simpl. rewrite (H x (or_introl eq_refl)), IH; auto.
  intros; apply H; now right.
Qed.

(** The first loop is a sequence of calls on the models; nothing in it
    belongs to the gradient or the update phase. *)
Lemma first_events_phases TVTs : phases (first_events TVTs) = [].
Proof.
  apply phases_nil. unfold first_events. apply Forall_for_eachW.
  intros it _. apply model_pass_trace; reflexivity.
Qed.

Lemma block_phases_nil n outs i tvt lp g l :
  phases (snd (pm_loss_block E cfg i tvt n outs lp)) = []
  /\ phases (snd (gdm_loss_block cfg i tvt n outs g)) = []
  /\ phases (snd (ldm_loss_block cfg i tvt n outs l)) = [].
Proof.
  repeat split; apply phases_nil.
  - apply pm_block_trace. reflexivity.
  - apply gdm_block_trace. reflexivity.
  - apply ldm_block_trace. reflexivity.
Qed.

(** The losses of one model: one composition when they are all computed,
    none when a block raises. *)
Lemma model_losses_phases n outs i o tvt :
  phases (snd (model_losses E cfg n outs i o tvt))
  = match fst (model_losses E cfg n outs i o tvt) with
    | inr _ => [PCompose i]
    | inl _ => []
    end.
Proof.
  destruct (block_phases_nil n outs i tvt (o_log_probs o) (o_g_dist_mat o)
                             (o_l_dist_mat o)) as (Ppm & Pgdm & Pldm).
  unfold model_losses.
  destruct (fst (pm_loss_block E cfg i tvt n outs (o_log_probs o)))
    as [e | pm] eqn:Epm;
    [rewrite (bindW_inl _ _ e Epm); exact Ppm |].
  rewrite (bindW_inr _ _ pm Epm). cbn [fst snd].
  destruct (fst (gdm_loss_block cfg i tvt n outs (o_g_dist_mat o)))
    as [e | gdm] eqn:Egdm;
    [rewrite (bindW_inl _ _ e Egdm); cbn [fst snd];
     now rewrite phases_app, Ppm, Pgdm |].
  rewrite (bindW_inr _ _ gdm Egdm). cbn [fst snd].
  destruct (fst (ldm_loss_block cfg i tvt n outs (o_l_dist_mat o)))
    as [e | ldm] eqn:Eldm;
    [rewrite (bindW_inl _ _ e Eldm); cbn [fst snd];
     now rewrite !phases_app, Ppm, Pgdm, Pldm |].
  rewrite (bindW_inr _ _ ldm Eldm). cbn [fst snd].
  destruct (compose_loss cfg (o_g_loss o) (o_l_loss o) (o_id_loss o)
                         pm gdm ldm) as [e | loss] eqn:Eloss.
  - rewrite (bindW_inl _ _ e) by reflexivity. cbn [fst snd liftR].
    now rewrite !phases_app, Ppm, Pgdm, Pldm.
  - rewrite (bindW_inr _ _ loss) by reflexivity. cbn [fst snd liftR].
    rewrite (bindW_inr _ _ tt) by reflexivity. cbn [fst snd tell retW].
    now rewrite !phases_app, Ppm, Pgdm, Pldm.
Qed.

Lemma update_events_phases TVTs i :
  step_wf TVTs = true -> i < num_models cfg ->
  phases (update_events TVTs i) = [PCompose i; PZeroGrad i; PBackward i].
Proof.
  intros Hwf Hi. unfold update_events.
  rewrite phases_app, model_losses_phases.
  destruct (locals_of_good TVTs i Hwf Hi) as (-> & _). reflexivity.
Qed.

Lemma log_phases l : phases (map meter_event l) = [].
Proof. apply phases_nil, Forall_map, Forall_forall. reflexivity. Qed.

Lemma phases_Forall (P : phase -> Prop) l :
  Forall (fun e => Forall P (phase_of e)) l -> Forall P (phases l).
Proof.
  induction 1 as [| e l He _ IH]; [constructor |].
  unfold phases in *. simpl. apply Forall_app. auto.
Qed.

(** In every step, whatever its outcome, the events of the gradient phase
    all come before those of the update phase. *)
Lemma train_step_ordered TVTs :
  exists pre post,
    phases (tr (train_step E cfg TVTs ims labels ens)) = pre ++ post
    /\ Forall (fun p => is_opt_phase p = false) pre
    /\ Forall (fun p => is_opt_phase p = true) post.
Proof.
  unfold train_step.
  rewrite (bindM_inr _ _ _ ens) by reflexivity. cbn [get_ensemble st tr app].
  rewrite (bindM_inr _ _ _ (first_outs TVTs))
    by (cbn [liftW res]; apply first_outs_fst).
  cbn [liftW st tr]. fold (first_events TVTs).
  set (second := for_eachM (model_update E cfg (py_len ims) (first_outs TVTs))
                           (update_items cfg TVTs (first_outs TVTs)) ens).
  assert (Hsecond : Forall (fun p => is_opt_phase p = false)
                           (phases (tr second))).
  { apply phases_Forall. apply Forall_for_eachM. intros it ms Hit.
    rewrite update_items_eq in Hit. apply in_map_iff in Hit.
    destruct Hit as (k & <- & _).
    apply model_update_trace;
      [| apply Forall_cons; [reflexivity | apply Forall_nil] ..].
    apply model_losses_trace; intros;
      first [apply Forall_nil
            | apply Forall_cons; [reflexivity | apply Forall_nil]]. }
  destruct (res second) as [e | locs] eqn:Hres.
  - rewrite (bindM_inl _ _ _ e) by exact Hres. cbn [tr].
    exists (phases (tr second)), [].
    now rewrite phases_app, first_events_phases, app_nil_r.
  - rewrite (bindM_inr _ _ _ locs) by exact Hres. cbn [tr].
    rewrite (bindM_inr _ _ _ (map (fun _ => tt) (seq 0 (num_models cfg))))
      by (now rewrite optimizer_loop_ok).
    rewrite optimizer_loop_ok. cbn [st tr].
    exists (phases (tr second)),
           (map POptStep (seq 0 (num_models cfg))).
    split; [| split; [exact Hsecond |]].
    + assert (Hlog : forall ms,
                phases (tr (bindM (liftW (step_log cfg (first_outs TVTs) locs))
                                  (fun _ => retM (first_outs TVTs, locs)) ms))
                = []).
      { intros ms. apply phases_nil.
        apply Forall_bindM; [| intros; constructor].
        cbn [liftW tr]. apply step_log_trace. reflexivity. }
      rewrite !phases_app, first_events_phases, Hlog, app_nil_r.
      cbn [app]. f_equal.
      rewrite phases_flat_map. generalize (seq 0 (num_models cfg)).
      induction l as [| k l IH]; [reflexivity |].
      cbn [flat_map map]. rewrite IH. reflexivity.
    + apply Forall_map, Forall_forall. reflexivity.
Qed.

(** C2.  In every step the events of the gradient phase (a total loss is
    composed, gradients are zeroed, a backward pass is run) all come before
    those of the update phase (an optimizer is stepped).  In a well-formed
    step every model's total loss is composed, its gradients are zeroed and
    its backward pass is run, model after model, and only then are the
    optimizers stepped, each exactly once: these are all the events of the
    two phases, in this order. *)
Theorem gradients_then_optimizer_steps TVTs :
  (exists pre post,
     phases (tr (train_step E cfg TVTs ims labels ens)) = pre ++ post
     /\ Forall (fun p => is_opt_phase p = false) pre
     /\ Forall (fun p => is_opt_phase p = true) post)
  /\ (step_wf TVTs = true ->
      (exists r, res (train_step E cfg TVTs ims labels ens) = inr r)
      /\ phases (tr (train_step E cfg TVTs ims labels ens))
         = flat_map (fun i => [PCompose i; PZeroGrad i; PBackward i])
                    (seq 0 (num_models cfg))
           ++ map POptStep (seq 0 (num_models cfg))).
Proof.
  split; [apply train_step_ordered |].
  intros Hwf. rewrite (train_step_ok TVTs Hwf). cbn [res tr].
  split; [now eexists |].
  unfold step_events.
  rewrite !phases_app, first_events_phases, log_phases, app_nil_r.
  cbn [app]. f_equal.
  - rewrite phases_flat_map. apply flat_map_ext_in.
    intros i Hi. apply in_seq in Hi. apply update_events_phases; [easy | lia].
  - rewrite phases_flat_map. generalize (seq 0 (num_models cfg)).
    induction l as [| k l IH]; [reflexivity |].
    cbn [flat_map map]. rewrite IH. reflexivity.
Qed.

(* ================================================================== *)
(** * Terms that are switched off *)

Lemma Qis0_not_gt0 w : Qis0 w = true -> Qgt0 w = false.
Proof.
  intros H. destruct (Qgt0 w) eqn:Hg; [| reflexivity].
  apply Qgt0_not_is0 in Hg. congruence.
Qed.

Lemma pm_off_when :
  Qis0 (pm_loss_weight cfg) = true \/ num_models cfg <= 1 ->
  pm_on cfg = false.
Proof.
  unfold pm_on. intros [H | H].
  - rewrite (Qis0_not_gt0 _ H). apply andb_false_r.
  - apply Nat.ltb_ge in H. now rewrite H.
Qed.

Lemma gdm_off_when :
  Qis0 (gdm_loss_weight cfg) = true \/ num_models cfg <= 1 ->
  gdm_on cfg = false.
Proof.
  unfold gdm_on. intros [H | H].
  - rewrite (Qis0_not_gt0 _ H). apply andb_false_r.
  - apply Nat.ltb_ge in H. now rewrite H.
Qed.

Lemma ldm_off_when :
  Qis0 (ldm_loss_weight cfg) = true \/ num_models cfg <= 1
  \/ local_dist_own_hard_sample cfg = false ->
  ldm_on cfg = false.
Proof.
  unfold ldm_on. intros [H | [H | H]].
  - rewrite (Qis0_not_gt0 _ H). apply andb_false_r.
  - apply Nat.ltb_ge in H. now rewrite H.
  - rewrite H. now rewrite andb_false_r.
Qed.

Lemma ldm_on_spec :
  ldm_on cfg = true ->
  2 <= num_models cfg /\ local_dist_own_hard_sample cfg = true
  /\ Qgt0 (ldm_loss_weight cfg) = true.
Proof.
  unfold ldm_on. intros H. apply andb_prop in H. destruct H as [H H3].
  apply andb_prop in H. destruct H as [H1 H2]. apply Nat.ltb_lt in H1. auto.
Qed.

Ltac absent_by_kind :=
  unfold absent; apply train_step_trace;
  intros; first [reflexivity | congruence].

Lemma local_loss_absent TVTs :
  Qis0 (l_loss_weight cfg) = true ->
  absent is_local_loss (tr (train_step E cfg TVTs ims labels ens)).
Proof. intros H. absent_by_kind. Qed.

Lemma id_criterion_absent TVTs :
  Qgt0 (id_loss_weight cfg) = false ->
  absent is_id_criterion (tr (train_step E cfg TVTs ims labels ens)).
Proof. intros H. absent_by_kind. Qed.

Lemma kl_div_absent TVTs :
  pm_on cfg = false ->
  absent is_kl_div (tr (train_step E cfg TVTs ims labels ens)).
Proof. intros H. absent_by_kind. Qed.

Lemma gdm_term_absent TVTs :
  gdm_on cfg = false ->
  absent is_gdm_term (tr (train_step E cfg TVTs ims labels ens)).
Proof. intros H. absent_by_kind. Qed.

Lemma ldm_term_absent TVTs :
  ldm_on cfg = false ->
  absent is_ldm_term (tr (train_step E cfg TVTs ims labels ens)).
Proof. intros H. absent_by_kind. Qed.

(** Every total loss composed in a step satisfies what the losses of a
    model satisfy whenever they are all computed. *)
Lemma train_step_composed (P : nat -> step_locals -> Prop) TVTs :
  (forall i tvt t,
     fst (model_losses E cfg (py_len ims) (first_outs TVTs) i (out_of i) tvt)
     = inr t -> P i t) ->
  composed P (tr (train_step E cfg TVTs ims labels ens)).
Proof.
  intros H. unfold composed. apply train_step_trace; intros; auto.
  exact (H _ _ _ H0).
Qed.

(** ** The events of the first loop *)

Lemma for_eachW_events {A B} (body : A -> W B) (g : A -> B) l :
  (forall x, In x l -> fst (body x) = inr (g x)) ->
  snd (for_eachW body l) = flat_map (fun x => snd (body x)) l.
Proof.
  induction l as [| x l IH]; intros H; [reflexivity |].
  cbn [for_eachW flat_map].
  rewrite (bindW_inr _ _ _ (H x (or_introl eq_refl))). cbn [snd].
  rewrite (bindW_inr _ _ (map g l))
    by (apply for_eachW_map; intros; apply H; now right).
  cbn [snd retW]. rewrite app_nil_r, IH; auto.
  intros; apply H; now right.
Qed.

Lemma global_loss_called TVTs i :
  i < Nat.min (num_models cfg) (length TVTs) ->
  In (EGlobalLoss i) (first_events TVTs).
Proof.
  intros Hi. unfold first_events.
  rewrite (for_eachW_events _ (fun it => out_of (fst it)))
    by (intros; apply model_pass_out).
  apply in_flat_map. exists (i, nth i TVTs 0). split.
  - rewrite (combine_seq 0). apply in_map_iff. exists i.
    rewrite Nat.sub_0_r. split; [reflexivity | apply in_seq; lia].
  - unfold model_pass. cbn [fst].
    rewrite (bindW_inr _ _ tt) by reflexivity. cbn [snd tell].
    rewrite (bindW_inr _ _ tt) by reflexivity. cbn [snd tell].
    right. left. reflexivity.
Qed.

Lemma train_step_first_events TVTs :
  exists rest,
    tr (train_step E cfg TVTs ims labels ens) = first_events TVTs ++ rest.
Proof.
  unfold train_step.
  rewrite (bindM_inr _ _ _ ens) by reflexivity. cbn [get_ensemble st tr app].
  rewrite (bindM_inr _ _ _ (first_outs TVTs))
    by (cbn [liftW res]; apply first_outs_fst).
  cbn [liftW st tr]. now eexists.
Qed.

(** C3, as the code has it.  The local triplet term, the classification
    term and the three mutual terms are not computed when their weight is 0
    or their condition fails: no call of them is made in the step.  The
    global triplet term is computed for every model in every step, whatever
    its weight. *)
Theorem disabled_terms_are_skipped TVTs :
  (Qis0 (l_loss_weight cfg) = true ->
   absent is_local_loss (tr (train_step E cfg TVTs ims labels ens)))
  /\ (Qis0 (id_loss_weight cfg) = true ->
      absent is_id_criterion (tr (train_step E cfg TVTs ims labels ens)))
  /\ (Qis0 (pm_loss_weight cfg) = true \/ num_models cfg <= 1 ->
      absent is_kl_div (tr (train_step E cfg TVTs ims labels ens)))
  /\ (Qis0 (gdm_loss_weight cfg) = true \/ num_models cfg <= 1 ->
      absent is_gdm_term (tr (train_step E cfg TVTs ims labels ens)))
  /\ (Qis0 (ldm_loss_weight cfg) = true \/ num_models cfg <= 1
      \/ local_dist_own_hard_sample cfg = false ->
      absent is_ldm_term (tr (train_step E cfg TVTs ims labels ens)))
  /\ (forall i, i < Nat.min (num_models cfg) (length TVTs) ->
        In (EGlobalLoss i) (tr (train_step E cfg TVTs ims labels ens))).
Proof.
  repeat split.
  - apply local_loss_absent.
  - intros H. apply id_criterion_absent. now apply Qis0_not_gt0.
  - intros H. apply kl_div_absent. now apply pm_off_when.
  - intros H. apply gdm_term_absent. now apply gdm_off_when.
  - intros H. apply ldm_term_absent. now apply ldm_off_when.
  - intros i Hi. destruct (train_step_first_events TVTs) as (rest & ->).
    apply in_or_app. left. now apply global_loss_called.
Qed.

(** C7.  A local-distance mutual term is computed in a step only when there
    are at least two models, the local distance finds its own hard samples
    and the weight of the term is positive.  Otherwise the term of every
    total loss composed is the number 0, and so is its weighted
    contribution. *)
Theorem ldm_only_with_own_hard_samples TVTs :
  ((exists i j,
      In (ELdmTerm i j) (tr (train_step E cfg TVTs ims labels ens))) ->
   2 <= num_models cfg /\ local_dist_own_hard_sample cfg = true
   /\ Qgt0 (ldm_loss_weight cfg) = true)
  /\ (ldm_on cfg = false ->
      composed (fun _ t =>
                  s_ldm_loss t = PyNum 0
                  /\ Qeq (py_value (py_mul_num (s_ldm_loss t)
                                               (ldm_loss_weight cfg))) 0)
               (tr (train_step E cfg TVTs ims labels ens))).
Proof.
  split.
  - intros (i & j & Hin). destruct (ldm_on cfg) eqn:Hon.
    + now apply ldm_on_spec.
    + pose proof (ldm_term_absent TVTs Hon) as Ha.
      unfold absent in Ha. rewrite Forall_forall in Ha.
      specialize (Ha _ Hin). discriminate.
  - intros Hoff. apply train_step_composed. intros i tvt t Ht.
    apply model_losses_inv in Ht.
    destruct Ht as (pm & gdm & ldm & loss & _ & _ & Eldm & _ & ->).
    rewrite ldm_block_off in Eldm by exact Hoff. injection Eldm as <-.
    cbn. split; [reflexivity | ring].
Qed.

(* ================================================================== *)
(** * The values of a well-formed step *)

Lemma Qis0_eq w : Qis0 w = true -> Qeq w 0.
Proof. apply Qeq_bool_eq. Qed.

Lemma locals_nth TVTs i :
  i < num_models cfg ->
  nth_error (map (locals_of TVTs) (seq 0 (num_models cfg))) i
  = Some (locals_of TVTs i).
Proof.
  intros Hi. rewrite nth_error_map, nth_error_nth' with (d := 0)
    by now rewrite length_seq.
  now rewrite seq_nth.
Qed.

(** The total loss of a model is the weighted sum of its enabled terms. *)
Lemma locals_loss_enabled TVTs i :
  step_wf TVTs = true -> i < num_models cfg ->
  Qeq (py_value (s_loss (locals_of TVTs i)))
      (enabled_sum (locals_of TVTs i)).
Proof.
  intros Hwf Hi. destruct (locals_of_good TVTs i Hwf Hi) as (_ & G).
  destruct G as (Eg & El & Eid & _ & Hpm & Hgdm & Hldm & _ & _ & Hv).
  rewrite Hv. unfold weighted_sum, enabled_sum.
  assert (Hl : Qeq (if Qis0 (l_loss_weight cfg) then 0
                    else py_value (s_l_loss (locals_of TVTs i))
                         * l_loss_weight cfg)
                   (py_value (s_l_loss (locals_of TVTs i))
                    * l_loss_weight cfg)).
  { destruct (Qis0 (l_loss_weight cfg)) eqn:H0; [| reflexivity].
    rewrite (Qis0_eq _ H0). ring. }
  assert (Hid : Qeq (if Qgt0 (id_loss_weight cfg)
                     then py_value (s_id_loss (locals_of TVTs i))
                          * id_loss_weight cfg else 0)
                    (py_value (s_id_loss (locals_of TVTs i))
                     * id_loss_weight cfg)).
  { destruct (Qgt0 (id_loss_weight cfg)) eqn:H0; [reflexivity |].
    rewrite Eid. destruct (out_of_id_loss i) as (_ & _ & _ & ->); auto.
    simpl. ring. }
  rewrite Hl, Hid.
  destruct (pm_on cfg); [| rewrite Hpm];
    (destruct (gdm_on cfg); [| rewrite Hgdm]);
    (destruct (ldm_on cfg); [| rewrite Hldm]); simpl; ring.
Qed.

(** A well-formed step with local weight 0 has no local-distance mutual
    term. *)
Lemma wf_local0_ldm_off TVTs :
  step_wf TVTs = true -> Qis0 (l_loss_weight cfg) = true ->
  ldm_on cfg = false.
Proof.
  intros Hwf H0. destruct (ldm_on cfg) eqn:Hon; [| reflexivity].
  destruct (step_wf_spec _ Hwf) as (_ & HM & Hout).
  destruct (out_wf_spec _ _ (Hout 0 HM)) as (_ & _ & _ & Hl).
  destruct (Hl Hon) as (v & Hv & _).
  destruct (out_of_l_dist_mat 0) as (_ & Hz & _).
  rewrite (Hz H0) in Hv. discriminate.
Qed.

(** ** The losses of a model, from the collaborators *)

(** What the first loop appends for model [i], as values of the
    collaborators. *)
Lemma out_of_values i :
  o_g_loss (out_of i) = mkVar (scalar_t (gl_loss (model_global i))) [i]
  /\ o_l_loss (out_of i)
     = (if Qis0 (l_loss_weight cfg) then PyNum 0
        else PyVar (mkVar (scalar_t (ll_loss (model_local i))) [i]))
  /\ o_id_loss (out_of i)
     = (if Qgt0 (id_loss_weight cfg)
        then PyVar (mkVar (scalar_t (model_id_loss i)) [i])
        else PyNum 0)
  /\ o_l_dist_mat (out_of i)
     = (if Qis0 (l_loss_weight cfg) then PyNum 0
        else if local_dist_own_hard_sample cfg
             then PyVar (mkVar (ll_dist_mat (model_local i)) [i])
             else PyNum 0).
Proof.
  unfold out_of, local_of, id_of, local_part, id_part, model_local,
    model_id_loss.
  cbn [o_g_loss o_l_loss o_id_loss o_l_dist_mat].
  destruct (Qis0 (l_loss_weight cfg)), (local_dist_own_hard_sample cfg),
    (Qgt0 (id_loss_weight cfg)); repeat split; reflexivity.
Qed.

Lemma ldm_block_value TVTs i tvt :
  step_wf TVTs = true -> i < num_models cfg -> ldm_on cfg = true ->
  exists z,
    fst (ldm_loss_block cfg i tvt (py_len ims) (first_outs TVTs)
                        (o_l_dist_mat (out_of i))) = inr z
    /\ Qeq (py_value z) (ldm_loss_spec i).
Proof.
  intros Hwf Hi Hon. unfold ldm_loss_block. rewrite Hon.
  destruct (step_wf_spec _ Hwf) as (HT & _ & Hout).
  assert (Hmat : forall j, j < num_models cfg ->
            o_l_dist_mat (out_of j)
            = PyVar (mkVar (ll_dist_mat (model_local j)) [j])
            /\ mat_ok (py_len ims) (ll_dist_mat (model_local j)) = true).
  { intros j Hj. destruct (out_wf_spec _ _ (Hout j Hj)) as (_ & _ & _ & Hl).
    destruct (Hl Hon) as (v & Hv & Hm).
    destruct (out_of_values j) as (_ & _ & _ & Hd). rewrite Hd in Hv.
    destruct (Qis0 (l_loss_weight cfg)); [discriminate |].
    destruct (local_dist_own_hard_sample cfg); [| discriminate].
    injection Hv as <-. rewrite Hd. now split. }
  apply andb_prop in Hon. destruct Hon as [Hon _].
  apply guard_two_models in Hon. destruct Hon as [HM _].
  destruct (Hmat i Hi) as (Hx & Hxm). rewrite Hx.
  destruct (sum_peers_value i (ELdmTerm i)
              (dist_term o_l_dist_mat (first_outs TVTs) tvt
                         (PyVar (mkVar (ll_dist_mat (model_local i)) [i])))
              (fun j => Qsum (map (fun e => e * e)%Q
                                  (zip_with Qminus
                                     (elems (ll_dist_mat (model_local i)))
                                     (elems (ll_dist_mat (model_local j))))))
              (seq 0 (num_models cfg)))
    with (acc := PyNum 0) as (z & Hz & Hl & Hv & Hvar).
  - intros j Hj _. apply in_seq in Hj.
    destruct (Hmat j (proj2 Hj)) as (Hy & Hym).
    eexists.
    apply dist_term_ok with (o := out_of j) (ly := [j]).
    + apply first_outs_nth. rewrite HT, Nat.min_id. lia.
    + exact Hy.
    + destruct (mat_ok_spec _ _ Hxm) as [-> _].
      destruct (mat_ok_spec _ _ Hym) as [-> _]. reflexivity.
  - exact I.
  - rewrite (bindW_inr _ _ _ Hz). eexists. split; [reflexivity |].
    rewrite py_div_num_value by assumption. rewrite Hv.
    unfold ldm_loss_spec, Qdiv. simpl py_value.
    setoid_replace (1 * Qnat (num_models cfg - 1) * Qnat (py_len ims)
                    * Qnat (py_len ims))%Q
      with (Qnat (num_models cfg - 1)
            * (Qnat (py_len ims) * Qnat (py_len ims)))%Q by ring.
    apply Qmult_comp; [| reflexivity]. rewrite Qplus_0_l.
    apply Qsum_map_ext. intros j Hj. apply filter_In in Hj.
    destruct Hj as [Hj _]. apply in_seq in Hj.
    apply sq_diff_sum_ok; [exact Hxm | apply Hmat; lia].
Qed.

(** The names the second loop binds for model [i] in a well-formed step, as
    values of the collaborators: the six terms and the total loss. *)
Lemma locals_of_spec TVTs i :
  step_wf TVTs = true -> i < num_models cfg ->
  s_g_loss (locals_of TVTs i)
  = mkVar (scalar_t (gl_loss (model_global i))) [i]
  /\ s_l_loss (locals_of TVTs i)
     = (if Qis0 (l_loss_weight cfg) then PyNum 0
        else PyVar (mkVar (scalar_t (ll_loss (model_local i))) [i]))
  /\ s_id_loss (locals_of TVTs i)
     = (if Qgt0 (id_loss_weight cfg)
        then PyVar (mkVar (scalar_t (model_id_loss i)) [i])
        else PyNum 0)
  /\ (if pm_on cfg
      then Qeq (py_value (s_pm_loss (locals_of TVTs i))) (pm_loss_spec i)
      else s_pm_loss (locals_of TVTs i) = PyNum 0)
  /\ (if gdm_on cfg
      then Qeq (py_value (s_gdm_loss (locals_of TVTs i))) (gdm_loss_spec i)
      else s_gdm_loss (locals_of TVTs i) = PyNum 0)
  /\ (if ldm_on cfg
      then Qeq (py_value (s_ldm_loss (locals_of TVTs i))) (ldm_loss_spec i)
      else s_ldm_loss (locals_of TVTs i) = PyNum 0)
  /\ Qeq (py_value (s_loss (locals_of TVTs i))) (total_loss_spec i).
Proof.
  intros Hwf Hi. destruct (locals_of_good TVTs i Hwf Hi) as (Hfst & G).
  destruct G as (Eg & El & Eid & _ & Hpm & Hgdm & Hldm & _ & _ & Hv).
  destruct (out_of_values i) as (Vg & Vl & Vid & _).
  rewrite Vg in Eg. rewrite Vl in El. rewrite Vid in Eid.
  assert (Hldmv :
    if ldm_on cfg
    then Qeq (py_value (s_ldm_loss (locals_of TVTs i))) (ldm_loss_spec i)
    else s_ldm_loss (locals_of TVTs i) = PyNum 0).
  { destruct (ldm_on cfg) eqn:Hon; [| exact Hldm].
    destruct (ldm_block_value TVTs i (nth i TVTs 0) Hwf Hi Hon)
      as (z & Hz & Hzv).
    destruct (model_losses_inv _ _ _ _ _ _ Hfst)
      as (pm & gdm & ldm & loss & _ & _ & Eldm & _ & Et).
    rewrite Et. cbn [s_ldm_loss]. rewrite Hz in Eldm.
    injection Eldm as <-. exact Hzv. }
  assert (Hpmv :
    if pm_on cfg
    then Qeq (py_value (s_pm_loss (locals_of TVTs i))) (pm_loss_spec i)
    else s_pm_loss (locals_of TVTs i) = PyNum 0)
    by (destruct (pm_on cfg); [apply Hpm | exact Hpm]).
  assert (Hgdmv :
    if gdm_on cfg
    then Qeq (py_value (s_gdm_loss (locals_of TVTs i))) (gdm_loss_spec i)
    else s_gdm_loss (locals_of TVTs i) = PyNum 0)
    by (destruct (gdm_on cfg); [apply Hgdm | exact Hgdm]).
  split; [exact Eg |]. split; [exact El |]. split; [exact Eid |].
  split; [exact Hpmv |]. split; [exact Hgdmv |]. split; [exact Hldmv |].
  rewrite Hv. unfold weighted_sum, total_loss_spec.
  rewrite Eg, El, Eid.
  assert (Tl : Qeq (py_value (if Qis0 (l_loss_weight cfg) then PyNum 0
                              else PyVar (mkVar (scalar_t
                                            (ll_loss (model_local i))) [i]))
                    * l_loss_weight cfg)
                   (if Qis0 (l_loss_weight cfg) then 0
                    else ll_loss (model_local i) * l_loss_weight cfg)).
  { destruct (Qis0 (l_loss_weight cfg)); simpl; ring. }
  assert (Tid : Qeq (py_value (if Qgt0 (id_loss_weight cfg)
                               then PyVar (mkVar (scalar_t (model_id_loss i))
                                                 [i])
                               else PyNum 0)
                     * id_loss_weight cfg)
                    (if Qgt0 (id_loss_weight cfg)
                     then model_id_loss i * id_loss_weight cfg else 0)).
  { destruct (Qgt0 (id_loss_weight cfg)); simpl; ring. }
  assert (Tpm : Qeq (py_value (s_pm_loss (locals_of TVTs i))
                     * pm_loss_weight cfg)
                    (if pm_on cfg then pm_loss_spec i * pm_loss_weight cfg
                     else 0)).
  { destruct (pm_on cfg); [now rewrite Hpmv | rewrite Hpmv; simpl; ring]. }
  assert (Tgdm : Qeq (py_value (s_gdm_loss (locals_of TVTs i))
                      * gdm_loss_weight cfg)
                     (if gdm_on cfg
                      then gdm_loss_spec i * gdm_loss_weight cfg else 0)).
  { destruct (gdm_on cfg); [now rewrite Hgdmv | rewrite Hgdmv; simpl; ring]. }
  assert (Tldm : Qeq (py_value (s_ldm_loss (locals_of TVTs i))
                      * ldm_loss_weight cfg)
                     (if ldm_on cfg
                      then ldm_loss_spec i * ldm_loss_weight cfg else 0)).
  { destruct (ldm_on cfg); [now rewrite Hldmv | rewrite Hldmv; simpl; ring]. }
  rewrite Tl, Tid, Tpm, Tgdm, Tldm. reflexivity.
Qed.

(** C8.  With the local weight 0 the local loss is never called in a step;
    and a well-formed step then returns, for every model, a total loss
    equal to the weighted sum of the terms that are enabled: the global
    triplet term, and the classification and the two remaining mutual terms
    when they are on (the local-distance mutual term is then off).  The
    terms are those of the model: the local term and the local-distance
    mutual term of model [i] are the number 0, its global triplet term is
    what [global_loss] returns on its global features, its classification
    term what [id_criterion] returns on its logits, its two mutual terms
    the means over the peers, and its total loss the weighted sum of
    these. *)
Theorem local_loss_skipped_at_weight_0 TVTs :
  Qis0 (l_loss_weight cfg) = true ->
  absent is_local_loss (tr (train_step E cfg TVTs ims labels ens))
  /\ (step_wf TVTs = true ->
      ldm_on cfg = false
      /\ exists outs locs,
           res (train_step E cfg TVTs ims labels ens) = inr (outs, locs)
           /\ length locs = num_models cfg
           /\ (forall t, In t locs ->
                Qeq (py_value (s_loss t))
                    (py_value (PyVar (s_g_loss t)) * g_loss_weight cfg
                     + (if Qgt0 (id_loss_weight cfg)
                        then py_value (s_id_loss t) * id_loss_weight cfg
                        else 0)
                     + (if pm_on cfg
                        then py_value (s_pm_loss t) * pm_loss_weight cfg
                        else 0)
                     + (if gdm_on cfg
                        then py_value (s_gdm_loss t) * gdm_loss_weight cfg
                        else 0)))
           /\ forall i, i < num_models cfg ->
                exists t,
                  nth_error locs i = Some t
                  /\ s_l_loss t = PyNum 0
                  /\ s_ldm_loss t = PyNum 0
                  /\ Qeq (py_value (PyVar (s_g_loss t)))
                         (gl_loss (model_global i))
                  /\ (Qgt0 (id_loss_weight cfg) = true ->
                      Qeq (py_value (s_id_loss t)) (model_id_loss i))
                  /\ (pm_on cfg = true ->
                      Qeq (py_value (s_pm_loss t)) (pm_loss_spec i))
                  /\ (gdm_on cfg = true ->
                      Qeq (py_value (s_gdm_loss t)) (gdm_loss_spec i))
                  /\ Qeq (py_value (s_loss t))
                         (gl_loss (model_global i) * g_loss_weight cfg
                          + (if Qgt0 (id_loss_weight cfg)
                             then model_id_loss i * id_loss_weight cfg
                             else 0)
                          + (if pm_on cfg
                             then pm_loss_spec i * pm_loss_weight cfg
                             else 0)
                          + (if gdm_on cfg
                             then gdm_loss_spec i * gdm_loss_weight cfg
                             else 0))).
Proof.
  intros H0. split; [now apply local_loss_absent |].
  intros Hwf. pose proof (wf_local0_ldm_off TVTs Hwf H0) as Hoff.
  split; [exact Hoff |].
  rewrite (train_step_ok TVTs Hwf). cbn [res].
  eexists _, _. split; [reflexivity |].
  split; [now rewrite length_map, length_seq |]. split.
  - intros t Ht. apply in_map_iff in Ht. destruct Ht as (i & <- & Hi).
    apply in_seq in Hi.
    rewrite (locals_loss_enabled TVTs i Hwf) by lia.
    unfold enabled_sum. rewrite H0, Hoff. ring.
  - intros i Hi. exists (locals_of TVTs i).
    split; [now apply locals_nth |].
    destruct (locals_of_spec TVTs i Hwf Hi)
      as (Sg & Sl & Sid & Spm & Sgdm & Sldm & Sv).
    rewrite H0 in Sl. rewrite Hoff in Sldm.
    split; [exact Sl |]. split; [exact Sldm |].
    split; [rewrite Sg; reflexivity |].
    split; [intros Hid; rewrite Hid in Sid; rewrite Sid; reflexivity |].
    split; [intros Hon; rewrite Hon in Spm; exact Spm |].
    split; [intros Hon; rewrite Hon in Sgdm; exact Sgdm |].
    rewrite Sv. unfold total_loss_spec. rewrite H0, Hoff. ring.
Qed.

(** C5.  In a well-formed step of at least two models with a positive
    probability-mutual weight, the probability mutual loss of model [i] is
    the sum, over the peers [j <> i], of the KL divergence between the
    log-probabilities of model [i] and the probabilities of model [j],
    divided by [(M - 1) * N]; no KL divergence of a model with itself is
    computed. *)
Theorem pm_loss_is_mean_kl TVTs i :
  2 <= num_models cfg -> Qgt0 (pm_loss_weight cfg) = true ->
  step_wf TVTs = true -> i < num_models cfg ->
  (exists outs locs t,
     res (train_step E cfg TVTs ims labels ens) = inr (outs, locs)
     /\ nth_error locs i = Some t
     /\ Qeq (py_value (s_pm_loss t)) (pm_loss_spec i))
  /\ ~ In (EKlDiv i i) (tr (train_step E cfg TVTs ims labels ens)).
Proof.
  intros HM Hw Hwf Hi. split.
  - rewrite (train_step_ok TVTs Hwf). cbn [res].
    eexists _, _, _. split; [reflexivity |].
    split; [now apply locals_nth |].
    destruct (locals_of_good TVTs i Hwf Hi) as (_ & G).
    destruct G as (_ & _ & _ & _ & Hpm & _).
    assert (Hon : pm_on cfg = true).
    { unfold pm_on. rewrite Hw. apply andb_true_intro. split; auto.
      apply Nat.ltb_lt. lia. }
    rewrite Hon in Hpm. apply Hpm.
  - intros Hin.
    assert (Ha : Forall (fun e => e <> EKlDiv i i)
                        (tr (train_step E cfg TVTs ims labels ens))).
    { apply train_step_trace; intros; try discriminate.
      intros Heq. injection Heq as -> ->. congruence. }
    rewrite Forall_forall in Ha. exact (Ha _ Hin eq_refl).
Qed.

(** C6.  In a well-formed step of at least two models with a positive
    global-distance-mutual weight, the global-distance mutual loss of model
    [i] is the sum, over the peers [j <> i], of the sum over all entries of
    the squared difference of the [N x N] global distance matrices of
    models [i] and [j], divided by [(M - 1) * N * N]. *)
Theorem gdm_loss_is_mean_sq_diff TVTs i :
  2 <= num_models cfg -> Qgt0 (gdm_loss_weight cfg) = true ->
  step_wf TVTs = true -> i < num_models cfg ->
  (exists outs locs t,
     res (train_step E cfg TVTs ims labels ens) = inr (outs, locs)
     /\ nth_error locs i = Some t
     /\ Qeq (py_value (s_gdm_loss t)) (gdm_loss_spec i))
  /\ ~ In (EGdmTerm i i) (tr (train_step E cfg TVTs ims labels ens)).
Proof.
  intros HM Hw Hwf Hi. split.
  - rewrite (train_step_ok TVTs Hwf). cbn [res].
    eexists _, _, _. split; [reflexivity |].
    split; [now apply locals_nth |].
    destruct (locals_of_good TVTs i Hwf Hi) as (_ & G).
    destruct G as (_ & _ & _ & _ & _ & Hgdm & _).
    assert (Hon : gdm_on cfg = true).
    { unfold gdm_on. rewrite Hw. apply andb_true_intro. split; auto.
      apply Nat.ltb_lt. lia. }
    rewrite Hon in Hgdm. apply Hgdm.
  - intros Hin.
    assert (Ha : Forall (fun e => e <> EGdmTerm i i)
                        (tr (train_step E cfg TVTs ims labels ens))).
    { apply train_step_trace; intros; try discriminate.
      intros Heq. injection Heq as -> ->. congruence. }
    rewrite Forall_forall in Ha. exact (Ha _ Hin eq_refl).
Qed.

(* ================================================================== *)
(** * The step log *)

Lemma meter_updates_app l1 l2 :
  meter_updates (l1 ++ l2) = meter_updates l1 ++ meter_updates l2.
Proof. apply flat_map_app. Qed.

Lemma meter_updates_nil l :
  Forall (fun e => meter_of e = []) l -> meter_updates l = [].
Proof.
  induction 1 as [| e l He _ IH]; [reflexivity |].
  unfold meter_updates in *. simpl. now rewrite He, IH.
Qed.

Lemma meter_updates_log l : meter_updates (map meter_event l) = l.
Proof.
  induction l as [| [m v] l IH]; [reflexivity |].
  unfold meter_updates in *. simpl. now rewrite IH.
Qed.

Lemma model_losses_no_meter n outs i o tvt :
  Forall (fun e => meter_of e = [])
         (snd (model_losses E cfg n outs i o tvt)).
Proof. apply model_losses_trace; reflexivity. Qed.

(** C9.  In a well-formed step of at least two models, the meter updates
    of the step log are those computed from the outputs and the losses of
    the last model, model [M - 1], alone: its distance vectors, its six
    terms and its total loss. *)
Theorem step_log_uses_last_model TVTs :
  2 <= num_models cfg -> step_wf TVTs = true ->
  exists outs locs o t,
    res (train_step E cfg TVTs ims labels ens) = inr (outs, locs)
    /\ length outs = num_models cfg /\ length locs = num_models cfg
    /\ nth_error outs (num_models cfg - 1) = Some o
    /\ nth_error locs (num_models cfg - 1) = Some t
    /\ o = out_of (num_models cfg - 1)
    /\ meter_updates (tr (train_step E cfg TVTs ims labels ens))
       = log_of o t.
Proof.
  intros HM Hwf. destruct (step_wf_spec _ Hwf) as (HT & _ & _).
  rewrite (train_step_ok TVTs Hwf). cbn [res tr].
  eexists _, _, _, _. split; [reflexivity |].
  split; [now rewrite first_outs_length, HT, Nat.min_id |].
  split; [now rewrite length_map, length_seq |].
  split; [apply first_outs_nth; rewrite HT, Nat.min_id; lia |].
  split; [apply locals_nth; lia |].
  split; [reflexivity |].
  unfold step_events.
  rewrite !meter_updates_app, meter_updates_log.
  rewrite (meter_updates_nil (first_events TVTs)).
  2:{ unfold first_events. apply Forall_for_eachW. intros it _.
      apply model_pass_trace; reflexivity. }
  rewrite (meter_updates_nil (flat_map (update_events TVTs) _)).
  2:{ apply Forall_flat_map, Forall_forall. intros k _.
      unfold update_events. apply Forall_app. split.
      - apply model_losses_no_meter.
      - repeat constructor. }
  rewrite (meter_updates_nil (flat_map _ _)).
  2:{ apply Forall_flat_map, Forall_forall. intros k _.
      repeat constructor. }
  reflexivity.
Qed.

(* ================================================================== *)
(** * The local-distance mutual term on the placeholder 0 *)

Lemma ldm_block_on_placeholder TVTs tvt :
  Qis0 (l_loss_weight cfg) = true -> ldm_on cfg = true ->
  length TVTs = num_models cfg ->
  ldm_loss_block cfg 0 tvt (py_len ims) (first_outs TVTs) (PyNum 0)
  = (inl AttributeError, [ELdmTerm 0 1]).
Proof.
  intros H0 Hon HT. unfold ldm_loss_block. rewrite Hon.
  destruct (ldm_on_spec Hon) as (HM & _).
  assert (H1 : nth_error (first_outs TVTs) 1 = Some (out_of 1))
    by (apply first_outs_nth; rewrite HT, Nat.min_id; lia).
  destruct (out_of_l_dist_mat 1) as (_ & Hz & _).
  destruct (num_models cfg) as [| [| m]]; try lia.
  cbn [seq sum_peers Nat.eqb].
  unfold dist_term. rewrite H1. cbn [from_option bindR].
  rewrite (Hz H0). reflexivity.
Qed.

Lemma model_losses_on_placeholder TVTs tvt :
  Qis0 (l_loss_weight cfg) = true -> ldm_on cfg = true ->
  length TVTs = num_models cfg ->
  exists e,
    fst (model_losses E cfg (py_len ims) (first_outs TVTs) 0 (out_of 0) tvt)
    = inl e.
Proof.
  intros H0 Hon HT. unfold model_losses.
  destruct (fst (pm_loss_block E cfg 0 tvt (py_len ims) (first_outs TVTs)
                               (o_log_probs (out_of 0))))
    as [e | pm] eqn:Epm;
    [rewrite (bindW_inl _ _ e Epm); now exists e |].
  rewrite (bindW_inr _ _ pm Epm). cbn [fst].
  destruct (fst (gdm_loss_block cfg 0 tvt (py_len ims) (first_outs TVTs)
                                (o_g_dist_mat (out_of 0))))
    as [e | gdm] eqn:Egdm;
    [rewrite (bindW_inl _ _ e Egdm); now exists e |].
  rewrite (bindW_inr _ _ gdm Egdm). cbn [fst].
  destruct (out_of_l_dist_mat 0) as (_ & Hz & _). rewrite (Hz H0).
  rewrite (ldm_block_on_placeholder TVTs tvt H0 Hon HT).
  exists AttributeError. reflexivity.
Qed.

(** C10.  With the local weight 0, the local distance finding its own hard
    samples, at least two models and a positive local-distance-mutual
    weight, the local distance matrix of every model is the number 0, the
    local-distance mutual block still runs and raises on the first peer,
    and the step raises: no total loss is composed, no backward pass is
    run, no optimizer is stepped, and no model is changed. *)
Theorem ldm_on_placeholder_raises TVTs :
  Qis0 (l_loss_weight cfg) = true ->
  local_dist_own_hard_sample cfg = true ->
  2 <= num_models cfg ->
  Qgt0 (ldm_loss_weight cfg) = true ->
  length TVTs = num_models cfg ->
  (forall o, In o (first_outs TVTs) -> o_l_dist_mat o = PyNum 0)
  /\ (forall tvt,
        ldm_loss_block cfg 0 tvt (py_len ims) (first_outs TVTs) (PyNum 0)
        = (inl AttributeError, [ELdmTerm 0 1]))
  /\ (exists e, res (train_step E cfg TVTs ims labels ens) = inl e)
  /\ phases (tr (train_step E cfg TVTs ims labels ens)) = []
  /\ (forall k, st (train_step E cfg TVTs ims labels ens) k = ens k).
Proof.
  intros H0 Hown HM Hw HT.
  assert (Hon : ldm_on cfg = true).
  { unfold ldm_on. rewrite Hown, Hw.
    replace (1 <? num_models cfg) with true; [reflexivity |].
    symmetry. apply Nat.ltb_lt. lia. }
  split; [| split].
  - intros o Ho. rewrite first_outs_eq in Ho. apply in_map_iff in Ho.
    destruct Ho as (k & <- & _).
    destruct (out_of_l_dist_mat k) as (_ & Hz & _). exact (Hz H0).
  - intros tvt. now apply ldm_block_on_placeholder.
  - destruct (model_losses_on_placeholder TVTs (nth 0 TVTs 0) H0 Hon HT)
      as (e & He).
    assert (Hrun : train_step E cfg TVTs ims labels ens
                   = mkOutcome (inl e) ens
                       (first_events TVTs
                        ++ snd (model_losses E cfg (py_len ims)
                                  (first_outs TVTs) 0 (out_of 0)
                                  (nth 0 TVTs 0)))).
    { unfold train_step.
      rewrite (bindM_inr _ _ _ ens) by reflexivity.
      cbn [get_ensemble st tr app].
      rewrite (bindM_inr _ _ _ (first_outs TVTs))
        by (cbn [liftW res]; apply first_outs_fst).
      cbn [liftW st tr]. fold (first_events TVTs).
      rewrite update_items_eq, HT, Nat.min_id.
      destruct (num_models cfg) as [| m]; [lia |].
      cbn [seq map].
      rewrite (bindM_inl _ _ _ e).
      - rewrite (for_eachM_first_err _ _ _ _ e)
          by (now rewrite (model_update_err _ _ _ _ _ _ _ _ He)).
        rewrite (model_update_err _ _ _ _ _ _ _ _ He). reflexivity.
      - rewrite (for_eachM_first_err _ _ _ _ e)
          by (now rewrite (model_update_err _ _ _ _ _ _ _ _ He)).
        reflexivity. }
    rewrite Hrun. cbn [res tr st]. split; [now exists e |].
    split; [| reflexivity].
    rewrite phases_app, first_events_phases, model_losses_phases, He.
    reflexivity.
Qed.

(* ================================================================== *)
(** * Mutual weights that the configuration cannot honour *)

(** C4, as the code has it.  A configuration with a single model, or with
    shared hard samples, is not rejected whatever its mutual weights: the
    step silently skips the mutual terms that cannot be computed (no call
    of them is made and their value in every total loss composed is the
    number 0), and a well-formed step returns. *)
Theorem unusable_mutual_weights_are_skipped TVTs :
  (num_models cfg <= 1 ->
   absent is_kl_div (tr (train_step E cfg TVTs ims labels ens))
   /\ absent is_gdm_term (tr (train_step E cfg TVTs ims labels ens))
   /\ absent is_ldm_term (tr (train_step E cfg TVTs ims labels ens))
   /\ composed (fun _ t =>
                  s_pm_loss t = PyNum 0 /\ s_gdm_loss t = PyNum 0
                  /\ s_ldm_loss t = PyNum 0)
               (tr (train_step E cfg TVTs ims labels ens)))
  /\ (local_dist_own_hard_sample cfg = false ->
      absent is_ldm_term (tr (train_step E cfg TVTs ims labels ens))
      /\ composed (fun _ t => s_ldm_loss t = PyNum 0)
                  (tr (train_step E cfg TVTs ims labels ens)))
  /\ (step_wf TVTs = true ->
      exists r, res (train_step E cfg TVTs ims labels ens) = inr r).
Proof.
  split; [| split].
  - intros HM.
    pose proof (pm_off_when (or_intror HM)) as Hpm.
    pose proof (gdm_off_when (or_intror HM)) as Hgdm.
    pose proof (ldm_off_when (or_intror (or_introl HM))) as Hldm.
    split; [now apply kl_div_absent |].
    split; [now apply gdm_term_absent |].
    split; [now apply ldm_term_absent |].
    apply train_step_composed. intros i tvt t Ht.
    apply model_losses_inv in Ht.
    destruct Ht as (pm & gdm & ldm & loss & Epm & Egdm & Eldm & _ & ->).
    rewrite pm_block_off in Epm by exact Hpm.
    rewrite gdm_block_off in Egdm by exact Hgdm.
    rewrite ldm_block_off in Eldm by exact Hldm.
    injection Epm as <-. injection Egdm as <-. injection Eldm as <-.
    cbn. auto.
  - intros Hown.
    pose proof (ldm_off_when (or_intror (or_intror Hown))) as Hldm.
    split; [now apply ldm_term_absent |].
    apply train_step_composed. intros i tvt t Ht.
    apply model_losses_inv in Ht.
    destruct Ht as (pm & gdm & ldm & loss & _ & _ & Eldm & _ & ->).
    rewrite ldm_block_off in Eldm by exact Hldm.
    now injection Eldm as <-.
  - intros Hwf. rewrite (train_step_ok TVTs Hwf). now eexists.
Qed.

(* ================================================================== *)
(** * Steps outside the well-formed ones, and the epoch *)

Lemma train_step_no_transfer :
  train_step E cfg [] ims labels ens
  = mkOutcome (inl NameError)
      (fold_left (fun s k => stepped E k s) (seq 0 (num_models cfg)) ens)
      (flat_map (fun k => [EOptStep k]) (seq 0 (num_models cfg))).
Proof.
  unfold train_step, update_items.
  rewrite (bindM_inr _ _ _ ens) by reflexivity. cbn [get_ensemble st tr app].
  rewrite combine_nil. cbn [for_eachW retW liftW].
  rewrite (bindM_inr _ _ _ (@nil model_out)) by reflexivity.
  cbn [res st tr fst snd app combine enumerate length seq for_eachM].
  rewrite (bindM_inr _ _ _ (@nil step_locals)) by reflexivity.
  cbn [retM res st tr app].
  rewrite (bindM_inr _ _ _ (map (fun _ => tt) (seq 0 (num_models cfg))))
    by now rewrite optimizer_loop_ok.
  rewrite optimizer_loop_ok. cbn [res st tr].
  rewrite (bindM_inl _ _ _ NameError) by reflexivity.
  cbn [liftW st tr step_log]. now rewrite app_nil_r.
Qed.

(** X10.  A step with no transfer function runs neither loop over the
    models, so no forward pass, no loss and no backward pass; it still
    steps the optimizer of every model, on the gradients that were there,
    and then raises NameError in the step log, which reads names no loop
    has bound. *)
Theorem step_without_transfer_steps_then_raises :
  res (train_step E cfg [] ims labels ens) = inl NameError
  /\ tr (train_step E cfg [] ims labels ens)
     = map EOptStep (seq 0 (num_models cfg))
  /\ forall k,
       st (train_step E cfg [] ims labels ens) k
       = if k <? num_models cfg
         then mkModel (fst (adam_step E (params (ens k)) (grads (ens k))
                                      (adam_state (ens k))))
                      (grads (ens k))
                      (snd (adam_step E (params (ens k)) (grads (ens k))
                                      (adam_state (ens k))))
         else ens k.
Proof.
  rewrite train_step_no_transfer. cbn [res st tr].
  split; [reflexivity |]. split.
  - induction (seq 0 (num_models cfg)) as [| k l IH]; [reflexivity |].
    cbn [flat_map map app]. now rewrite IH.
  - intros k. rewrite fold_stepped. reflexivity.
Qed.

(** The meter updates of a well-formed step. *)
Lemma step_events_meters TVTs :
  meter_updates (step_events TVTs)
  = log_of (out_of (num_models cfg - 1))
           (locals_of TVTs (num_models cfg - 1)).
Proof.
  unfold step_events.
  rewrite !meter_updates_app, meter_updates_log.
  rewrite (meter_updates_nil (first_events TVTs)).
  2:{ unfold first_events. apply Forall_for_eachW. intros it _.
      apply model_pass_trace; reflexivity. }
  rewrite (meter_updates_nil (flat_map (update_events TVTs) _)).
  2:{ apply Forall_flat_map, Forall_forall. intros k _.
      unfold update_events. apply Forall_app. split.
      - apply model_losses_no_meter.
      - repeat constructor. }
  rewrite (meter_updates_nil (flat_map _ _)).
  2:{ apply Forall_flat_map, Forall_forall. intros k _.
      repeat constructor. }
  reflexivity.
Qed.

Lemma local_loss_called TVTs i :
  Qis0 (l_loss_weight cfg) = false ->
  i < Nat.min (num_models cfg) (length TVTs) ->
  In (ELocalLoss i (local_dist_own_hard_sample cfg)) (first_events TVTs).
Proof.
  intros Hl Hi. unfold first_events.
  rewrite (for_eachW_events _ (fun it => out_of (fst it)))
    by (intros; apply model_pass_out).
  apply in_flat_map. exists (i, nth i TVTs 0). split.
  - rewrite (combine_seq 0). apply in_map_iff. exists i.
    rewrite Nat.sub_0_r. split; [reflexivity | apply in_seq; lia].
  - unfold model_pass. cbn [fst].
    rewrite (bindW_inr _ _ tt) by reflexivity. cbn [snd tell].
    rewrite (bindW_inr _ _ tt) by reflexivity. cbn [snd tell].
    right. right. cbn [app].
    unfold local_part. rewrite Hl.
    destruct (local_dist_own_hard_sample cfg); cbn; auto.
Qed.

(** X11.  The first loop tests the local weight against 0 and the step log
    tests it for being positive.  With a negative local weight a
    well-formed step therefore calls the local loss for every model and
    counts it in the total loss: the local term of model [i] is what
    [local_loss] returns on its local features, and its total loss is the
    weighted sum of the enabled terms of model [i], the local one with its
    negative weight among them.  But the step updates none of the five
    local meters. *)
Theorem negative_local_weight_counted_not_logged TVTs :
  Qis0 (l_loss_weight cfg) = false -> Qgt0 (l_loss_weight cfg) = false ->
  step_wf TVTs = true ->
  (forall i, i < num_models cfg ->
     In (ELocalLoss i (local_dist_own_hard_sample cfg))
        (tr (train_step E cfg TVTs ims labels ens)))
  /\ (forall p,
        In p (meter_updates (tr (train_step E cfg TVTs ims labels ens))) ->
        is_local_meter (fst p) = false)
  /\ exists outs locs,
       res (train_step E cfg TVTs ims labels ens) = inr (outs, locs)
       /\ length locs = num_models cfg
       /\ (forall t, In t locs ->
            is_var (s_l_loss t)
            /\ Qeq (py_value (s_loss t))
                   (weighted_sum (PyVar (s_g_loss t)) (s_l_loss t)
                      (s_id_loss t) (s_pm_loss t) (s_gdm_loss t)
                      (s_ldm_loss t)))
       /\ forall i, i < num_models cfg ->
            exists t,
              nth_error locs i = Some t
              /\ Qeq (py_value (s_l_loss t)) (ll_loss (model_local i))
              /\ Qeq (py_value (s_loss t))
                     (gl_loss (model_global i) * g_loss_weight cfg
                      + ll_loss (model_local i) * l_loss_weight cfg
                      + (if Qgt0 (id_loss_weight cfg)
                         then model_id_loss i * id_loss_weight cfg else 0)
                      + (if pm_on cfg
                         then pm_loss_spec i * pm_loss_weight cfg else 0)
                      + (if gdm_on cfg
                         then gdm_loss_spec i * gdm_loss_weight cfg else 0)
                      + (if ldm_on cfg
                         then ldm_loss_spec i * ldm_loss_weight cfg
                         else 0)).
Proof.
  intros H0 Hgt Hwf. destruct (step_wf_spec _ Hwf) as (HT & _ & _).
  split; [| split].
  - intros i Hi. destruct (train_step_first_events TVTs) as (rest & ->).
    apply in_or_app. left. apply local_loss_called; [exact H0 |].
    rewrite HT, Nat.min_id. exact Hi.
  - rewrite (train_step_ok TVTs Hwf). cbn [tr].
    rewrite step_events_meters. unfold log_of, l_log_of. rewrite Hgt.
    intros p Hp.
    destruct (Qgt0 (id_loss_weight cfg)), (pm_on cfg), (gdm_on cfg),
      (ldm_on cfg); cbn in Hp;
      repeat (destruct Hp as [<- | Hp]; [reflexivity |]); destruct Hp.
  - rewrite (train_step_ok TVTs Hwf). cbn [res].
    eexists _, _. split; [reflexivity |].
    split; [now rewrite length_map, length_seq |]. split.
    + intros t Ht. apply in_map_iff in Ht. destruct Ht as (i & <- & Hi).
      apply in_seq in Hi.
      destruct (locals_of_good TVTs i Hwf) as (_ & G); [lia |].
      destruct G as (_ & Hl & _ & _ & _ & _ & _ & _ & _ & Hv).
      split; [| exact Hv].
      rewrite Hl. now apply (out_of_l_loss i).
    + intros i Hi. exists (locals_of TVTs i).
      split; [now apply locals_nth |].
      destruct (locals_of_spec TVTs i Hwf Hi)
        as (_ & Sl & _ & _ & _ & _ & Sv).
      rewrite H0 in Sl. split; [rewrite Sl; reflexivity |].
      rewrite Sv. unfold total_loss_spec. rewrite H0. reflexivity.
Qed.

(* ================================================================== *)
(** * The global-distance mutual loss as a number *)

Lemma Qsum_nonneg {A} (f : A -> Q) l :
  (forall x, In x l -> (0 <= f x)%Q) -> (0 <= Qsum (map f l))%Q.
Proof.
  induction l as [| x l IH]; intros H; simpl; [apply Qle_refl |].
  apply (Qplus_le_compat 0 (f x) 0 (Qsum (map f l))).
  - apply H. now left.
  - apply IH. intros y Hy. apply H. now right.
Qed.

Lemma Qsquare_nonneg (a : Q) : (0 <= a * a)%Q.
Proof.
  destruct a as [n d]. unfold Qle, Qmult. cbn [Qnum Qden].
  rewrite Z.mul_0_l, Z.mul_1_r. apply Z.square_nonneg.
Qed.

Lemma Qnat_nonneg n : (0 <= Qnat n)%Q.
Proof.
  unfold Qnat, Qle. cbn [Qnum Qden inject_Z]. lia.
Qed.

Lemma sq_diff_sum_nonneg n x y : (0 <= sq_diff_sum n x y)%Q.
Proof.
  unfold sq_diff_sum. apply Qsum_nonneg. intros a _.
  apply Qsum_nonneg. intros b _. apply Qsquare_nonneg.
Qed.

Lemma sq_diff_sum_sym n x y : Qeq (sq_diff_sum n x y) (sq_diff_sum n y x).
Proof.
  unfold sq_diff_sum. apply Qsum_map_ext. intros a _.
  apply Qsum_map_ext. intros b _. ring.
Qed.

Lemma gdm_loss_spec_nonneg i : (0 <= gdm_loss_spec i)%Q.
Proof.
  unfold gdm_loss_spec, Qdiv. apply Qmult_le_0_compat.
  - apply Qsum_nonneg. intros j _. apply sq_diff_sum_nonneg.
  - apply Qinv_le_0_compat. apply Qmult_le_0_compat; [apply Qnat_nonneg |].
    apply Qmult_le_0_compat; apply Qnat_nonneg.
Qed.

(** X12.  In a well-formed step on a batch that is not empty, the
    global-distance mutual loss of every model is not negative: it is a
    sum of squares over a positive number, or the number 0 when the term
    is off. *)
Theorem gdm_loss_not_negative TVTs :
  step_wf TVTs = true -> 0 < py_len ims ->
  exists outs locs,
    res (train_step E cfg TVTs ims labels ens) = inr (outs, locs)
    /\ length locs = num_models cfg
    /\ forall t, In t locs -> (0 <= py_value (s_gdm_loss t))%Q.
Proof.
  intros Hwf _. rewrite (train_step_ok TVTs Hwf). cbn [res].
  eexists _, _. split; [reflexivity |].
  split; [now rewrite length_map, length_seq |].
  intros t Ht. apply in_map_iff in Ht. destruct Ht as (i & <- & Hi).
  apply in_seq in Hi.
  destruct (locals_of_good TVTs i Hwf) as (_ & G); [lia |].
  destruct G as (_ & _ & _ & _ & _ & Hgdm & _).
  destruct (gdm_on cfg).
  - destruct Hgdm as (_ & ->). apply gdm_loss_spec_nonneg.
  - rewrite Hgdm. apply Qle_refl.
Qed.

(** X13.  With two models the squared differences of the two distance
    matrices are the same seen from either side: in a well-formed step
    on a batch that is not empty, the two models get equal
    global-distance mutual losses. *)
Theorem gdm_loss_equal_for_two_models TVTs :
  num_models cfg = 2 -> step_wf TVTs = true -> 0 < py_len ims ->
  exists outs t0 t1,
    res (train_step E cfg TVTs ims labels ens) = inr (outs, [t0; t1])
    /\ Qeq (py_value (s_gdm_loss t0)) (py_value (s_gdm_loss t1)).
Proof.
  intros HM Hwf _. rewrite (train_step_ok TVTs Hwf). cbn [res].
  exists (first_outs TVTs), (locals_of TVTs 0), (locals_of TVTs 1).
  split; [now rewrite HM |].
  destruct (locals_of_good TVTs 0 Hwf) as (_ & G0); [lia |].
  destruct (locals_of_good TVTs 1 Hwf) as (_ & G1); [lia |].
  destruct G0 as (_ & _ & _ & _ & _ & H0 & _).
  destruct G1 as (_ & _ & _ & _ & _ & H1 & _).
  destruct (gdm_on cfg).
  - destruct H0 as (_ & ->), H1 as (_ & ->).
    unfold gdm_loss_spec, peers. rewrite HM. cbn [seq filter Nat.eqb negb map Qsum].
    unfold Qsum. cbn [fold_right].
    rewrite (sq_diff_sum_sym (py_len ims) (model_g_dist_mat 0)
                            (model_g_dist_mat 1)).
    reflexivity.
  - now rewrite H0, H1.
Qed.

(* ================================================================== *)
(** * The epoch *)

(** X14.  An epoch ends with the first batch that comes with [epoch_done]
    set: whatever follows it in the list of batches is never read. *)
Theorem train_epoch_stops_at_epoch_done TVTs pre b rest ms :
  train_epoch E cfg TVTs (pre ++ (b, true) :: rest) ms
  = train_epoch E cfg TVTs (pre ++ [(b, true)]) ms.
Proof.
  revert ms. induction pre as [| x pre IH]; intros ms.
  - reflexivity.
  - cbn [app train_epoch]. unfold bindM.
    destruct (res (train_step E cfg TVTs (fst (fst x)) (snd (fst x)) ms));
      [reflexivity |].
    destruct (snd x); [reflexivity |]. now rewrite IH.
Qed.

(* ================================================================== *)
(** * The order of the two loops *)




(* ================================================================== *)
(** * Fewer transfer functions than models *)







End Verification.

(* ================================================================== *)
(** * The theorems on the small ensemble *)

(** Two models, only the probability mutual term: the iteration of model 0
    leaves model 1 as it was, and at the end of the step model 1 has been
    updated from its own loss alone. *)
Lemma mutual_loss_gradient_isolation_witness :
  In (0, (out_of toy_ext cfg_pm_only toy_ims toy_labels toy_models 0, (0, 0)))
     (update_items cfg_pm_only [0; 1]
        (first_outs toy_ext cfg_pm_only toy_ims toy_labels toy_models [0; 1]))
  /\ step_wf toy_ext cfg_pm_only toy_ims toy_labels toy_models [0; 1] = true
  /\ st (model_update toy_ext cfg_pm_only 2
           (first_outs toy_ext cfg_pm_only toy_ims toy_labels toy_models
                       [0; 1])
           (0, (out_of toy_ext cfg_pm_only toy_ims toy_labels toy_models 0,
                (0, 0)))
           toy_models) 1
     = toy_models 1
  /\ st (toy_step cfg_pm_only [0; 1]) 1
     = own_update toy_ext cfg_pm_only toy_ims toy_labels toy_models [0; 1] 1.
Proof.
  assert (H : In (0, (out_of toy_ext cfg_pm_only toy_ims toy_labels
                             toy_models 0, (0, 0)))
                 (update_items cfg_pm_only [0; 1]
                    (first_outs toy_ext cfg_pm_only toy_ims toy_labels
                                toy_models [0; 1])))
    by (vm_compute; left; reflexivity).
  assert (Hwf : step_wf toy_ext cfg_pm_only toy_ims toy_labels toy_models
                        [0; 1] = true) by (vm_compute; reflexivity).
  destruct (mutual_loss_gradient_isolation toy_ext cfg_pm_only toy_ims
              toy_labels toy_models [0; 1]) as (Hframe & Hstep).
  split; [exact H |]. split; [exact Hwf |]. split.
  - apply (proj1 (Hframe _ toy_models H)). cbn [fst]. lia.
  - apply (Hstep Hwf). vm_compute. lia.
Defined.

Lemma gradients_then_optimizer_steps_witness :
  step_wf toy_ext cfg_all toy_ims toy_labels toy_models [0; 1] = true
  /\ (exists r, res (toy_step cfg_all [0; 1]) = inr r)
  /\ phases (tr (toy_step cfg_all [0; 1]))
     = [PCompose 0; PZeroGrad 0; PBackward 0;
        PCompose 1; PZeroGrad 1; PBackward 1;
        POptStep 0; POptStep 1].
Proof.
  assert (H : step_wf toy_ext cfg_all toy_ims toy_labels toy_models [0; 1]
              = true) by (vm_compute; reflexivity).
  split; [exact H |].
  exact (proj2 (gradients_then_optimizer_steps toy_ext cfg_all toy_ims
                  toy_labels toy_models [0; 1]) H).
Defined.

(** C3 fails on the code: with the global triplet weight 0 the global
    triplet loss is still computed. *)
Lemma global_loss_computed_at_weight_0 :
  Qis0 (g_loss_weight cfg_no_global) = true
  /\ In (EGlobalLoss 0) (tr (toy_step cfg_no_global [0; 1]))
  /\ ~ absent is_global_loss (tr (toy_step cfg_no_global [0; 1])).
Proof.
  assert (H : In (EGlobalLoss 0) (tr (toy_step cfg_no_global [0; 1])))
    by (vm_compute; right; left; reflexivity).
  split; [reflexivity |]. split; [exact H |].
  intros Ha. unfold absent in Ha. rewrite Forall_forall in Ha.
  specialize (Ha _ H). discriminate.
Qed.

Lemma disabled_terms_are_skipped_witness :
  Qis0 (l_loss_weight cfg_global_only) = true
  /\ Qis0 (id_loss_weight cfg_global_only) = true
  /\ Qis0 (pm_loss_weight cfg_global_only) = true
  /\ Qis0 (gdm_loss_weight cfg_global_only) = true
  /\ Qis0 (ldm_loss_weight cfg_global_only) = true
  /\ absent is_local_loss (tr (toy_step cfg_global_only [0; 1]))
  /\ absent is_id_criterion (tr (toy_step cfg_global_only [0; 1]))
  /\ absent is_kl_div (tr (toy_step cfg_global_only [0; 1]))
  /\ absent is_gdm_term (tr (toy_step cfg_global_only [0; 1]))
  /\ absent is_ldm_term (tr (toy_step cfg_global_only [0; 1]))
  /\ In (EGlobalLoss 1) (tr (toy_step cfg_global_only [0; 1])).
Proof.
  destruct (disabled_terms_are_skipped toy_ext cfg_global_only toy_ims
              toy_labels toy_models [0; 1])
    as (Hl & Hid & Hpm & Hgdm & Hldm & Hg).
  repeat split; try reflexivity.
  - apply Hl. reflexivity.
  - apply Hid. reflexivity.
  - apply Hpm. left. reflexivity.
  - apply Hgdm. left. reflexivity.
  - apply Hldm. left. reflexivity.
  - apply Hg. vm_compute. lia.
Defined.

(** C4 fails on the code: one model with the three mutual weights positive,
    and two models with the local-distance mutual weight positive and
    shared hard samples, are both trained on. *)
Lemma unusable_mutual_weights_not_rejected :
  (num_models cfg_single = 1
   /\ Qgt0 (pm_loss_weight cfg_single) = true
   /\ Qgt0 (gdm_loss_weight cfg_single) = true
   /\ Qgt0 (ldm_loss_weight cfg_single) = true
   /\ res (main toy_ext cfg_single [0] toy_epochs toy_models) = inr tt
   /\ phases (tr (main toy_ext cfg_single [0] toy_epochs toy_models))
      = [PCompose 0; PZeroGrad 0; PBackward 0; POptStep 0])
  /\ (local_dist_own_hard_sample cfg_shared_ldm = false
      /\ Qgt0 (ldm_loss_weight cfg_shared_ldm) = true
      /\ res (main toy_ext cfg_shared_ldm [0; 1] toy_epochs toy_models)
         = inr tt
      /\ phases (tr (main toy_ext cfg_shared_ldm [0; 1] toy_epochs
                          toy_models))
         = [PCompose 0; PZeroGrad 0; PBackward 0;
            PCompose 1; PZeroGrad 1; PBackward 1;
            POptStep 0; POptStep 1]).
Proof. repeat split; vm_compute; reflexivity. Qed.

Lemma unusable_mutual_weights_are_skipped_witness :
  num_models cfg_single <= 1
  /\ step_wf toy_ext cfg_single toy_ims toy_labels toy_models [0] = true
  /\ absent is_kl_div (tr (toy_step cfg_single [0]))
  /\ composed (fun _ t =>
                 s_pm_loss t = PyNum 0 /\ s_gdm_loss t = PyNum 0
                 /\ s_ldm_loss t = PyNum 0)
              (tr (toy_step cfg_single [0]))
  /\ (exists r, res (toy_step cfg_single [0]) = inr r)
  /\ local_dist_own_hard_sample cfg_shared_ldm = false
  /\ absent is_ldm_term (tr (toy_step cfg_shared_ldm [0; 1])).
Proof.
  destruct (unusable_mutual_weights_are_skipped toy_ext cfg_single toy_ims
              toy_labels toy_models [0]) as (H1 & _ & Hwf).
  destruct (unusable_mutual_weights_are_skipped toy_ext cfg_shared_ldm
              toy_ims toy_labels toy_models [0; 1]) as (_ & H2 & _).
  assert (HM : num_models cfg_single <= 1) by (vm_compute; lia).
  destruct (H1 HM) as (Hkl & _ & _ & Hc).
  split; [exact HM |].
  split; [vm_compute; reflexivity |].
  split; [exact Hkl |]. split; [exact Hc |].
  split; [apply Hwf; vm_compute; reflexivity |].
  split; [reflexivity |]. apply H2. reflexivity.
Defined.

Lemma pm_loss_is_mean_kl_witness :
  2 <= num_models cfg_all
  /\ Qgt0 (pm_loss_weight cfg_all) = true
  /\ step_wf toy_ext cfg_all toy_ims toy_labels toy_models [0; 1] = true
  /\ 0 < num_models cfg_all
  /\ (exists outs locs t,
        res (toy_step cfg_all [0; 1]) = inr (outs, locs)
        /\ nth_error locs 0 = Some t
        /\ Qeq (py_value (s_pm_loss t))
               (pm_loss_spec toy_ext cfg_all toy_ims toy_models 0))
  /\ ~ In (EKlDiv 0 0) (tr (toy_step cfg_all [0; 1])).
Proof.
  assert (H1 : 2 <= num_models cfg_all) by (vm_compute; lia).
  assert (H2 : Qgt0 (pm_loss_weight cfg_all) = true) by reflexivity.
  assert (H3 : step_wf toy_ext cfg_all toy_ims toy_labels toy_models [0; 1]
               = true) by (vm_compute; reflexivity).
  assert (H4 : 0 < num_models cfg_all) by (vm_compute; lia).
  split; [exact H1 |]. split; [exact H2 |]. split; [exact H3 |].
  split; [exact H4 |].
  exact (pm_loss_is_mean_kl toy_ext cfg_all toy_ims toy_labels toy_models
           [0; 1] 0 H1 H2 H3 H4).
Defined.

Lemma gdm_loss_is_mean_sq_diff_witness :
  2 <= num_models cfg_all
  /\ Qgt0 (gdm_loss_weight cfg_all) = true
  /\ step_wf toy_ext cfg_all toy_ims toy_labels toy_models [0; 1] = true
  /\ 1 < num_models cfg_all
  /\ (exists outs locs t,
        res (toy_step cfg_all [0; 1]) = inr (outs, locs)
        /\ nth_error locs 1 = Some t
        /\ Qeq (py_value (s_gdm_loss t))
               (gdm_loss_spec toy_ext cfg_all toy_ims toy_labels toy_models
                              1))
  /\ ~ In (EGdmTerm 1 1) (tr (toy_step cfg_all [0; 1])).
Proof.
  assert (H1 : 2 <= num_models cfg_all) by (vm_compute; lia).
  assert (H2 : Qgt0 (gdm_loss_weight cfg_all) = true) by reflexivity.
  assert (H3 : step_wf toy_ext cfg_all toy_ims toy_labels toy_models [0; 1]
               = true) by (vm_compute; reflexivity).
  assert (H4 : 1 < num_models cfg_all) by (vm_compute; lia).
  split; [exact H1 |]. split; [exact H2 |]. split; [exact H3 |].
  split; [exact H4 |].
  exact (gdm_loss_is_mean_sq_diff toy_ext cfg_all toy_ims toy_labels
           toy_models [0; 1] 1 H1 H2 H3 H4).
Defined.

Lemma ldm_only_with_own_hard_samples_witness :
  (exists i j, In (ELdmTerm i j) (tr (toy_step cfg_all [0; 1])))
  /\ (2 <= num_models cfg_all /\ local_dist_own_hard_sample cfg_all = true
      /\ Qgt0 (ldm_loss_weight cfg_all) = true)
  /\ ldm_on cfg_shared_ldm = false
  /\ composed (fun _ t =>
                 s_ldm_loss t = PyNum 0
                 /\ Qeq (py_value (py_mul_num (s_ldm_loss t)
                                     (ldm_loss_weight cfg_shared_ldm))) 0)
              (tr (toy_step cfg_shared_ldm [0; 1])).
Proof.
  assert (H : exists i j, In (ELdmTerm i j) (tr (toy_step cfg_all [0; 1]))).
  { exists 0, 1. vm_compute. do 10 right. left. reflexivity. }
  split; [exact H |].
  split;
    [exact (proj1 (ldm_only_with_own_hard_samples toy_ext cfg_all toy_ims
                     toy_labels toy_models [0; 1]) H) |].
  split; [reflexivity |].
  apply (proj2 (ldm_only_with_own_hard_samples toy_ext cfg_shared_ldm
                  toy_ims toy_labels toy_models [0; 1])).
  reflexivity.
Defined.

Lemma local_loss_skipped_at_weight_0_witness :
  Qis0 (l_loss_weight cfg_no_local) = true
  /\ step_wf toy_ext cfg_no_local toy_ims toy_labels toy_models [0; 1] = true
  /\ absent is_local_loss (tr (toy_step cfg_no_local [0; 1]))
  /\ ldm_on cfg_no_local = false
  /\ exists outs locs,
       res (toy_step cfg_no_local [0; 1]) = inr (outs, locs)
       /\ length locs = num_models cfg_no_local
       /\ (forall t, In t locs ->
            Qeq (py_value (s_loss t))
                (py_value (PyVar (s_g_loss t)) * g_loss_weight cfg_no_local
                 + (if Qgt0 (id_loss_weight cfg_no_local)
                    then py_value (s_id_loss t)
                         * id_loss_weight cfg_no_local
                    else 0)
                 + (if pm_on cfg_no_local
                    then py_value (s_pm_loss t)
                         * pm_loss_weight cfg_no_local
                    else 0)
                 + (if gdm_on cfg_no_local
                    then py_value (s_gdm_loss t)
                         * gdm_loss_weight cfg_no_local
                    else 0)))
       /\ (exists t,
             nth_error locs 0 = Some t
             /\ s_l_loss t = PyNum 0
             /\ Qeq (py_value (PyVar (s_g_loss t))) 3
             /\ Qeq (py_value (s_id_loss t)) 1
             /\ Qeq (py_value (s_pm_loss t)) 3
             /\ Qeq (py_value (s_gdm_loss t)) 32
             /\ Qeq (py_value (s_loss t)) 39)
       /\ (exists t,
             nth_error locs 1 = Some t
             /\ s_l_loss t = PyNum 0
             /\ Qeq (py_value (PyVar (s_g_loss t))) 9
             /\ Qeq (py_value (s_id_loss t)) 3
             /\ Qeq (py_value (s_pm_loss t)) 6
             /\ Qeq (py_value (s_gdm_loss t)) 32
             /\ Qeq (py_value (s_loss t)) 50).
Proof.
  assert (H0 : Qis0 (l_loss_weight cfg_no_local) = true) by reflexivity.
  assert (Hwf : step_wf toy_ext cfg_no_local toy_ims toy_labels toy_models
                        [0; 1] = true) by (vm_compute; reflexivity).
  destruct (local_loss_skipped_at_weight_0 toy_ext cfg_no_local toy_ims
              toy_labels toy_models [0; 1] H0) as (Ha & Hv).
  split; [exact H0 |]. split; [exact Hwf |]. split; [exact Ha |].
  destruct (Hv Hwf) as (Hoff & outs & locs & Hr & Hl & Hall & Hi).
  split; [exact Hoff |].
  exists outs, locs. split; [exact Hr |]. split; [exact Hl |].
  split; [exact Hall |]. split.
  - destruct (Hi 0) as (t & Hn & Hl0 & _ & Hg & Hid & Hpm & Hgdm & Htot);
      [vm_compute; lia |].
    exists t. split; [exact Hn |]. split; [exact Hl0 |].
    split; [eapply Qeq_trans; [exact Hg | vm_compute; reflexivity] |].
    split; [eapply Qeq_trans; [exact (Hid eq_refl) | vm_compute; reflexivity]
           |].
    split; [eapply Qeq_trans; [exact (Hpm eq_refl) | vm_compute; reflexivity]
           |].
    split; [eapply Qeq_trans; [exact (Hgdm eq_refl)
                              | vm_compute; reflexivity] |].
    eapply Qeq_trans; [exact Htot | vm_compute; reflexivity].
  - destruct (Hi 1) as (t & Hn & Hl0 & _ & Hg & Hid & Hpm & Hgdm & Htot);
      [vm_compute; lia |].
    exists t. split; [exact Hn |]. split; [exact Hl0 |].
    split; [eapply Qeq_trans; [exact Hg | vm_compute; reflexivity] |].
    split; [eapply Qeq_trans; [exact (Hid eq_refl) | vm_compute; reflexivity]
           |].
    split; [eapply Qeq_trans; [exact (Hpm eq_refl) | vm_compute; reflexivity]
           |].
    split; [eapply Qeq_trans; [exact (Hgdm eq_refl)
                              | vm_compute; reflexivity] |].
    eapply Qeq_trans; [exact Htot | vm_compute; reflexivity].
Defined.

Lemma step_log_uses_last_model_witness :
  2 <= num_models cfg_all
  /\ step_wf toy_ext cfg_all toy_ims toy_labels toy_models [0; 1] = true
  /\ exists outs locs o t,
       res (toy_step cfg_all [0; 1]) = inr (outs, locs)
       /\ length outs = num_models cfg_all
       /\ length locs = num_models cfg_all
       /\ nth_error outs (num_models cfg_all - 1) = Some o
       /\ nth_error locs (num_models cfg_all - 1) = Some t
       /\ o = out_of toy_ext cfg_all toy_ims toy_labels toy_models
                     (num_models cfg_all - 1)
       /\ meter_updates (tr (toy_step cfg_all [0; 1])) = log_of cfg_all o t.
Proof.
  assert (H1 : 2 <= num_models cfg_all) by (vm_compute; lia).
  assert (H2 : step_wf toy_ext cfg_all toy_ims toy_labels toy_models [0; 1]
               = true) by (vm_compute; reflexivity).
  split; [exact H1 |]. split; [exact H2 |].
  exact (step_log_uses_last_model toy_ext cfg_all toy_ims toy_labels
           toy_models [0; 1] H1 H2).
Defined.

Lemma ldm_on_placeholder_raises_witness :
  Qis0 (l_loss_weight cfg_local0_ldm) = true
  /\ local_dist_own_hard_sample cfg_local0_ldm = true
  /\ 2 <= num_models cfg_local0_ldm
  /\ Qgt0 (ldm_loss_weight cfg_local0_ldm) = true
  /\ length [0; 1] = num_models cfg_local0_ldm
  /\ (forall o,
        In o (first_outs toy_ext cfg_local0_ldm toy_ims toy_labels
                         toy_models [0; 1]) ->
        o_l_dist_mat o = PyNum 0)
  /\ (forall tvt,
        ldm_loss_block cfg_local0_ldm 0 tvt (py_len toy_ims)
          (first_outs toy_ext cfg_local0_ldm toy_ims toy_labels toy_models
                      [0; 1])
          (PyNum 0)
        = (inl AttributeError, [ELdmTerm 0 1]))
  /\ (exists e, res (toy_step cfg_local0_ldm [0; 1]) = inl e)
  /\ phases (tr (toy_step cfg_local0_ldm [0; 1])) = []
  /\ (forall k, st (toy_step cfg_local0_ldm [0; 1]) k = toy_models k).
Proof.
  assert (H1 : Qis0 (l_loss_weight cfg_local0_ldm) = true) by reflexivity.
  assert (H2 : local_dist_own_hard_sample cfg_local0_ldm = true)
    by reflexivity.
  assert (H3 : 2 <= num_models cfg_local0_ldm) by (vm_compute; lia).
  assert (H4 : Qgt0 (ldm_loss_weight cfg_local0_ldm) = true) by reflexivity.
  assert (H5 : length [0; 1] = num_models cfg_local0_ldm) by reflexivity.
  split; [exact H1 |]. split; [exact H2 |]. split; [exact H3 |].
  split; [exact H4 |]. split; [exact H5 |].
  exact (ldm_on_placeholder_raises toy_ext cfg_local0_ldm toy_ims toy_labels
           toy_models [0; 1] H1 H2 H3 H4 H5).
Defined.

(* ================================================================== *)
(** * The learning-rate schedules *)

Lemma assign_lr_value v : forall groups g,
  assign_lr (inr v) groups g
  = (inr (match rev groups with
          | [] => g
          | x :: _ => Some (set_lr v x)
          end),
     map (set_lr v) groups).
Proof.
  induction groups as [| x rest IH]; intros g; [reflexivity |].
  cbn [assign_lr map]. rewrite IH. cbn [fst snd]. f_equal. f_equal.
  cbn [rev]. destruct (rev rest) as [| y l]; reflexivity.
Qed.

Lemma assign_lr_raises e x rest g :
  assign_lr (inl e) (x :: rest) g = (inl e, x :: rest).
Proof. reflexivity. Qed.

Lemma print_assigned v groups :
  groups <> [] ->
  print_lr (assign_lr (inr v) groups None)
  = mkSched (inr tt) (map (set_lr v) groups) [v].
Proof.
  intros Hne. rewrite assign_lr_value. unfold print_lr. cbn [fst snd].
  destruct (rev groups) as [| x l] eqn:Hrev; [| reflexivity].
  apply (f_equal (@rev _)) in Hrev. rewrite rev_involutive in Hrev.
  now elim Hne.
Qed.

(** X1.  At a decay epoch, with at least one parameter group, an exponent
    [ind + 1] within the floats and a power that is defined,
    [adjust_lr_staircase] does one of two things.  When the power
    [factor ** (ind + 1)] and its product with [base_lr] are within the
    floats, it returns, sets the rate of every group to
    [base_lr * factor ** (ind + 1)], whatever the rates were, leaves the
    other entries and the number of groups as they are, and prints that
    rate.  When the power is beyond the floats, it raises OverflowError;
    no rate is changed and nothing is printed. *)
Theorem adjust_lr_staircase_sets_every_group find_index groups base_lr ep
    decay_epochs factor :
  existsb (Z.eqb ep) decay_epochs = true ->
  groups <> [] ->
  overflows (inject_Z (find_index decay_epochs ep + 1)) = false ->
  (0 <= find_index decay_epochs ep + 1)%Z \/ ~ Qeq factor 0 ->
  (overflows (Qpower factor (find_index decay_epochs ep + 1)) = false ->
   overflows (base_lr * Qpower factor (find_index decay_epochs ep + 1))%Q
   = false ->
   adjust_lr_staircase find_index groups base_lr ep decay_epochs factor
   = mkSched (inr tt)
       (map (set_lr (base_lr
                     * Qpower factor (find_index decay_epochs ep + 1))%Q)
            groups)
       [(base_lr * Qpower factor (find_index decay_epochs ep + 1))%Q])
  /\ (overflows (Qpower factor (find_index decay_epochs ep + 1)) = true ->
      adjust_lr_staircase find_index groups base_lr ep decay_epochs factor
      = mkSched (inl OverflowError) groups []).
Proof.
  intros Hin Hne _ Hpow. unfold adjust_lr_staircase. rewrite Hin.
  unfold staircase_value, py_pow_int.
  replace ((find_index decay_epochs ep + 1 <? 0)%Z && Qeq_bool factor 0)
    with false.
  - split.
    + intros -> _. now apply print_assigned.
    + intros ->. destruct groups as [| x rest]; [now elim Hne | reflexivity].
  - symmetry. apply andb_false_iff. destruct Hpow as [H | H].
    + left. apply Z.ltb_ge. exact H.
    + right. destruct (Qeq_bool factor 0) eqn:He; [| reflexivity].
      apply Qeq_bool_eq in He. contradiction.
Qed.

(** X2.  Past the transition epoch, with at least one parameter group,
    [total_ep <> tran_ep] and the two differences of epochs within the
    floats, [adjust_lr_exp] does one of two things.  When the power
    [0.001 ** ((ep - tran_ep) / (total_ep - tran_ep))] and its product
    with [base_lr] are within the floats, it returns, sets the rate of
    every group to that product, whatever the rates were, leaves the other
    entries and the number of groups as they are, and prints that rate.
    When the power is beyond the floats, as it is for an exponent below
    about -102.7 (reached only with [total_ep < tran_ep]), it raises
    OverflowError; no rate is changed and nothing is printed. *)
Theorem adjust_lr_exp_sets_every_group fpow groups base_lr ep total_ep
    tran_ep :
  (tran_ep < ep)%Z -> total_ep <> tran_ep -> groups <> [] ->
  overflows (inject_Z (ep - tran_ep)) = false ->
  overflows (inject_Z (total_ep - tran_ep)) = false ->
  (overflows (fpow (1 # 1000)
                   (inject_Z (ep - tran_ep)
                    / inject_Z (total_ep - tran_ep)))%Q = false ->
   overflows (base_lr
              * fpow (1 # 1000)
                     (inject_Z (ep - tran_ep)
                      / inject_Z (total_ep - tran_ep)))%Q = false ->
   adjust_lr_exp fpow groups base_lr ep total_ep tran_ep
   = mkSched (inr tt)
       (map (set_lr (base_lr
                     * fpow (1 # 1000)
                            (inject_Z (ep - tran_ep)
                             / inject_Z (total_ep - tran_ep)))%Q)
            groups)
       [(base_lr
         * fpow (1 # 1000)
                (inject_Z (ep - tran_ep) / inject_Z (total_ep - tran_ep)))%Q])
  /\ (overflows (fpow (1 # 1000)
                      (inject_Z (ep - tran_ep)
                       / inject_Z (total_ep - tran_ep)))%Q = true ->
      adjust_lr_exp fpow groups base_lr ep total_ep tran_ep
      = mkSched (inl OverflowError) groups []).
Proof.
  intros Hep Hspan Hne _ _. unfold adjust_lr_exp, exp_value.
  replace (tran_ep <? ep)%Z with true by (symmetry; now apply Z.ltb_lt).
  replace (total_ep - tran_ep =? 0)%Z with false
    by (symmetry; apply Z.eqb_neq; lia).
  cbv zeta. split.
  - intros -> _. now apply print_assigned.
  - intros ->. destruct groups as [| x rest]; [now elim Hne | reflexivity].
Qed.


(** X4.  When the schedule assigns a rate in an epoch, an optimizer without
    parameter groups makes either function raise UnboundLocalError at the
    print after the loop, also when computing the rate would itself have
    raised. *)
Theorem adjust_lr_without_groups_raises fpow find_index sc ep :
  schedule_fires sc ep = true ->
  adjust_lr fpow find_index sc ep []
  = mkSched (inl UnboundLocalError) [] [].
Proof.
  unfold schedule_fires, adjust_lr, adjust_lr_exp, adjust_lr_staircase.
  destruct (lr_decay_type_is_exp sc); intros ->; reflexivity.
Qed.

Lemma adjust_lr_off fpow find_index sc ep groups :
  schedule_fires sc ep = false ->
  adjust_lr fpow find_index sc ep groups = mkSched (inr tt) groups [].
Proof.
  unfold schedule_fires, adjust_lr, adjust_lr_exp, adjust_lr_staircase.
  destruct (lr_decay_type_is_exp sc); intros ->; reflexivity.
Qed.


(** X5.  In an epoch in which the schedule assigns no rate (the exponential
    one up to its transition epoch, the staircase one outside its decay
    epochs), the loop over the optimizers returns, changes no optimizer and
    prints nothing. *)
Theorem adjust_all_off_epoch_changes_nothing fpow find_index sc ep
    optimizers :
  schedule_fires sc ep = false ->
  adjust_all fpow find_index sc ep optimizers = (inr tt, optimizers, []).
Proof.
  intros Hoff. induction optimizers as [| o rest IH]; [reflexivity |].
  cbn [adjust_all]. rewrite (adjust_lr_off _ _ _ _ _ Hoff).
  cbn [lr_res lr_groups lr_printed]. rewrite IH. reflexivity.
Qed.


(* ================================================================== *)
(** * Feature extraction and the tests *)

Lemma net_eta m : mkNet (net_training m) (net_params m) = m.
Proof. now destruct m. Qed.

Lemma extract_feature_ok fwd model ims f :
  fwd false (net_params model) ims = inr f ->
  extract_feature fwd model ims
  = (inr (f_global_feat f, f_local_feat f), model).
Proof.
  intros Hf. unfold extract_feature. cbn [net_training net_params].
  rewrite Hf. now rewrite net_eta.
Qed.

Lemma extract_feature_err fwd model ims e :
  fwd false (net_params model) ims = inl e ->
  extract_feature fwd model ims = (inl e, mkNet false (net_params model)).
Proof.
  intros He. unfold extract_feature. cbn [net_training net_params].
  now rewrite He.
Qed.

Lemma extract_all_ok fwd model batches :
  (forall ims, In ims batches ->
     exists f, fwd false (net_params model) ims = inr f) ->
  exists fs, extract_all fwd model batches = (inr fs, model)
             /\ length fs = length batches.
Proof.
  induction batches as [| ims rest IH]; intros H.
  - now exists [].
  - destruct (H ims (or_introl eq_refl)) as (f & Hf).
    destruct IH as (fs & Hfs & Hlen); [intros; apply H; now right |].
    exists ((f_global_feat f, f_local_feat f) :: fs).
    cbn [extract_all].
    rewrite (extract_feature_ok fwd model ims f Hf).
    cbn [fst snd]. rewrite Hfs. cbn [fst snd length]. now rewrite Hlen.
Qed.

Lemma extract_all_err fwd model pre ims rest e :
  (forall x, In x pre ->
     exists f, fwd false (net_params model) x = inr f) ->
  fwd false (net_params model) ims = inl e ->
  extract_all fwd model (pre ++ ims :: rest)
  = (inl e, mkNet false (net_params model)).
Proof.
  intros H He. induction pre as [| x pre IH].
  - cbn [app extract_all].
    now rewrite (extract_feature_err fwd model ims e He).
  - destruct (H x (or_introl eq_refl)) as (f & Hf).
    cbn [app extract_all].
    rewrite (extract_feature_ok fwd model x f Hf). cbn [fst snd].
    rewrite IH by (intros; apply H; now right). reflexivity.
Qed.

(** X7.  [ExtractFeature] runs every forward pass in eval mode.  Over
    batches on which the pass returns, the calls return one pair of
    feature arrays per batch and leave the network in the mode it was in,
    train or eval, with its parameters.  When the pass raises on a batch,
    the call raises, the network is left in eval mode, whatever its mode
    was, and the batches after it are not read. *)
Theorem extraction_restores_mode_unless_it_raises fwd model pre ims rest e :
  (forall x, In x pre ->
     exists f, fwd false (net_params model) x = inr f) ->
  (exists fs, extract_all fwd model pre = (inr fs, model)
              /\ length fs = length pre)
  /\ (fwd false (net_params model) ims = inl e ->
      extract_all fwd model (pre ++ ims :: rest)
      = (inl e, mkNet false (net_params model))).
Proof.
  intros H. split; [now apply extract_all_ok |].
  intros He. now apply extract_all_err.
Qed.

Lemma eval_model_ok fwd batches i model :
  (forall ims, In ims batches ->
     exists f, fwd false (net_params model) ims = inr f) ->
  eval_model fwd batches i model
  = (inr tt, model, [TEval i 1 0; TEval i 0 1; TEval i 1 1]).
Proof.
  intros H. destruct (extract_all_ok fwd model batches H) as (fs & Hfs & _).
  unfold eval_model. rewrite Hfs. cbn [fst snd]. rewrite Hfs.
  cbn [fst snd]. rewrite Hfs. reflexivity.
Qed.

Lemma test_models_run fwd batches TVTs : forall models i,
  (forall m ims, In m models -> In ims batches ->
     exists f, fwd false (net_params m) ims = inr f) ->
  test_models fwd batches TVTs i models
  = (if length models <=? length TVTs - i then inr tt else inl IndexError,
     models,
     flat_map (fun k => [TEval k 1 0; TEval k 0 1; TEval k 1 1])
              (seq i (Nat.min (length models) (length TVTs - i)))).
Proof.
  induction models as [| m rest IH]; intros i H; [reflexivity |].
  cbn [test_models length].
  destruct (nth_error TVTs i) as [tvt |] eqn:Hnth.
  - assert (Hi : i < length TVTs)
      by (apply nth_error_Some; congruence).
    rewrite (eval_model_ok fwd batches i m)
      by (intros; apply H; [now left | assumption]).
    cbn [fst snd]. rewrite IH by (intros; apply H; [now right | assumption]).
    cbn [fst snd].
    replace (length TVTs - i) with (S (length TVTs - S i)) by lia.
    cbn [Nat.min seq flat_map Nat.leb app]. reflexivity.
  - apply nth_error_None in Hnth.
    replace (length TVTs - i) with 0 by lia. reflexivity.
Qed.

(** X8.  With a transfer function for every model and forward passes that
    return, [test] returns: it loads the checkpoint exactly when asked,
    evaluates the models in order, each three times, with the global
    distance, with the local distance and with both, and leaves every
    network in the mode and with the parameters it had (after the load). *)
Theorem test_evaluates_every_model fwd load_ckpt batches TVTs (flag : bool)
    (models : list net) :
  length (may_load load_ckpt flag models) <= length TVTs ->
  (forall m ims, In m (may_load load_ckpt flag models) -> In ims batches ->
     exists f, fwd false (net_params m) ims = inr f) ->
  test fwd load_ckpt batches TVTs flag models
  = mkTest (inr tt) (may_load load_ckpt flag models)
      ((if flag then [TLoadCkpt] else [])
       ++ flat_map (fun k => [TEval k 1 0; TEval k 0 1; TEval k 1 1])
                   (seq 0 (length (may_load load_ckpt flag models)))).
Proof.
  intros Hlen Hfwd. unfold test.
  rewrite (test_models_run fwd batches TVTs _ 0 Hfwd).
  cbn [fst snd]. rewrite Nat.sub_0_r.
  replace (length (may_load load_ckpt flag models) <=? length TVTs)
    with true by (symmetry; now apply Nat.leb_le).
  now rewrite Nat.min_l.
Qed.

(** X9.  With fewer transfer functions than models, and forward passes that
    return, [test] raises IndexError, after it has evaluated, three times
    each, exactly the models that have a transfer function. *)
Theorem test_raises_without_transfer fwd load_ckpt batches TVTs (flag : bool)
    (models : list net) :
  length TVTs < length (may_load load_ckpt flag models) ->
  (forall m ims, In m (may_load load_ckpt flag models) -> In ims batches ->
     exists f, fwd false (net_params m) ims = inr f) ->
  test fwd load_ckpt batches TVTs flag models
  = mkTest (inl IndexError) (may_load load_ckpt flag models)
      ((if flag then [TLoadCkpt] else [])
       ++ flat_map (fun k => [TEval k 1 0; TEval k 0 1; TEval k 1 1])
                   (seq 0 (length TVTs))).
Proof.
  intros Hlen Hfwd. unfold test.
  rewrite (test_models_run fwd batches TVTs _ 0 Hfwd).
  cbn [fst snd]. rewrite Nat.sub_0_r.
  replace (length (may_load load_ckpt flag models) <=? length TVTs)
    with false by (symmetry; apply Nat.leb_gt; lia).
  rewrite Nat.min_r by lia. reflexivity.
Qed.

(* ================================================================== *)
(** * The schedules and the tests on small inputs *)

Lemma adjust_lr_staircase_sets_every_group_witness :
  existsb (Z.eqb 201) [101; 201]%Z = true
  /\ toy_groups <> []
  /\ overflows (inject_Z (toy_find_index [101; 201]%Z 201 + 1)) = false
  /\ ((0 <= toy_find_index [101; 201]%Z 201 + 1)%Z \/ ~ Qeq (1 # 10)%Q 0%Q)
  /\ overflows (Qpower (1 # 10) (toy_find_index [101; 201]%Z 201 + 1))
     = false
  /\ overflows ((1 # 5000)
                * Qpower (1 # 10) (toy_find_index [101; 201]%Z 201 + 1))%Q
     = false
  /\ adjust_lr_staircase toy_find_index toy_groups (1 # 5000) 201
                         [101; 201]%Z (1 # 10)
     = mkSched (inr tt)
         [mkGroup [1%Q; 2%Q] (1 # 500000) (1 # 2000);
          mkGroup [4%Q] (1 # 500000) 0]
         [(1 # 500000)%Q]
  /\ ((0 <= toy_find_index [101; 201]%Z 201 + 1)%Z
      \/ ~ Qeq (inject_Z (10 ^ 200)) 0%Q)
  /\ overflows (Qpower (inject_Z (10 ^ 200))
                       (toy_find_index [101; 201]%Z 201 + 1)) = true
  /\ adjust_lr_staircase toy_find_index toy_groups (1 # 5000) 201
                         [101; 201]%Z (inject_Z (10 ^ 200))
     = mkSched (inl OverflowError) toy_groups [].
Proof.
  assert (H1 : existsb (Z.eqb 201) [101; 201]%Z = true) by reflexivity.
  assert (H2 : toy_groups <> []) by discriminate.
  assert (H3 : overflows (inject_Z (toy_find_index [101; 201]%Z 201 + 1))
               = false) by (vm_compute; reflexivity).
  assert (H4 : (0 <= toy_find_index [101; 201]%Z 201 + 1)%Z
               \/ ~ Qeq (1 # 10)%Q 0%Q) by (left; vm_compute; discriminate).
  assert (H5 : overflows (Qpower (1 # 10)
                            (toy_find_index [101; 201]%Z 201 + 1)) = false)
    by (vm_compute; reflexivity).
  assert (H6 : overflows ((1 # 5000)
                          * Qpower (1 # 10)
                              (toy_find_index [101; 201]%Z 201 + 1))%Q
               = false) by (vm_compute; reflexivity).
  assert (H7 : (0 <= toy_find_index [101; 201]%Z 201 + 1)%Z
               \/ ~ Qeq (inject_Z (10 ^ 200)) 0%Q)
    by (left; vm_compute; discriminate).
  assert (H8 : overflows (Qpower (inject_Z (10 ^ 200))
                            (toy_find_index [101; 201]%Z 201 + 1)) = true)
    by (vm_compute; reflexivity).
  split; [exact H1 |]. split; [exact H2 |]. split; [exact H3 |].
  split; [exact H4 |]. split; [exact H5 |]. split; [exact H6 |].
  split.
  - exact (proj1 (adjust_lr_staircase_sets_every_group toy_find_index
                    toy_groups (1 # 5000) 201 [101; 201]%Z (1 # 10)
                    H1 H2 H3 H4) H5 H6).
  - split; [exact H7 |]. split; [exact H8 |].
    exact (proj2 (adjust_lr_staircase_sets_every_group toy_find_index
                    toy_groups (1 # 5000) 201 [101; 201]%Z
                    (inject_Z (10 ^ 200)) H1 H2 H3 H7) H8).
Defined.

Lemma adjust_lr_exp_sets_every_group_witness :
  (76 < 113)%Z /\ 150%Z <> 76%Z /\ toy_groups <> []
  /\ overflows (inject_Z (113 - 76)) = false
  /\ overflows (inject_Z (150 - 76)) = false
  /\ overflows (toy_fpow (1 # 1000) (37 # 74)) = false
  /\ overflows ((1 # 5000) * toy_fpow (1 # 1000) (37 # 74))%Q = false
  /\ adjust_lr_exp toy_fpow toy_groups (1 # 5000) 113 150 76
     = mkSched (inr tt)
         (map (set_lr ((1 # 5000) * toy_fpow (1 # 1000) (37 # 74))%Q)
              toy_groups)
         [((1 # 5000) * toy_fpow (1 # 1000) (37 # 74))%Q]
  /\ (76 < 179)%Z /\ 75%Z <> 76%Z
  /\ overflows (inject_Z (179 - 76)) = false
  /\ overflows (inject_Z (75 - 76)) = false
  /\ overflows (toy_fpow (1 # 1000) (- (103))) = true
  /\ adjust_lr_exp toy_fpow toy_groups (1 # 5000) 179 75 76
     = mkSched (inl OverflowError) toy_groups [].
Proof.
  assert (H1 : (76 < 113)%Z) by lia.
  assert (H2 : 150%Z <> 76%Z) by lia.
  assert (H3 : toy_groups <> []) by discriminate.
  assert (H4 : overflows (inject_Z (113 - 76)) = false)
    by (vm_compute; reflexivity).
  assert (H5 : overflows (inject_Z (150 - 76)) = false)
    by (vm_compute; reflexivity).
  assert (H6 : overflows (toy_fpow (1 # 1000) (37 # 74)) = false)
    by (vm_compute; reflexivity).
  assert (H7 : overflows ((1 # 5000) * toy_fpow (1 # 1000) (37 # 74))%Q
               = false) by (vm_compute; reflexivity).
  assert (K1 : (76 < 179)%Z) by lia.
  assert (K2 : 75%Z <> 76%Z) by lia.
  assert (K4 : overflows (inject_Z (179 - 76)) = false)
    by (vm_compute; reflexivity).
  assert (K5 : overflows (inject_Z (75 - 76)) = false)
    by (vm_compute; reflexivity).
  assert (K6 : overflows (toy_fpow (1 # 1000) (- (103))) = true)
    by (vm_compute; reflexivity).
  split; [exact H1 |]. split; [exact H2 |]. split; [exact H3 |].
  split; [exact H4 |]. split; [exact H5 |]. split; [exact H6 |].
  split; [exact H7 |]. split.
  - exact (proj1 (adjust_lr_exp_sets_every_group toy_fpow toy_groups
                    (1 # 5000) 113 150 76 H1 H2 H3 H4 H5) H6 H7).
  - split; [exact K1 |]. split; [exact K2 |]. split; [exact K4 |].
    split; [exact K5 |]. split; [exact K6 |].
    exact (proj2 (adjust_lr_exp_sets_every_group toy_fpow toy_groups
                    (1 # 5000) 179 75 76 K1 K2 H3 K4 K5) K6).
Defined.


Lemma adjust_lr_without_groups_raises_witness :
  schedule_fires toy_sched_staircase 101 = true
  /\ adjust_lr toy_fpow toy_find_index toy_sched_staircase 101 []
     = mkSched (inl UnboundLocalError) [] [].
Proof.
  split; [reflexivity |].
  exact (adjust_lr_without_groups_raises toy_fpow toy_find_index
           toy_sched_staircase 101 eq_refl).
Defined.

Lemma adjust_all_off_epoch_changes_nothing_witness :
  schedule_fires toy_sched_exp 76 = false
  /\ adjust_all toy_fpow toy_find_index toy_sched_exp 76 toy_optimizers
     = (inr tt, toy_optimizers, []).
Proof.
  split; [reflexivity |].
  exact (adjust_all_off_epoch_changes_nothing toy_fpow toy_find_index
           toy_sched_exp 76 toy_optimizers eq_refl).
Defined.


Lemma toy_fwd_returns (m : net) (ims : tensor) :
  In ims toy_batches -> exists f, toy_fwd false (net_params m) ims = inr f.
Proof.
  intros [<- | [<- | []]]; eexists; reflexivity.
Defined.

Lemma extraction_restores_mode_unless_it_raises_witness :
  (forall x, In x toy_batches ->
     exists f, toy_fwd false (net_params (mkNet true [1%Q; 2%Q])) x = inr f)
  /\ toy_fwd false [1%Q; 2%Q] toy_labels = inl RuntimeError
  /\ (exists fs,
        extract_all toy_fwd (mkNet true [1%Q; 2%Q]) toy_batches
        = (inr fs, mkNet true [1%Q; 2%Q])
        /\ length fs = 2)
  /\ extract_all toy_fwd (mkNet true [1%Q; 2%Q])
                 (toy_batches ++ toy_labels :: [toy_ims])
     = (inl RuntimeError, mkNet false [1%Q; 2%Q]).
Proof.
  assert (H1 : forall x, In x toy_batches ->
             exists f,
               toy_fwd false (net_params (mkNet true [1%Q; 2%Q])) x = inr f)
    by (intros x; apply toy_fwd_returns).
  assert (H2 : toy_fwd false [1%Q; 2%Q] toy_labels = inl RuntimeError)
    by reflexivity.
  split; [exact H1 |]. split; [exact H2 |]. split.
  - exact (proj1 (extraction_restores_mode_unless_it_raises toy_fwd
                    (mkNet true [1%Q; 2%Q]) toy_batches toy_labels
                    [toy_ims] RuntimeError H1)).
  - exact (proj2 (extraction_restores_mode_unless_it_raises toy_fwd
                    (mkNet true [1%Q; 2%Q]) toy_batches toy_labels
                    [toy_ims] RuntimeError H1) H2).
Defined.

Lemma test_evaluates_every_model_witness :
  length (may_load toy_load_ckpt true toy_nets) <= length [0; 1]
  /\ (forall m ims,
        In m (may_load toy_load_ckpt true toy_nets) -> In ims toy_batches ->
        exists f, toy_fwd false (net_params m) ims = inr f)
  /\ test toy_fwd toy_load_ckpt toy_batches [0; 1] true toy_nets
     = mkTest (inr tt)
         [mkNet true [5%Q; 5%Q]; mkNet false [5%Q; 5%Q]]
         [TLoadCkpt; TEval 0 1 0; TEval 0 0 1; TEval 0 1 1;
          TEval 1 1 0; TEval 1 0 1; TEval 1 1 1].
Proof.
  assert (H1 : length (may_load toy_load_ckpt true toy_nets)
               <= length [0; 1]) by (vm_compute; lia).
  assert (H2 : forall m ims,
             In m (may_load toy_load_ckpt true toy_nets) ->
             In ims toy_batches ->
             exists f, toy_fwd false (net_params m) ims = inr f)
    by (intros m ims _; apply toy_fwd_returns).
  split; [exact H1 |]. split; [exact H2 |].
  exact (test_evaluates_every_model toy_fwd toy_load_ckpt toy_batches
           [0; 1] true toy_nets H1 H2).
Defined.

Lemma test_raises_without_transfer_witness :
  length [0] < length (may_load toy_load_ckpt false toy_nets)
  /\ (forall m ims,
        In m (may_load toy_load_ckpt false toy_nets) -> In ims toy_batches ->
        exists f, toy_fwd false (net_params m) ims = inr f)
  /\ test toy_fwd toy_load_ckpt toy_batches [0] false toy_nets
     = mkTest (inl IndexError) toy_nets
         [TEval 0 1 0; TEval 0 0 1; TEval 0 1 1].
Proof.
  assert (H1 : length [0] < length (may_load toy_load_ckpt false toy_nets))
    by (vm_compute; lia).
  assert (H2 : forall m ims,
             In m (may_load toy_load_ckpt false toy_nets) ->
             In ims toy_batches ->
             exists f, toy_fwd false (net_params m) ims = inr f)
    by (intros m ims _; apply toy_fwd_returns).
  split; [exact H1 |]. split; [exact H2 |].
  exact (test_raises_without_transfer toy_fwd toy_load_ckpt toy_batches
           [0] false toy_nets H1 H2).
Defined.

(* ================================================================== *)
(** * Steps outside the well-formed ones, on the small ensemble *)

Lemma negative_local_weight_counted_not_logged_witness :
  Qis0 (l_loss_weight cfg_negative_local) = false
  /\ Qgt0 (l_loss_weight cfg_negative_local) = false
  /\ step_wf toy_ext cfg_negative_local toy_ims toy_labels toy_models [0; 1]
     = true
  /\ In (ELocalLoss 1 true) (tr (toy_step cfg_negative_local [0; 1]))
  /\ (forall p,
        In p (meter_updates (tr (toy_step cfg_negative_local [0; 1]))) ->
        is_local_meter (fst p) = false)
  /\ exists outs locs,
       res (toy_step cfg_negative_local [0; 1]) = inr (outs, locs)
       /\ length locs = 2
       /\ (forall t, In t locs ->
            is_var (s_l_loss t)
            /\ Qeq (py_value (s_loss t))
                   (weighted_sum cfg_negative_local (PyVar (s_g_loss t))
                      (s_l_loss t) (s_id_loss t) (s_pm_loss t)
                      (s_gdm_loss t) (s_ldm_loss t)))
       /\ (exists t,
             nth_error locs 0 = Some t
             /\ Qeq (py_value (s_l_loss t)) (13 # 2)
             /\ Qeq (py_value (s_loss t)) (1089 # 2))
       /\ (exists t,
             nth_error locs 1 = Some t
             /\ Qeq (py_value (s_l_loss t)) (37 # 2)
             /\ Qeq (py_value (s_loss t)) (1087 # 2)).
Proof.
  assert (Hwf : step_wf toy_ext cfg_negative_local toy_ims toy_labels
                        toy_models [0; 1] = true) by (vm_compute; reflexivity).
  destruct (negative_local_weight_counted_not_logged toy_ext
              cfg_negative_local toy_ims toy_labels toy_models [0; 1]
              eq_refl eq_refl Hwf)
    as (Hc & Hm & outs & locs & Hr & Hl & Hall & Hi).
  split; [reflexivity |]. split; [reflexivity |]. split; [exact Hwf |].
  split; [apply (Hc 1); vm_compute; lia |]. split; [exact Hm |].
  exists outs, locs. split; [exact Hr |]. split; [exact Hl |].
  split; [exact Hall |]. split.
  - destruct (Hi 0) as (t & Hn & Hlv & Htot); [vm_compute; lia |].
    exists t. split; [exact Hn |].
    split; [eapply Qeq_trans; [exact Hlv | vm_compute; reflexivity] |].
    eapply Qeq_trans; [exact Htot | vm_compute; reflexivity].
  - destruct (Hi 1) as (t & Hn & Hlv & Htot); [vm_compute; lia |].
    exists t. split; [exact Hn |].
    split; [eapply Qeq_trans; [exact Hlv | vm_compute; reflexivity] |].
    eapply Qeq_trans; [exact Htot | vm_compute; reflexivity].
Defined.

Lemma gdm_loss_not_negative_witness :
  step_wf toy_ext cfg_all toy_ims toy_labels toy_models [0; 1] = true
  /\ 0 < py_len toy_ims
  /\ exists outs locs,
       res (toy_step cfg_all [0; 1]) = inr (outs, locs)
       /\ length locs = 2
       /\ forall t, In t locs -> (0 <= py_value (s_gdm_loss t))%Q.
Proof.
  assert (Hwf : step_wf toy_ext cfg_all toy_ims toy_labels toy_models [0; 1]
                = true) by (vm_compute; reflexivity).
  assert (Hn : 0 < py_len toy_ims) by (vm_compute; lia).
  split; [exact Hwf |]. split; [exact Hn |].
  exact (gdm_loss_not_negative toy_ext cfg_all toy_ims toy_labels toy_models
           [0; 1] Hwf Hn).
Defined.

Lemma gdm_loss_equal_for_two_models_witness :
  num_models cfg_all = 2
  /\ step_wf toy_ext cfg_all toy_ims toy_labels toy_models [0; 1] = true
  /\ 0 < py_len toy_ims
  /\ exists outs t0 t1,
       res (toy_step cfg_all [0; 1]) = inr (outs, [t0; t1])
       /\ Qeq (py_value (s_gdm_loss t0)) (py_value (s_gdm_loss t1)).
Proof.
  assert (Hwf : step_wf toy_ext cfg_all toy_ims toy_labels toy_models [0; 1]
                = true) by (vm_compute; reflexivity).
  assert (Hn : 0 < py_len toy_ims) by (vm_compute; lia).
  split; [reflexivity |]. split; [exact Hwf |]. split; [exact Hn |].
  exact (gdm_loss_equal_for_two_models toy_ext cfg_all toy_ims toy_labels
           toy_models [0; 1] eq_refl Hwf Hn).
Defined.

